(** * Capability matcher: the constraint-model engine of [SolverEngine]

    A shallow embedding of the [SolverEngine] class of [02.07.py] (and of the
    property normaliser of its older sibling [05.06.py]), with the properties
    of its requirement parser, semantic hierarchy resolver, eligibility
    filter, transport-mode classifier and constraint builder.

    Conventions of the embedding
    - a Python [str] is the list of its Unicode code points;
    - a Python [float] is an IEEE-754 binary64 value ([spec_float]);
    - a Python [dict] is an association list in insertion order;
    - a raised exception is the [Raise] case of [result];
    - the methods that mutate [self] are computations in a state-and-exception
      monad over the record [engine];
    - [str.lower] (driven by the interpreter's Unicode tables) and the Z3
      optimiser are parameters of the development. *)

From Stdlib Require Import String Ascii.
From Stdlib Require Import ZArith NArith PArith Bool Lia SpecFloat List.
Import ListNotations.

(* ------------------------------------------------------------------ *)
(** * Python strings *)

Module PyStr.

Definition char := N.
Definition str := list char.

(** An ASCII literal as a Python string. *)
Definition lit (s : string) : str := map N_of_ascii (list_ascii_of_string s).

Definition eqb (a b : str) : bool :=
  if list_eq_dec N.eq_dec a b then true else false.

(** [s.startswith(p)] *)
Fixpoint startswith (p s : str) : bool :=
  match p, s with
  | [], _ => true
  | _ :: _, [] => false
  | a :: p', b :: s' => N.eqb a b && startswith p' s'
  end.

(** [sub in s] *)
Fixpoint contains (sub s : str) : bool :=
  startswith sub s ||
  match s with
  | [] => false
  | _ :: s' => contains sub s'
  end.

(** [c in s] for a single character. *)
Definition has_char (c : char) (s : str) : bool := existsb (N.eqb c) s.

(** [str.isspace] on one code point (Py_UNICODE_ISSPACE). *)
Definition isspace (c : char) : bool :=
  existsb (N.eqb c)
    [9; 10; 11; 12; 13; 28; 29; 30; 31; 32; 133; 160; 5760;
     8192; 8193; 8194; 8195; 8196; 8197; 8198; 8199; 8200; 8201; 8202;
     8232; 8233; 8239; 8287; 12288]%N.

Fixpoint dropwhile (p : char -> bool) (s : str) : str :=
  match s with
  | [] => []
  | c :: s' => if p c then dropwhile p s' else s
  end.

Definition strip_with (p : char -> bool) (s : str) : str :=
  rev (dropwhile p (rev (dropwhile p s))).

(** [s.strip()] *)
Definition strip (s : str) : str := strip_with isspace s.

(** [s.split(sep)] for a non-empty separator: [skip] counts the characters
    of a separator occurrence still to be passed over, [cur] is the current
    piece, reversed. *)
Fixpoint split_go (sep : str) (skip : nat) (cur : str) (s : str) : list str :=
  match s with
  | [] => [rev cur]
  | c :: s' =>
      match skip with
      | S k => split_go sep k cur s'
      | O =>
          if startswith sep s
          then rev cur :: split_go sep (pred (List.length sep)) [] s'
          else split_go sep O (c :: cur) s'
      end
  end.

Definition split (sep s : str) : list str := split_go sep O [] s.

(** [s.split(sep)[0]] and [s.split(sep)[-1]] *)
Definition split_first (sep s : str) : str := hd [] (split sep s).
Definition split_last (sep s : str) : str := last (split sep s) [].

(** [s[n:]] *)
Definition slice_from (n : nat) (s : str) : str := skipn n s.

End PyStr.

Import PyStr.

(* ------------------------------------------------------------------ *)
(** * Exceptions *)

Inductive exn : Type :=
| ValueError
| TypeError
| OverflowError
| KeyError
| AttributeError
| Z3Exception.

Inductive result (A : Type) : Type :=
| Ok (a : A)
| Raise (e : exn).

Arguments Ok {A} a.
Arguments Raise {A} e.

Definition rbind {A B} (r : result A) (k : A -> result B) : result B :=
  match r with
  | Ok a => k a
  | Raise e => Raise e
  end.

Definition raises {A} (r : result A) : Prop := exists e, r = Raise e.

(* ------------------------------------------------------------------ *)
(** * Python floats and the [float] constructor *)

Module PyFloat.

Definition float := spec_float.

Definition prec : Z := 53.
Definition emax : Z := 1024.

Definition lt (x y : float) : bool := SFltb x y.
Definition le (x y : float) : bool := SFleb x y.

Definition is_nan (x : float) : bool :=
  match x with
  | S754_nan => true
  | _ => false
  end.

(** The correctly rounded quotient of two positive integers, signed. *)
Definition of_ratio (neg : bool) (n d : positive) : float :=
  SFdiv prec emax (S754_finite neg n 0) (S754_finite false d 0).

(** The float nearest to [m * 10^e10], for [m >= 0] written with [nd]
    decimal digits.  Exponents far outside the binary64 range are decided
    without computing the power. *)
Definition of_decimal (neg : bool) (m : Z) (nd : Z) (e10 : Z) : float :=
  match m with
  | Zpos p =>
      if (400 <? e10)%Z then S754_infinity neg
      else if (e10 + nd <? -400)%Z then S754_zero neg
      else if (0 <=? e10)%Z
           then of_ratio neg (p * Z.to_pos (10 ^ e10)) 1
           else of_ratio neg p (Z.to_pos (10 ^ (- e10)))
  | _ => S754_zero neg
  end.

(** [float(n)] for a Python [int]. *)
Definition of_int (z : Z) : result float :=
  match z with
  | Z0 => Ok (S754_zero false)
  | Zpos p =>
      match of_ratio false p 1 with
      | S754_infinity _ => Raise OverflowError
      | f => Ok f
      end
  | Zneg p =>
      match of_ratio true p 1 with
      | S754_infinity _ => Raise OverflowError
      | f => Ok f
      end
  end.

(** Py_ISSPACE: the ASCII white space skipped by [float]. *)
Definition ascii_isspace (c : char) : bool :=
  ((9 <=? c) && (c <=? 13) || (c =? 32))%N.

Definition isdigit (c : char) : bool := ((48 <=? c) && (c <=? 57))%N.

(** First code points of the runs of ten decimal digits (category Nd) that
    lie outside ASCII, Unicode 14. *)
Definition decimal_runs : list N :=
  [0x660; 0x6f0; 0x7c0; 0x966; 0x9e6; 0xa66; 0xae6; 0xb66; 0xbe6; 0xc66;
   0xce6; 0xd66; 0xde6; 0xe50; 0xed0; 0xf20; 0x1040; 0x1090; 0x17e0;
   0x1810; 0x1946; 0x19d0; 0x1a80; 0x1a90; 0x1b50; 0x1bb0; 0x1c40; 0x1c50;
   0xa620; 0xa8d0; 0xa900; 0xa9d0; 0xa9f0; 0xaa50; 0xabf0; 0xff10;
   0x104a0; 0x10d30; 0x11066; 0x110f0; 0x11136; 0x111d0; 0x112f0;
   0x11450; 0x114d0; 0x11650; 0x116c0; 0x11730; 0x118e0; 0x11950;
   0x11c50; 0x11d50; 0x11da0; 0x16a60; 0x16ac0; 0x16b50; 0x1d7ce;
   0x1d7d8; 0x1d7e2; 0x1d7ec; 0x1d7f6; 0x1e140; 0x1e2f0; 0x1e950;
   0x1fbf0]%N.

(** Py_UNICODE_TODECIMAL on a code point outside ASCII. *)
Definition todecimal (c : char) : option N :=
  match find (fun s => (s <=? c) && (c <? s + 10))%N decimal_runs with
  | Some s => Some (c - s)%N
  | None => None
  end.

(** _PyUnicode_TransformDecimalAndSpaceToASCII: an ASCII string is kept as
    it is; otherwise white space becomes a blank, decimal digits their
    ASCII digit, and the string is cut after a [?] at the first other
    character outside ASCII. *)
Fixpoint transform_go (s : str) : str :=
  match s with
  | [] => []
  | c :: s' =>
      if (c <? 127)%N then c :: transform_go s'
      else if isspace c then 32%N :: transform_go s'
      else match todecimal c with
           | Some d => (48 + d)%N :: transform_go s'
           | None => [63%N]
           end
  end.

Definition transform (s : str) : str :=
  if forallb (fun c => (c <? 128)%N) s then s else transform_go s.

(** Underscores may only stand between two digits; they are removed
    before the number is read.  [prev] is the previous character. *)
Fixpoint strip_underscores (prev : char) (s : str) : option str :=
  match s with
  | [] => if (prev =? 95)%N then None else Some []
  | c :: s' =>
      if (c =? 95)%N then
        if isdigit prev then strip_underscores c s' else None
      else if (prev =? 95)%N && negb (isdigit c) then None
      else option_map (cons c) (strip_underscores c s')
  end.

(** The longest prefix of digits, as their values, and the rest. *)
Fixpoint take_digits (s : str) : list Z * str :=
  match s with
  | [] => ([], [])
  | c :: s' =>
      if isdigit c then
        let '(ds, r) := take_digits s' in (Z.of_N (c - 48) :: ds, r)
      else ([], s)
  end.

Definition digits_value (ds : list Z) : Z :=
  fold_left (fun acc d => (10 * acc + d)%Z) ds 0%Z.

(** ASCII lower case, for the case-insensitive [inf] and [nan]. *)
Definition ascii_lower (c : char) : char :=
  if ((65 <=? c) && (c <=? 90))%N then (c + 32)%N else c.

Definition take_sign (s : str) : bool * str :=
  match s with
  | 45%N :: r => (true, r)
  | 43%N :: r => (false, r)
  | _ => (false, s)
  end.

(** The optional exponent part: [e] or [E], an optional sign and at least
    one digit; anything else leaves the input where it is. *)
Definition take_exponent (s : str) : Z * str :=
  match s with
  | c :: r =>
      if ((c =? 101) || (c =? 69))%N then
        let '(neg, r1) := take_sign r in
        match take_digits r1 with
        | ([], _) => (0%Z, s)
        | (ds, r2) => ((if neg then - digits_value ds else digits_value ds)%Z, r2)
        end
      else (0%Z, s)
  | [] => (0%Z, s)
  end.

(** A decimal number filling the whole string. *)
Definition parse_number (neg : bool) (s : str) : result float :=
  let '(ip, r0) := take_digits s in
  let '(fp, r1) :=
    match r0 with
    | 46%N :: r => take_digits r
    | _ => ([], r0)
    end in
  match ip ++ fp with
  | [] => Raise ValueError
  | ds =>
      match take_exponent r1 with
      | (e, []) =>
          Ok (of_decimal neg (digits_value ds) (Z.of_nat (List.length ds))
                (e - Z.of_nat (List.length fp)))
      | (_, _ :: _) => Raise ValueError
      end
  end.

(** [inf], [infinity] and [nan], in any case, filling the whole string. *)
Definition parse_inf_or_nan (neg : bool) (s : str) : result float :=
  let l := map ascii_lower s in
  if PyStr.eqb l (lit "inf") || PyStr.eqb l (lit "infinity")
  then Ok (S754_infinity neg)
  else if PyStr.eqb l (lit "nan") then Ok S754_nan
  else Raise ValueError.

Definition parse_ascii (s : str) : result float :=
  let '(neg, r) := take_sign s in
  match r with
  | c :: _ =>
      if isdigit c || (c =? 46)%N then parse_number neg r
      else parse_inf_or_nan neg r
  | [] => Raise ValueError
  end.

(** [float(s)] for a [str]. *)
Definition of_str (s : str) : result float :=
  let t := strip_with ascii_isspace (transform s) in
  if has_char 95%N t then
    match strip_underscores 0%N t with
    | Some u => parse_ascii u
    | None => Raise ValueError
    end
  else parse_ascii t.

End PyFloat.

(* ------------------------------------------------------------------ *)
(** * Python dictionaries, in insertion order *)

Module PyDict.

Section Dict.
Context {K V : Type}.
Variable keq : K -> K -> bool.

Definition dict := list (K * V).

(** [d.get(k)] *)
Fixpoint get (k : K) (d : dict) : option V :=
  match d with
  | [] => None
  | (k', v) :: d' => if keq k k' then Some v else get k d'
  end.

(** [d.get(k, dflt)] *)
Definition get_default (k : K) (dflt : V) (d : dict) : V :=
  match get k d with
  | Some v => v
  | None => dflt
  end.

(** [k in d] *)
Definition mem (k : K) (d : dict) : bool :=
  match get k d with
  | Some _ => true
  | None => false
  end.

(** [d[k] = v]: an existing key keeps its place, a new one goes last. *)
Fixpoint set (k : K) (v : V) (d : dict) : dict :=
  match d with
  | [] => [(k, v)]
  | (k', v') :: d' =>
      if keq k k' then (k', v) :: d' else (k', v') :: set k v d'
  end.

(** [d.values()] *)
Definition values (d : dict) : list V := map snd d.

(** [{k: v for (k, v) in l}] *)
Definition of_pairs (l : list (K * V)) : dict :=
  fold_left (fun d kv => set (fst kv) (snd kv) d) l [].
End Dict.

End PyDict.

Definition pair_eqb (a b : str * str) : bool :=
  PyStr.eqb (fst a) (fst b) && PyStr.eqb (snd a) (snd b).

(* ------------------------------------------------------------------ *)
(** * The solver interface (z3) *)

Module Z3.

(** Boolean expressions, as the engine builds them. *)
#[warnings="-register-all"]
Inductive expr : Type :=
| BoolVal (b : bool)
| Bool (name : str)
| Or (args : list expr)
| And (args : list expr)
| Not (a : expr)
| Implies (a b : expr).

(** An [Optimize] object: the assertions added so far, oldest first, and
    the objective [Sum([If(v,1,0) for v in vars])] given to [maximize],
    kept as the list [vars]. *)
Record optimize : Type := {
  assertions : list expr;
  objective : option (list expr)
}.

Definition Optimize : optimize := {| assertions := []; objective := None |}.

Definition add (c : expr) (s : optimize) : optimize :=
  {| assertions := assertions s ++ [c]; objective := objective s |}.

Definition maximize (vars : list expr) (s : optimize) : optimize :=
  {| assertions := assertions s; objective := Some vars |}.

(** Truth of an expression under a valuation of the Boolean constants. *)
Fixpoint eval (sigma : str -> bool) (e : expr) : bool :=
  match e with
  | BoolVal b => b
  | Bool name => sigma name
  | Or args => existsb (eval sigma) args
  | And args => forallb (eval sigma) args
  | Not a => negb (eval sigma a)
  | Implies a b => implb (eval sigma a) (eval sigma b)
  end.

Definition satisfies (sigma : str -> bool) (s : optimize) : Prop :=
  forall c, In c (assertions s) -> eval sigma c = true.

Definition unsat (s : optimize) : Prop := forall sigma, ~ satisfies sigma s.

(** A model as the solver returns it: the interpretation of the constants
    it chose to mention. *)
Definition model := list (str * bool).

Definition valuation (m : model) : str -> bool :=
  fun name => PyDict.get_default PyStr.eqb name false m.

(** [bool(model.evaluate(e))] without model completion: a constant the
    model does not mention stays symbolic, and a symbolic expression has
    no truth value. *)
Definition evaluate (m : model) (e : option expr) : result bool :=
  match e with
  | Some (Bool name) =>
      match PyDict.get PyStr.eqb name m with
      | Some b => Ok b
      | None => Raise Z3Exception
      end
  | Some (BoolVal b) => Ok b
  | _ => Raise Z3Exception
  end.

End Z3.

(* ------------------------------------------------------------------ *)
(** * Data model *)

(** A JSON value as [json.load] returns it; for lists and objects only
    their truth value (non-emptiness) matters here. *)
Inductive pyval : Type :=
| PNone
| PBool (b : bool)
| PInt (z : Z)
| PFloat (f : PyFloat.float)
| PStr (s : str)
| PContainer (nonempty : bool).

(** Truth value of an object. *)
Definition truthy (v : pyval) : bool :=
  match v with
  | PNone => false
  | PBool b => b
  | PInt z => negb (z =? 0)%Z
  | PFloat f => match f with S754_zero _ => false | _ => true end
  | PStr s => match s with [] => false | _ => true end
  | PContainer b => b
  end.

(** [a or b] *)
Definition py_or (a b : pyval) : pyval := if truthy a then a else b.

(** [float(v)] *)
Definition py_float (v : pyval) : result PyFloat.float :=
  match v with
  | PNone => Raise TypeError
  | PBool b => Ok (if b then PyFloat.of_ratio false 1 1 else S754_zero false)
  | PInt z => PyFloat.of_int z
  | PFloat f => Ok f
  | PStr s => PyFloat.of_str s
  | PContainer _ => Raise TypeError
  end.

Definition range := (option PyFloat.float * option PyFloat.float)%type.

(** An entry of a capability's ['properties'] list; an absent key and a
    JSON [null] both read as [PNone] through [p.get]. *)
Record property : Type := {
  property_ID : option str;
  valueMin : pyval;
  valueMax : pyval;
  value0 : pyval;
  value1 : pyval
}.

(** An entry of the capability document under a resource: the first
    element of its ['capability'] list, ['generalized_by'] and
    ['properties']. *)
Record cap_entry : Type := {
  capability_name : str;
  capability_ID : str;
  generalized_by : list str;
  properties : list property
}.

(** An element of [cap_list]. *)
Record capability : Type := {
  id : str;
  name : str;
  semantic_type : str;
  all_semantic_types : list str;
  props : PyDict.dict (K:=str) (V:=range)
}.

Inductive mode : Type := feed | discharge | transfer.

Record parameter : Type := {
  Key : str;
  ValueString : str
}.

(** A process element of the recipe; [transport_mode] is the
    ['_transport_mode'] entry that [build_constraints] writes into it. *)
Record step : Type := {
  ID : str;
  SemanticDescription : str;
  Parameters : list parameter;
  transport_mode : option mode
}.

(** Why a capability is rejected for a step, in the order and with the
    content of the messages of [build_constraints]. *)
Inductive reason : Type :=
| SemanticMismatch (need : str) (chain : list str)
| MissingParameter (k : str)
| MaxBelowDemand (k : str) (c_hi lo : PyFloat.float)
| MinAboveDemand (k : str) (c_lo hi : PyFloat.float).

(** The attributes of a [SolverEngine]; [rec_data] does not exist before
    [load_data]. *)
Record engine : Type := {
  cap_list : list capability;
  step_vars : PyDict.dict (K:=str * str) (V:=Z3.expr);
  valid_mapping : PyDict.dict (K:=str) (V:=list str);
  solver : Z3.optimize;
  step_ids : list str;
  assigned_resources : PyDict.dict (K:=str) (V:=str);
  semantic_hierarchy : PyDict.dict (K:=str) (V:=list str);
  rec_data : option (list step)
}.

Definition TRANSPORT_TYPES : list str :=
  [lit "dosing"; lit "transporting"; lit "conveying"].

Definition mode_of_str (s : str) : option mode :=
  if PyStr.eqb s (lit "feed") then Some feed
  else if PyStr.eqb s (lit "discharge") then Some discharge
  else if PyStr.eqb s (lit "transfer") then Some transfer
  else None.

(** [SolverEngine()] *)
Definition init : engine := {|
  cap_list := [];
  step_vars := [];
  valid_mapping := [];
  solver := Z3.Optimize;
  step_ids := [];
  assigned_resources := [];
  semantic_hierarchy := [];
  rec_data := None
|}.

Definition str_in (s : str) (l : list str) : bool := existsb (PyStr.eqb s) l.

(* ------------------------------------------------------------------ *)
(** * Requirement strings: [parse_req] *)

(** [low, high = map(float, parts)]: the conversions run one by one as
    the two targets, and then the end of the iterator, are asked for. *)
Definition unpack2 (parts : list (result PyFloat.float)) : result range :=
  match parts with
  | [] => Raise ValueError
  | [a] => rbind a (fun _ => Raise ValueError)
  | [a; b] => rbind a (fun lo => rbind b (fun hi => Ok (Some lo, Some hi)))
  | a :: b :: c :: _ =>
      rbind a (fun _ => rbind b (fun _ => rbind c (fun _ => Raise ValueError)))
  end.

Definition parse_req (s : str) : result range :=
  let s := strip s in
  if startswith (lit ">=") s then
    rbind (PyFloat.of_str (slice_from 2 s)) (fun v => Ok (Some v, None))
  else if startswith (lit "<=") s then
    rbind (PyFloat.of_str (slice_from 2 s)) (fun v => Ok (None, Some v))
  else if has_char 45%N s then
    unpack2 (map PyFloat.of_str (split (lit "-") s))
  else
    rbind (PyFloat.of_str s) (fun v => Ok (Some v, Some v)).

(* ------------------------------------------------------------------ *)
(** * Semantic hierarchy: [get_all_ancestor_types] *)

(** One pass of [for parent in parents]: a parent not yet among the
    ancestors is added to them and pushed on the work stack (kept top
    first). *)
Definition visit_parents (parents : list str) (st : list str * list str)
  : list str * list str :=
  fold_left
    (fun '(ancestors, to_process) parent =>
       if str_in parent ancestors then (ancestors, to_process)
       else (ancestors ++ [parent], parent :: to_process))
    parents st.

(** The [while to_process] loop, for at most [fuel] iterations. *)
Fixpoint ancestors_loop (fuel : nat) (h : PyDict.dict (K:=str) (V:=list str))
  (ancestors to_process : list str) : option (list str) :=
  match fuel with
  | O => None
  | S fuel' =>
      match to_process with
      | [] => Some ancestors
      | current :: rest =>
          let parents := PyDict.get_default PyStr.eqb current [] h in
          let '(ancestors', to_process') :=
            visit_parents parents (ancestors, rest) in
          ancestors_loop fuel' h ancestors' to_process'
      end
  end.

(** Every iteration but the last pops a type that was pushed once, and only
    parents listed in the hierarchy are pushed. *)
Definition ancestors_fuel (h : PyDict.dict (K:=str) (V:=list str)) : nat :=
  2 + List.length (List.concat (PyDict.values h)).

(** The members of the result are those of the Python set; the order of
    [list(ancestors)] is the order of discovery here. *)
Definition get_all_ancestor_types (h : PyDict.dict (K:=str) (V:=list str))
  (semantic_type : str) : list str :=
  match ancestors_loop (ancestors_fuel h) h [semantic_type] [semantic_type] with
  | Some ancestors => ancestors
  | None => []
  end.

(* ------------------------------------------------------------------ *)
(** * Methods that mutate the engine *)

(** A method body: it reads and updates the engine and either returns or
    raises; the updates made before an exception stay. *)
Definition M (A : Type) : Type := engine -> result A * engine.

Definition ret {A} (a : A) : M A := fun e => (Ok a, e).

Definition bind {A B} (m : M A) (k : A -> M B) : M B :=
  fun e =>
    match m e with
    | (Ok a, e') => k a e'
    | (Raise x, e') => (Raise x, e')
    end.

Definition read {A} (f : engine -> A) : M A := fun e => (Ok (f e), e).

Definition update (f : engine -> engine) : M unit := fun e => (Ok tt, f e).

Definition lift {A} (r : result A) : M A := fun e => (r, e).

Declare Scope monad_scope.
Delimit Scope monad_scope with monad.
Notation "x <- c ;; k" := (bind c (fun x => k))
  (at level 61, c at next level, right associativity) : monad_scope.
Notation "c ;;; k" := (bind c (fun _ => k))
  (at level 61, right associativity) : monad_scope.
Open Scope monad_scope.

(** [for x in l: body(x)] *)
Fixpoint for_each {A} (l : list A) (body : A -> M unit) : M unit :=
  match l with
  | [] => ret tt
  | x :: l' => body x ;;; for_each l' body
  end.

(** A loop that also carries a local variable. *)
Fixpoint fold_each {A B} (l : list A) (acc : B) (body : B -> A -> M B) : M B :=
  match l with
  | [] => ret acc
  | x :: l' => acc' <- body acc x ;; fold_each l' acc' body
  end.

Definition set_cap_list (v : list capability) (e : engine) : engine :=
  {| cap_list := v; step_vars := step_vars e; valid_mapping := valid_mapping e;
     solver := solver e; step_ids := step_ids e;
     assigned_resources := assigned_resources e;
     semantic_hierarchy := semantic_hierarchy e; rec_data := rec_data e |}.

Definition set_step_vars (v : PyDict.dict) (e : engine) : engine :=
  {| cap_list := cap_list e; step_vars := v; valid_mapping := valid_mapping e;
     solver := solver e; step_ids := step_ids e;
     assigned_resources := assigned_resources e;
     semantic_hierarchy := semantic_hierarchy e; rec_data := rec_data e |}.

Definition set_valid_mapping (v : PyDict.dict) (e : engine) : engine :=
  {| cap_list := cap_list e; step_vars := step_vars e; valid_mapping := v;
     solver := solver e; step_ids := step_ids e;
     assigned_resources := assigned_resources e;
     semantic_hierarchy := semantic_hierarchy e; rec_data := rec_data e |}.

Definition set_solver (v : Z3.optimize) (e : engine) : engine :=
  {| cap_list := cap_list e; step_vars := step_vars e;
     valid_mapping := valid_mapping e; solver := v; step_ids := step_ids e;
     assigned_resources := assigned_resources e;
     semantic_hierarchy := semantic_hierarchy e; rec_data := rec_data e |}.

Definition set_step_ids (v : list str) (e : engine) : engine :=
  {| cap_list := cap_list e; step_vars := step_vars e;
     valid_mapping := valid_mapping e; solver := solver e; step_ids := v;
     assigned_resources := assigned_resources e;
     semantic_hierarchy := semantic_hierarchy e; rec_data := rec_data e |}.

Definition set_assigned_resources (v : PyDict.dict) (e : engine) : engine :=
  {| cap_list := cap_list e; step_vars := step_vars e;
     valid_mapping := valid_mapping e; solver := solver e;
     step_ids := step_ids e; assigned_resources := v;
     semantic_hierarchy := semantic_hierarchy e; rec_data := rec_data e |}.

Definition set_semantic_hierarchy (v : PyDict.dict) (e : engine) : engine :=
  {| cap_list := cap_list e; step_vars := step_vars e;
     valid_mapping := valid_mapping e; solver := solver e;
     step_ids := step_ids e; assigned_resources := assigned_resources e;
     semantic_hierarchy := v; rec_data := rec_data e |}.

Definition set_rec_data (v : option (list step)) (e : engine) : engine :=
  {| cap_list := cap_list e; step_vars := step_vars e;
     valid_mapping := valid_mapping e; solver := solver e;
     step_ids := step_ids e; assigned_resources := assigned_resources e;
     semantic_hierarchy := semantic_hierarchy e; rec_data := v |}.

(** [self.solver.add(c)] *)
Definition solver_add (c : Z3.expr) : M unit :=
  update (fun e => set_solver (Z3.add c (solver e)) e).

(* ------------------------------------------------------------------ *)
(** * Capability normaliser: [build_capabilities] *)

(** [semantic_id.split('#')[-1] if '#' in semantic_id else name] *)
Definition entry_semantic_type (en : cap_entry) : str :=
  if has_char 35%N (capability_ID en)
  then split_last (lit "#") (capability_ID en)
  else capability_name en.

(** [None if v is None else float(v)] *)
Definition bound (v : pyval) : result (option PyFloat.float) :=
  match v with
  | PNone => Ok None
  | _ => rbind (py_float v) (fun f => Ok (Some f))
  end.

(** The body of the [try]: both conversions, then the entry under a
    non-empty identifier; any exception skips the property. *)
Definition store_property (pid : option str) (vmin vmax : pyval)
  (props : PyDict.dict (K:=str) (V:=range)) : PyDict.dict :=
  match bound vmin with
  | Raise _ => props
  | Ok lo =>
      match bound vmax with
      | Raise _ => props
      | Ok hi =>
          match pid with
          | Some (c :: k) => PyDict.set PyStr.eqb (c :: k) (lo, hi) props
          | _ => props
          end
      end
  end.

(** [02.07.py], lines 90-91:
    [p.get('valueMin') or p.get('value0') or None]. *)
Definition vmin_of (p : property) : pyval :=
  py_or (py_or (valueMin p) (value0 p)) PNone.

Definition vmax_of (p : property) : pyval :=
  py_or (py_or (valueMax p) (value1 p)) PNone.

(** The loop [for p in e.get('properties', [])] filling [props]. *)
Definition build_props (ps : list property) : PyDict.dict (K:=str) (V:=range) :=
  fold_left
    (fun props p => store_property (property_ID p) (vmin_of p) (vmax_of p) props)
    ps [].

Definition cap_data := list (str * list cap_entry).

(** All entries of the document with their resource, in document order. *)
Definition entries_of (d : cap_data) : list (str * cap_entry) :=
  flat_map (fun '(res, entries) => map (pair res) entries) d.

Definition build_capability (h : PyDict.dict (K:=str) (V:=list str))
  (res : str) (en : cap_entry) : capability :=
  {| id := res ++ lit "::" ++ capability_name en;
     name := capability_name en;
     semantic_type := entry_semantic_type en;
     all_semantic_types := get_all_ancestor_types h (entry_semantic_type en);
     props := build_props (properties en) |}.

Definition build_capabilities (d : cap_data) : M unit :=
  update (set_cap_list []) ;;;
  update (set_semantic_hierarchy []) ;;;
  for_each (entries_of d) (fun '(_, en) =>
    update (fun e =>
      set_semantic_hierarchy
        (PyDict.set PyStr.eqb (entry_semantic_type en) (generalized_by en)
           (semantic_hierarchy e)) e)) ;;;
  for_each (entries_of d) (fun '(res, en) =>
    update (fun e =>
      set_cap_list
        (cap_list e ++ [build_capability (semantic_hierarchy e) res en]) e)).

(** [load_data], after the two documents have been read. *)
Definition load_data (d : cap_data) (steps : list step) : M unit :=
  build_capabilities d ;;;
  update (set_rec_data (Some steps)) ;;;
  update (set_step_ids (map ID steps)).

(** The same loop in [05.06.py], lines 45-55: a bound is taken from
    [valueMin] (or [valueMax]) unless it is [None]. *)
Module Sibling_05_06.

Definition vmin_of (p : property) : pyval :=
  match valueMin p with
  | PNone => value0 p
  | v => v
  end.

Definition vmax_of (p : property) : pyval :=
  match valueMax p with
  | PNone => value1 p
  | v => v
  end.

Definition build_props (ps : list property) : PyDict.dict (K:=str) (V:=range) :=
  fold_left
    (fun props p => store_property (property_ID p) (vmin_of p) (vmax_of p) props)
    ps [].

End Sibling_05_06.

(* ------------------------------------------------------------------ *)
(** * Transport continuity: the three [_handle_*_mode] methods *)

(** [l.index(x)] *)
Fixpoint index (x : str) (l : list str) : result nat :=
  match l with
  | [] => Raise ValueError
  | y :: l' => if PyStr.eqb y x then Ok O else rbind (index x l') (fun n => Ok (S n))
  end.

(** [cap_id.split("::")[0]] *)
Definition resource_of (cap_id : str) : str := split_first (lit "::") cap_id.

(** [self.step_vars[k]] *)
Definition step_var (k : str * str) : M Z3.expr :=
  fun e =>
    match PyDict.get pair_eqb k (step_vars e) with
    | Some v => (Ok v, e)
    | None => (Raise KeyError, e)
    end.

(** [self.valid_mapping.get(step_id, [])] *)
Definition valid_of (step_id : str) (e : engine) : list str :=
  PyDict.get_default PyStr.eqb step_id [] (valid_mapping e).

(** The variables of [other_step] whose capability passes [keep], in the
    order of its valid capabilities. *)
Definition neighbour_vars (other_step : str) (keep : str -> bool) : M (list Z3.expr) :=
  cids <- read (valid_of other_step) ;;
  fold_each cids [] (fun vars other_cid =>
    if keep other_cid then
      v <- step_var (other_step, other_cid) ;; ret (vars ++ [v])
    else ret vars).

(** [Implies(transport_var, Or( *vars))] if there are any, else
    [Not(transport_var)]. *)
Definition require_one_of (transport_var : Z3.expr) (vars : list Z3.expr) : M unit :=
  match vars with
  | [] => solver_add (Z3.Not transport_var)
  | _ :: _ => solver_add (Z3.Implies transport_var (Z3.Or vars))
  end.

Definition same_resource (resource other_cid : str) : bool :=
  PyStr.eqb (resource_of other_cid) resource.

Definition other_resource (resource other_cid : str) : bool :=
  negb (PyStr.eqb (resource_of other_cid) resource).

Definition handle_feed_mode (step_id : str) (all_step_ids : list str) : M unit :=
  idx <- lift (index step_id all_step_ids) ;;
  match idx with
  | O => ret tt
  | S i =>
      let prev_step := nth i all_step_ids [] in
      cids <- read (valid_of step_id) ;;
      for_each cids (fun cap_id =>
        let resource := resource_of cap_id in
        transport_var <- step_var (step_id, cap_id) ;;
        prev_vars <- neighbour_vars prev_step (same_resource resource) ;;
        require_one_of transport_var prev_vars)
  end.

Definition handle_discharge_mode (step_id : str) (all_step_ids : list str) : M unit :=
  idx <- lift (index step_id all_step_ids) ;;
  if (Z.of_nat idx =? Z.of_nat (List.length all_step_ids) - 1)%Z then ret tt
  else
    let next_step := nth (idx + 1) all_step_ids [] in
    cids <- read (valid_of step_id) ;;
    for_each cids (fun cap_id =>
      let resource := resource_of cap_id in
      transport_var <- step_var (step_id, cap_id) ;;
      next_vars <- neighbour_vars next_step (same_resource resource) ;;
      require_one_of transport_var next_vars).

(** [if prev_step:] holds for a step identifier other than the empty
    string. *)
Definition nonempty (s : str) : bool :=
  match s with
  | [] => false
  | _ :: _ => true
  end.

Definition handle_transfer_mode (step_id : str) (all_step_ids : list str) : M unit :=
  idx <- lift (index step_id all_step_ids) ;;
  let prev_step :=
    if (0 <? Z.of_nat idx)%Z then Some (nth (idx - 1) all_step_ids []) else None in
  let next_step :=
    if (Z.of_nat idx <? Z.of_nat (List.length all_step_ids) - 1)%Z
    then Some (nth (idx + 1) all_step_ids []) else None in
  cids <- read (valid_of step_id) ;;
  for_each cids (fun cap_id =>
    transport_var <- step_var (step_id, cap_id) ;;
    let resource := resource_of cap_id in
    match prev_step with
    | Some p =>
        if nonempty p then
          prev_vars <- neighbour_vars p (other_resource resource) ;;
          require_one_of transport_var prev_vars
        else ret tt
    | None => ret tt
    end ;;;
    match next_step with
    | Some n =>
        if nonempty n then
          next_vars <- neighbour_vars n (other_resource resource) ;;
          require_one_of transport_var next_vars
        else ret tt
    | None => ret tt
    end).

(* ------------------------------------------------------------------ *)
(** * The engine proper, over the interpreter's [str.lower] and the
      solver's [check] *)

Section Engine.

(** [s.lower()] *)
Variable lower : str -> str.

(** [solver.check()] followed by [solver.model()]: [None] for an answer
    other than [sat]. *)
Variable check : Z3.optimize -> option Z3.model.

(** ** Transport-mode classifier: [determine_transport_mode] *)

(** [step.get('SemanticDescription', '').split('#')[-1].lower()] *)
Definition step_type (st : step) : str :=
  lower (split_last (lit "#") (SemanticDescription st)).

(** Rule 2: the first parameter whose key is [mode], if its value names a
    mode.  The rule subscripts [step['Parameters']]: a step is taken here
    with its list of parameters, as the record has it; a step without
    that key is outside the model. *)
Definition explicit_mode (st : step) : option mode :=
  match find (fun p => PyStr.eqb (lower (Key p)) (lit "mode")) (Parameters st) with
  | Some mode_param => mode_of_str (strip (lower (ValueString mode_param)))
  | None => None
  end.

(** Rule 3: hints in the step identifier. *)
Definition id_hint (sid : str) : option mode :=
  let step_id_lower := lower sid in
  let has w := contains (lit w) step_id_lower in
  (if has "feed" || has "inlet" || has "input" then Some feed
   else if has "discharge" || has "outlet" || has "output" then Some discharge
   else if has "transfer" || has "move" || has "convey" || has "dosing"
   then Some transfer
   else None)%string.

(** Rule 4: hints in the parameter names. *)
Definition param_hint (st : step) : option mode :=
  let param_keys := map (fun p => lower (Key p)) (Parameters st) in
  let any ws := existsb (fun w => str_in (lit w) param_keys) ws in
  if any ["feedrate"; "inletflow"; "feed_flow"]%string then Some feed
  else if any ["dischargerate"; "outlettarget"; "discharge_flow"]%string
  then Some discharge
  else if any ["transferdistance"; "conveyorspeed"; "transfer_time"]%string
  then Some transfer
  else None.

(** [self.assigned_resources.get(step_id, "").split("::")[0]] *)
Definition assigned_resource (e : engine) (step_id : str) : str :=
  resource_of (PyDict.get_default PyStr.eqb step_id [] (assigned_resources e)).

(** Rule 5: the resources assigned to the step and to its neighbours by
    an earlier [solve]. *)
Definition flow_mode (e : engine) (sid : str) (step_idx : nat) : option mode :=
  if (0 <? Z.of_nat step_idx)%Z
     && (Z.of_nat step_idx <? Z.of_nat (List.length (step_ids e)) - 1)%Z
  then
    let prev_resource := assigned_resource e (nth (step_idx - 1) (step_ids e) []) in
    let next_resource := assigned_resource e (nth (step_idx + 1) (step_ids e) []) in
    let current_resource := assigned_resource e sid in
    if nonempty current_resource && nonempty prev_resource && nonempty next_resource
    then
      if negb (PyStr.eqb current_resource prev_resource)
         && PyStr.eqb current_resource next_resource then Some feed
      else if PyStr.eqb current_resource prev_resource
              && negb (PyStr.eqb current_resource next_resource) then Some discharge
      else if negb (PyStr.eqb current_resource prev_resource)
              && negb (PyStr.eqb current_resource next_resource) then Some transfer
      else None
    else None
  else None.

Definition determine_transport_mode (e : engine) (st : step) (step_idx : nat)
  : option mode :=
  let sid := ID st in
  if (Z.of_nat step_idx =? 0)%Z
     || (Z.of_nat step_idx =? Z.of_nat (List.length (step_ids e)) - 1)%Z
  then None
  else if negb (str_in (step_type st) TRANSPORT_TYPES) then None
  else
    match explicit_mode st with
    | Some m => Some m
    | None =>
        match id_hint sid with
        | Some m => Some m
        | None =>
            match param_hint st with
            | Some m => Some m
            | None =>
                match flow_mode e sid step_idx with
                | Some m => Some m
                | None => Some transfer
                end
            end
        end
    end.

(** ** Eligibility filter *)

(** [{p['Key']: p['ValueString'] for p in step.get('Parameters', [])}] *)
Definition params_of (st : step) : PyDict.dict (K:=str) (V:=str) :=
  PyDict.of_pairs PyStr.eqb (map (fun p => (Key p, ValueString p)) (Parameters st)).

(** [desc.split('#')[-1] if '#' in desc else desc] *)
Definition step_semantic_of (st : step) : str :=
  if has_char 35%N (SemanticDescription st)
  then split_last (lit "#") (SemanticDescription st)
  else SemanticDescription st.

(** Check 3 for one parameter: the reasons it adds. *)
Definition range_reasons (k : str) (req : range) (c : range) : list reason :=
  let '(lo, hi) := req in
  let '(c_lo, c_hi) := c in
  (match lo, c_hi with
   | Some lo, Some c_hi =>
       if PyFloat.lt c_hi lo then [MaxBelowDemand k c_hi lo] else []
   | _, _ => []
   end) ++
  (match hi, c_lo with
   | Some hi, Some c_lo =>
       if PyFloat.lt hi c_lo then [MinAboveDemand k c_lo hi] else []
   | _, _ => []
   end).

(** The loop [for k, vstr in params.items()] of check 3. *)
Fixpoint check_ranges (params : list (str * str)) (cap : capability)
  : result (list reason) :=
  match params with
  | [] => Ok []
  | (k, vstr) :: params' =>
      rbind (parse_req vstr) (fun req =>
      match PyDict.get PyStr.eqb k (props cap) with
      | None => Raise KeyError
      | Some c =>
          rbind (check_ranges params' cap) (fun rest =>
          Ok (range_reasons k req c ++ rest))
      end)
  end.

(** The verdict on one capability: [None] when it is valid, else the
    reasons stored under its identifier. *)
Definition check_capability (params : PyDict.dict (K:=str) (V:=str))
  (step_semantic : str) (cap : capability) : result (option (list reason)) :=
  let step_semantic_lower := lower step_semantic in
  let cap_types_lower := map lower (all_semantic_types cap) in
  if negb (str_in step_semantic_lower cap_types_lower) then
    Ok (Some [SemanticMismatch step_semantic (all_semantic_types cap)])
  else
    match filter (fun k => negb (PyDict.mem PyStr.eqb k (props cap)))
                 (map fst params) with
    | m :: ms => Ok (Some (map MissingParameter (m :: ms)))
    | [] =>
        rbind (check_ranges params cap) (fun reasons =>
        match reasons with
        | [] => Ok None
        | _ :: _ => Ok (Some reasons)
        end)
    end.

Definition invalid_map := PyDict.dict (K:=str) (V:=list reason).

(** The loop [for cap in self.cap_list] for one step: [valid] and
    [invalid]. *)
Fixpoint eligibility (params : PyDict.dict (K:=str) (V:=str))
  (step_semantic : str) (caps : list capability)
  (valid : list str) (invalid : invalid_map) : result (list str * invalid_map) :=
  match caps with
  | [] => Ok (valid, invalid)
  | cap :: caps' =>
      rbind (check_capability params step_semantic cap) (fun verdict =>
      match verdict with
      | Some reasons =>
          eligibility params step_semantic caps' valid
            (PyDict.set PyStr.eqb (id cap) reasons invalid)
      | None =>
          eligibility params step_semantic caps' (valid ++ [id cap]) invalid
      end)
  end.

Definition step_eligibility (caps : list capability) (st : step)
  : result (list str * invalid_map) :=
  eligibility (params_of st) (step_semantic_of st) caps [] [].

(** ** Constraint model builder: [build_constraints] *)

(** The name [f"{sid}__{cid}"] of a selection variable. *)
Definition var_name (sid cid : str) : str := sid ++ lit "__" ++ cid.

(** The pairs [(l[i], l[j])] with [i < j], in the order of the two nested
    loops. *)
Fixpoint pairs {A} (l : list A) : list (A * A) :=
  match l with
  | [] => []
  | x :: l' => map (pair x) l' ++ pairs l'
  end.

Definition set_mode (m : option mode) (st : step) : step :=
  {| ID := ID st; SemanticDescription := SemanticDescription st;
     Parameters := Parameters st; transport_mode := m |}.

(** [step_idx > 0 and step_idx < len(self.step_ids) - 1] *)
Definition interior (e : engine) (step_idx : nat) : bool :=
  (0 <? Z.of_nat step_idx)%Z
  && (Z.of_nat step_idx <? Z.of_nat (List.length (step_ids e)) - 1)%Z.

(** The first loop: every step receives its ['_transport_mode']. *)
Fixpoint assign_modes (e : engine) (step_idx : nat) (steps : list step) : list step :=
  match steps with
  | [] => []
  | st :: steps' =>
      set_mode (if interior e step_idx
                then determine_transport_mode e st step_idx
                else None) st
      :: assign_modes e (S step_idx) steps'
  end.

(** [self.rec_data.get('ProcessElements', [])] *)
Definition process_elements : M (list step) :=
  fun e =>
    match rec_data e with
    | Some steps => (Ok steps, e)
    | None => (Raise AttributeError, e)
    end.

(** The variables of one step: each is created, stored in [step_vars] and
    appended to [vars_for]. *)
Definition create_vars (sid : str) (valid : list str) : M (list Z3.expr) :=
  fold_each valid [] (fun vars_for cid =>
    let var := Z3.Bool (var_name sid cid) in
    update (fun e =>
      set_step_vars (PyDict.set pair_eqb (sid, cid) var (step_vars e)) e) ;;;
    ret (vars_for ++ [var])).

(** At least one variable of the step, and no two of them; a contradiction
    for a step without variables. *)
Definition add_selection (vars_for : list Z3.expr) : M unit :=
  match vars_for with
  | [] => solver_add (Z3.BoolVal false)
  | _ :: _ =>
      solver_add (Z3.Or vars_for) ;;;
      for_each (pairs vars_for) (fun '(vi, vj) =>
        solver_add (Z3.Not (Z3.And [vi; vj])))
  end.

Definition invalid_mapping_t := PyDict.dict (K:=str) (V:=invalid_map).

(** The body of the second loop, for one step. *)
Definition build_step (invalid_mapping : invalid_mapping_t) (st : step)
  : M invalid_mapping_t :=
  let sid := ID st in
  caps <- read cap_list ;;
  res <- lift (step_eligibility caps st) ;;
  let '(valid, invalid) := res in
  update (fun e =>
    set_valid_mapping (PyDict.set PyStr.eqb sid valid (valid_mapping e)) e) ;;;
  vars_for <- create_vars sid valid ;;
  add_selection vars_for ;;;
  ret (PyDict.set PyStr.eqb sid invalid invalid_mapping).

(** The body of the third loop, for one step. *)
Definition build_transport (st : step) : M unit :=
  let sid := ID st in
  if str_in (step_type st) TRANSPORT_TYPES then
    match transport_mode st with
    | Some feed => ids <- read step_ids ;; handle_feed_mode sid ids
    | Some discharge => ids <- read step_ids ;; handle_discharge_mode sid ids
    | Some transfer => ids <- read step_ids ;; handle_transfer_mode sid ids
    | None => ret tt
    end
  else ret tt.

Definition set_objective : M unit :=
  all_vars <- read (fun e => PyDict.values (step_vars e)) ;;
  match all_vars with
  | [] => ret tt
  | _ :: _ => update (fun e => set_solver (Z3.maximize all_vars (solver e)) e)
  end.

Definition build_constraints : M invalid_mapping_t :=
  update (set_solver Z3.Optimize) ;;;
  update (set_step_vars []) ;;;
  update (set_valid_mapping []) ;;;
  steps0 <- process_elements ;;
  update (fun e => set_rec_data (Some (assign_modes e 0 steps0)) e) ;;;
  steps <- process_elements ;;
  invalid_mapping <- fold_each steps [] build_step ;;
  for_each steps build_transport ;;;
  set_objective ;;;
  ret invalid_mapping.

(** ** Solution extractor: [solve] *)

(** The inner loop of [solve] for one step: the first valid capability
    whose variable is true in the model is recorded. *)
Fixpoint record_first (m : Z3.model) (step_id : str) (cids : list str) : M unit :=
  match cids with
  | [] => ret tt
  | cap_id :: cids' =>
      var <- read (fun e => PyDict.get pair_eqb (step_id, cap_id) (step_vars e)) ;;
      b <- lift (Z3.evaluate m var) ;;
      if b : bool then
        update (fun e =>
          set_assigned_resources
            (PyDict.set PyStr.eqb step_id cap_id (assigned_resources e)) e)
      else record_first m step_id cids'
  end.

(** The result pairs [res] with the model; [res] is [sat] exactly when
    there is one.  A model is true in [if model:] when it interprets at
    least one constant. *)
Definition solve : M (option Z3.model) :=
  s <- read solver ;;
  let model := check s in
  match model with
  | Some (d :: m) =>
      update (set_assigned_resources []) ;;;
      ids <- read step_ids ;;
      for_each ids (fun step_id =>
        cids <- read (valid_of step_id) ;;
        record_first (d :: m) step_id cids)
  | _ => ret tt
  end ;;;
  ret model.

(** One model-build-and-solve cycle, as [run] performs it after loading. *)
Definition cycle : M (invalid_mapping_t * option Z3.model) :=
  invalid <- build_constraints ;;
  model <- solve ;;
  ret (invalid, model).

End Engine.

(* ------------------------------------------------------------------ *)
(** * Instances of the two parameters, for running the engine *)

(** [str.lower] on strings of ASCII characters. *)
Definition lower_ascii (s : str) : str := map PyFloat.ascii_lower s.

(** A reference solver: it tries every valuation of the constants that
    occur in the assertions and returns one that satisfies them with the
    highest objective, or nothing when there is none. *)
Module Oracle.

Fixpoint names (e : Z3.expr) : list str :=
  match e with
  | Z3.BoolVal _ => []
  | Z3.Bool name => [name]
  | Z3.Or args => flat_map names args
  | Z3.And args => flat_map names args
  | Z3.Not a => names a
  | Z3.Implies a b => names a ++ names b
  end.

Definition constants (s : Z3.optimize) : list str :=
  nodup (list_eq_dec N.eq_dec) (flat_map names (Z3.assertions s)).

Fixpoint valuations (ns : list str) : list Z3.model :=
  match ns with
  | [] => [[]]
  | n :: ns' =>
      flat_map (fun m => [(n, true) :: m; (n, false) :: m]) (valuations ns')
  end.

Definition score (s : Z3.optimize) (m : Z3.model) : nat :=
  match Z3.objective s with
  | Some vars =>
      List.length (filter (Z3.eval (Z3.valuation m)) vars)
  | None => O
  end.

Definition holds (s : Z3.optimize) (m : Z3.model) : bool :=
  forallb (Z3.eval (Z3.valuation m)) (Z3.assertions s).

Definition better (s : Z3.optimize) (best : option Z3.model) (m : Z3.model)
  : option Z3.model :=
  match best with
  | None => Some m
  | Some b => if score s b <? score s m then Some m else best
  end.

Definition check (s : Z3.optimize) : option Z3.model :=
  fold_left (better s) (filter (holds s) (valuations (constants s))) None.

End Oracle.

(* ------------------------------------------------------------------ *)
(** * Sample documents *)

(** Some binary64 values: [m * 2^e] with a 53-bit [m]. *)
Definition f0 : PyFloat.float := S754_zero false.
Definition f2 : PyFloat.float := S754_finite false (2 ^ 52) (-51).
Definition f3_2 : PyFloat.float := S754_finite false 7205759403792794 (-51).
Definition f4 : PyFloat.float := S754_finite false (2 ^ 52) (-50).
Definition f5 : PyFloat.float := S754_finite false (5 * 2 ^ 50) (-50).
Definition f7 : PyFloat.float := S754_finite false (7 * 2 ^ 50) (-50).
Definition f20 : PyFloat.float := S754_finite false (5 * 2 ^ 50) (-48).
Definition f100 : PyFloat.float := S754_finite false (25 * 2 ^ 48) (-46).

(** The requirement string of two code points U+2265 (greater-than or
    equal to) and the digit five. *)
Definition unicode_ge_5 : str := [8805; 53]%N.

(** The catalog of the specification's scenario: resource [R1] offers
    [Heat], of type [HeatingProcess], with [temp] between 20 and 100. *)
Definition temp_20_100 : property :=
  {| property_ID := Some (lit "temp");
     valueMin := PInt 20; valueMax := PInt 100;
     value0 := PNone; value1 := PNone |}.

Definition heat_entry : cap_entry :=
  {| capability_name := lit "Heat";
     capability_ID := lit "http://example.org/cap#HeatingProcess";
     generalized_by := [];
     properties := [temp_20_100] |}.

Definition heat_catalog : cap_data := [(lit "R1", [heat_entry])].

Definition heating_step (temp : string) : step :=
  {| ID := lit "S1";
     SemanticDescription := lit "http://example.org/proc#HeatingProcess";
     Parameters := [{| Key := lit "temp"; ValueString := lit temp |}];
     transport_mode := None |}.

(** The engine after [load_data] on that catalog and a one-step recipe. *)
Definition heating_engine (temp : string) : engine :=
  snd (load_data heat_catalog [heating_step temp] init).

(** A property whose lower bound is the number zero. *)
Definition temp_0_100 : property :=
  {| property_ID := Some (lit "temp");
     valueMin := PInt 0; valueMax := PInt 100;
     value0 := PNone; value1 := PNone |}.

(** A plant with two resources, and two recipes with the same step
    identifiers: the middle step weighs in the first and doses in the
    second.  No identifier or parameter carries a hint. *)
Definition plain_entry (ty : string) : cap_entry :=
  {| capability_name := lit ty; capability_ID := [];
     generalized_by := []; properties := [] |}.

Definition plant : cap_data :=
  [(lit "R1", [plain_entry "Mixing"; plain_entry "Dosing"]);
   (lit "R2", [plain_entry "Weighing"; plain_entry "Dosing"; plain_entry "Heating"])].

Definition plain_step (sid ty : string) : step :=
  {| ID := lit sid; SemanticDescription := lit ty;
     Parameters := []; transport_mode := None |}.

Definition weighing_recipe : list step :=
  [plain_step "s0" "Mixing"; plain_step "s1" "Weighing"; plain_step "s2" "Heating"].

Definition dosing_recipe : list step :=
  [plain_step "s0" "Mixing"; plain_step "s1" "Dosing"; plain_step "s2" "Heating"].

(** One run of the application: load, build, solve. *)
Definition run (d : cap_data) (steps : list step)
  : M (invalid_mapping_t * option Z3.model) :=
  load_data d steps ;;; cycle lower_ascii Oracle.check.

(** The engine of an application that has run the weighing recipe and
    then loaded the dosing recipe. *)
Definition reloaded_engine : engine :=
  snd ((run plant weighing_recipe ;;; load_data plant dosing_recipe) init).

(** ** Words of the specification *)

(** [lo <= v <= hi] for a capability range, an absent bound being no
    constraint. *)
Definition within (v : PyFloat.float) (c : range) : bool :=
  match fst c with Some lo => PyFloat.le lo v | None => true end
  && match snd c with Some hi => PyFloat.le v hi | None => true end.

Definition bound_is_nan (b : option PyFloat.float) : bool :=
  match b with
  | Some x => PyFloat.is_nan x
  | None => false
  end.

(** A solver is sound when the model it returns satisfies the
    assertions. *)
Definition sound (check : Z3.optimize -> option Z3.model) : Prop :=
  forall s m, check s = Some m -> Z3.satisfies (Z3.valuation m) s.

(** ** The generalisation graph *)

(** [h.get(t, [])]: the direct parents of a type. *)
Definition parents_of (h : PyDict.dict (K:=str) (V:=list str)) (t : str) : list str :=
  PyDict.get_default PyStr.eqb t [] h.

(** [reach h t g]: [g] is [t] or is reached from [t] along parent edges. *)
Inductive reach (h : PyDict.dict (K:=str) (V:=list str)) (t : str) : str -> Prop :=
| reach_self : reach h t t
| reach_parent : forall p g, reach h t p -> In g (parents_of h p) -> reach h t g.

(** Types named as a parent somewhere in the hierarchy, once each. *)
Definition universe (h : PyDict.dict (K:=str) (V:=list str)) : list str :=
  nodup (list_eq_dec N.eq_dec) (List.concat (PyDict.values h)).

(** What is left to do: parents not yet seen, and the pending stack. *)
Definition pending (h : PyDict.dict (K:=str) (V:=list str))
  (ancestors to_process : list str) : nat :=
  List.length (filter (fun u => negb (str_in u ancestors)) (universe h))
  + List.length to_process.

(** ** Reasoning about method bodies *)

(** [steady R m]: whatever [m] does and however it ends, the engine it
    leaves is related by [R] to the engine it found. *)
Definition steady (R : engine -> engine -> Prop) {A} (m : M A) : Prop :=
  forall e, R e (snd (m e)).

(** The attribute [f] is left as it was. *)
Definition keeps {X} (f : engine -> X) : engine -> engine -> Prop :=
  fun e e' => f e' = f e.

(** No assertion is withdrawn from the solver. *)
Definition grows : engine -> engine -> Prop :=
  fun e e' => incl (Z3.assertions (solver e)) (Z3.assertions (solver e')).

(** [respects proj m]: the outcome of [m] and the part [proj] of the
    engine it leaves depend only on the part [proj] of the engine it
    finds. *)
Definition respects {X A} (proj : engine -> X) (m : M A) : Prop :=
  forall e e0,
    proj e = proj e0 ->
    fst (m e) = fst (m e0) /\ proj (snd (m e)) = proj (snd (m e0)).

(** The attributes the eligibility loop reads and writes. *)
Definition core (e : engine) :=
  (cap_list e, valid_mapping e, step_vars e, solver e).

(** The variables of a step, and the constraints [add_selection] asserts
    on them. *)
Definition vars_of (sid : str) (valid : list str) : list Z3.expr :=
  map (fun cid => Z3.Bool (var_name sid cid)) valid.

Definition selection (vars_for : list Z3.expr) : list Z3.expr :=
  match vars_for with
  | [] => [Z3.BoolVal false]
  | _ :: _ =>
      Z3.Or vars_for
      :: map (fun '(vi, vj) => Z3.Not (Z3.And [vi; vj])) (pairs vars_for)
  end.

(** The engine after the first statements of [build_constraints], up to
    the loop that sets the transport modes, and the rest of the method. *)
Definition prepared (lower : str -> str) (e : engine) (steps0 : list step) : engine :=
  let e0 := set_valid_mapping [] (set_step_vars [] (set_solver Z3.Optimize e)) in
  set_rec_data (Some (assign_modes lower e0 0 steps0)) e0.

Definition build_rest (lower : str -> str) (steps : list step) : M invalid_mapping_t :=
  invalid_mapping <- fold_each steps [] (build_step lower) ;;
  for_each steps (build_transport lower) ;;;
  set_objective ;;;
  ret invalid_mapping.

(** A capability reaches the range check (check 3) for a step when the
    step's type is among its ancestor types and it has every required
    parameter. *)
Definition reaches_range_check (lower : str -> str)
  (params : PyDict.dict (K:=str) (V:=str)) (step_semantic : str)
  (cap : capability) : Prop :=
  str_in (lower step_semantic) (map lower (all_semantic_types cap)) = true
  /\ forall k, In k (map fst params) -> PyDict.mem PyStr.eqb k (props cap) = true.

(** The recipe without the ['_transport_mode'] tags. *)
Definition forget_modes (steps : list step) : list step :=
  map (set_mode None) steps.

(** Every attribute but [assigned_resources]. *)
Definition but_assigned (e : engine) :=
  (cap_list e, step_vars e, valid_mapping e, solver e, step_ids e,
   semantic_hierarchy e, rec_data e).

(** The first statements of [build_constraints]: a new solver and empty
    mappings. *)
Definition cleared (e : engine) : engine :=
  set_valid_mapping [] (set_step_vars [] (set_solver Z3.Optimize e)).

(** What [build_constraints] does after the eligibility loop. *)
Definition build_tail (lower : str -> str) (steps : list step)
  (invalid_mapping : invalid_mapping_t) : M invalid_mapping_t :=
  for_each steps (build_transport lower) ;;;
  set_objective ;;;
  ret invalid_mapping.

(** ** The verdicts of the eligibility filter *)

(** A capability is accepted for a step when the three checks pass, and
    rejected when one of them records reasons. *)
Definition accepts (lower : str -> str) (params : PyDict.dict (K:=str) (V:=str))
  (step_semantic : str) (cap : capability) : bool :=
  match check_capability lower params step_semantic cap with
  | Ok None => true
  | _ => false
  end.

Definition rejects (lower : str -> str) (params : PyDict.dict (K:=str) (V:=str))
  (step_semantic : str) (cap : capability) : bool :=
  match check_capability lower params step_semantic cap with
  | Ok (Some _) => true
  | _ => false
  end.

Definition is_missing (r : reason) : Prop :=
  match r with
  | MissingParameter _ => True
  | _ => False
  end.

Definition is_range (r : reason) : Prop :=
  match r with
  | MaxBelowDemand _ _ _ | MinAboveDemand _ _ _ => True
  | _ => False
  end.

(** ** The sign of a bound *)

(** The sign bit of a float; [nan] counts as unsigned. *)
Definition negative (v : PyFloat.float) : bool :=
  match v with
  | S754_zero s | S754_infinity s | S754_finite s _ _ => s
  | S754_nan => false
  end.

(** ** What the builder leaves in the engine *)

(** [adds cs e e']: the engine [e'] has the assertions of [e] followed by
    [cs], and the same variables, valid mapping and step identifiers. *)
Definition adds (cs : list Z3.expr) (e e' : engine) : Prop :=
  Z3.assertions (solver e') = Z3.assertions (solver e) ++ cs
  /\ step_vars e' = step_vars e
  /\ valid_mapping e' = valid_mapping e
  /\ step_ids e' = step_ids e.

(** Every valid capability of every step has its selection variable. *)
Definition registered (e : engine) : Prop :=
  forall sid cid,
    In cid (valid_of sid e) ->
    PyDict.get pair_eqb (sid, cid) (step_vars e)
    = Some (Z3.Bool (var_name sid cid)).

(** The assertion [require_one_of] adds. *)
Definition link (transport_var : Z3.expr) (vars : list Z3.expr) : Z3.expr :=
  match vars with
  | [] => Z3.Not transport_var
  | _ :: _ => Z3.Implies transport_var (Z3.Or vars)
  end.

(** The assertion that ties the capability [cap_id] of the step [sid] to
    the valid capabilities of the step [other] whose resource passes
    [keep]. *)
Definition tie (e : engine) (keep : str -> str -> bool) (sid other cap_id : str)
  : Z3.expr :=
  link (Z3.Bool (var_name sid cap_id))
    (vars_of other (filter (keep (resource_of cap_id)) (valid_of other e))).

(** The ties of a transfer step to a neighbour, if it has one with a
    non-empty identifier. *)
Definition tie_to (e : engine) (sid : str) (other : option str) (cap_id : str)
  : list Z3.expr :=
  match other with
  | Some o => if nonempty o then [tie e other_resource sid o cap_id] else []
  | None => []
  end.

(** The assertions [build_transport] adds for a step. *)
Definition transport_asserts (lower : str -> str) (e : engine) (st : step)
  : list Z3.expr :=
  let ids := step_ids e in
  if str_in (step_type lower st) TRANSPORT_TYPES then
    match transport_mode st, index (ID st) ids with
    | Some feed, Ok (S i) =>
        map (tie e same_resource (ID st) (nth i ids [])) (valid_of (ID st) e)
    | Some discharge, Ok idx =>
        if (Z.of_nat idx =? Z.of_nat (List.length ids) - 1)%Z then []
        else map (tie e same_resource (ID st) (nth (idx + 1) ids []))
               (valid_of (ID st) e)
    | Some transfer, Ok idx =>
        flat_map
          (fun cap_id =>
             tie_to e (ID st)
               (if (0 <? Z.of_nat idx)%Z then Some (nth (idx - 1) ids []) else None)
               cap_id
             ++ tie_to e (ID st)
                  (if (Z.of_nat idx <? Z.of_nat (List.length ids) - 1)%Z
                   then Some (nth (idx + 1) ids []) else None)
                  cap_id)
          (valid_of (ID st) e)
    | _, _ => []
    end
  else [].

(* ------------------------------------------------------------------ *)
(** * Export helper: [infer_data_type_and_unit] *)

(** The two characters of the degree sign followed by [c]. *)
Definition degree_c : str := [176; 99]%N.

(** The data type and the unit of a parameter, inferred from its key
    and, when the key says nothing, from its value string. *)
Definition infer_data_type_and_unit (lower : str -> str)
  (param_key value_str : str) : str * str :=
  let param_key_lower := lower param_key in
  let value_str_lower := lower value_str in
  let key w := contains (lit w) param_key_lower in
  let val w := contains (lit w) value_str_lower in
  (if key "temp" then (lit "Temperature", lit "Celsius")
   else if key "pressure" then (lit "Pressure", lit "Bar")
   else if key "time" || key "duration" then (lit "Duration", lit "Seconds")
   else if key "flow" then (lit "FlowRate", lit "Milliliter/Second")
   else if key "volume" then (lit "Volume", lit "Milliliter")
   else if key "speed" then (lit "Speed", lit "Revolutions per Minute")
   else if key "weight" || key "mass" then (lit "Mass", lit "Grams")
   else if contains degree_c value_str_lower || val "celsius"
   then (lit "Temperature", lit "Celsius")
   else if val "bar" then (lit "Pressure", lit "Bar")
   else if val "s" || val "sec" then (lit "Duration", lit "Seconds")
   else if val "min" then (lit "Duration", lit "Minutes")
   else if val "ml" || val "milliliter" then (lit "Volume", lit "Milliliter")
   else if val "l" || val "liter" then (lit "Volume", lit "Liters")
   else if val "g" || val "gram" then (lit "Mass", lit "Grams")
   else if val "kg" || val "kilo" then (lit "Mass", lit "Kilograms")
   else if val "rpm" then (lit "Speed", lit "Revolutions per Minute")
   else (lit "Value", lit "Unit"))%string.

(* ------------------------------------------------------------------ *)
(** * Bounds on which the two versions agree *)

(** A JSON value that is absent or true in a condition: not [0], [0.0],
    [False], an empty string or an empty container. *)
Definition tidy (v : pyval) : Prop := v = PNone \/ truthy v = true.

(* ------------------------------------------------------------------ *)
(** * Properties of the string operations *)

Lemma eqb_eq : forall a b : str, PyStr.eqb a b = true <-> a = b.
Proof.
  intros a b. unfold PyStr.eqb.
  destruct (list_eq_dec N.eq_dec a b); split; congruence.
Qed.

Lemma eqb_refl : forall a : str, PyStr.eqb a a = true.
Proof. intro a. apply eqb_eq. reflexivity. Qed.

Lemma eqb_neq : forall a b : str, PyStr.eqb a b = false <-> a <> b.
Proof.
  intros a b. unfold PyStr.eqb.
  destruct (list_eq_dec N.eq_dec a b); split; congruence.
Qed.

Lemma split_go_nonempty : forall sep s skip cur, split_go sep skip cur s <> [].
Proof.
  intros sep s. induction s as [|c s IH]; intros skip cur; simpl.
  - discriminate.
  - destruct skip as [|k].
    + destruct (startswith sep (c :: s)); [discriminate | apply IH].
    + apply IH.
Qed.

(** A string that begins with the separator splits into an empty first
    piece and at least one more piece. *)
Lemma split_leading_minus :
  forall r, exists p ps, split (lit "-") (45%N :: r) = [] :: p :: ps.
Proof.
  intro r. unfold split. simpl.
  destruct (split_go (lit "-") 0 [] r) as [|p ps] eqn:E.
  - exfalso. exact (split_go_nonempty _ _ _ _ E).
  - exists p, ps. reflexivity.
Qed.

(* ------------------------------------------------------------------ *)
(** * Requirement parsing *)

(** [float] raises nothing but [ValueError] on a string. *)
Lemma of_str_raises_value_error :
  forall s x, PyFloat.of_str s = Raise x -> x = ValueError.
Proof.
  intros s x. unfold PyFloat.of_str.
  assert (P : forall u, PyFloat.parse_ascii u = Raise x -> x = ValueError).
  { intros u. unfold PyFloat.parse_ascii.
    destruct (PyFloat.take_sign u) as [neg r].
    destruct r as [|c r]; [congruence|].
    destruct (PyFloat.isdigit c || (c =? 46)%N).
    - unfold PyFloat.parse_number.
      destruct (PyFloat.take_digits (c :: r)) as [ip r0].
      destruct (match r0 with
                | 46%N :: r1 => PyFloat.take_digits r1
                | _ => ([], r0)
                end) as [fp r1].
      destruct (ip ++ fp); [congruence|].
      destruct (PyFloat.take_exponent r1) as [ex [|]]; congruence.
    - unfold PyFloat.parse_inf_or_nan.
      destruct (_ || _); [congruence|].
      destruct (PyStr.eqb _ _); congruence. }
  destruct (has_char _ _).
  - destruct (PyFloat.strip_underscores _ _); [apply P | congruence].
  - apply P.
Qed.

Lemma unpack2_raises_value_error :
  forall parts x,
    (forall r y, In r parts -> r = Raise y -> y = ValueError) ->
    unpack2 parts = Raise x -> x = ValueError.
Proof.
  intros parts x H.
  destruct parts as [|a [|b [|c rest]]]; simpl.
  - congruence.
  - destruct a eqn:E; simpl; [congruence|].
    intro R. injection R as <-. apply (H (Raise e)); simpl; auto.
  - destruct a eqn:Ea; simpl.
    + destruct b eqn:Eb; simpl; [congruence|].
      intro R. injection R as <-. apply (H (Raise e)); simpl; auto.
    + intro R. injection R as <-. apply (H (Raise e)); simpl; auto.
  - destruct a eqn:Ea; simpl.
    + destruct b eqn:Eb; simpl.
      * destruct c eqn:Ec; simpl; [congruence|].
        intro R. injection R as <-. apply (H (Raise e)); simpl; auto.
      * intro R. injection R as <-. apply (H (Raise e)); simpl; auto.
    + intro R. injection R as <-. apply (H (Raise e)); simpl; auto.
Qed.

(** [parse_req] raises nothing but [ValueError]. *)
Lemma parse_req_raises_value_error :
  forall s x, parse_req s = Raise x -> x = ValueError.
Proof.
  intros s x. unfold parse_req.
  destruct (startswith (lit ">=") (strip s)).
  { destruct (PyFloat.of_str _) eqn:E; simpl; [congruence|].
    intro R. injection R as <-. eapply of_str_raises_value_error; eauto. }
  destruct (startswith (lit "<=") (strip s)).
  { destruct (PyFloat.of_str _) eqn:E; simpl; [congruence|].
    intro R. injection R as <-. eapply of_str_raises_value_error; eauto. }
  destruct (has_char 45%N (strip s)).
  { apply unpack2_raises_value_error.
    intros r y Hin Hr. apply in_map_iff in Hin. destruct Hin as [u [Hu _]].
    subst r. eapply of_str_raises_value_error; eauto. }
  destruct (PyFloat.of_str _) eqn:E; simpl; [congruence|].
  intro R. injection R as <-. eapply of_str_raises_value_error; eauto.
Qed.

(** C5, as the code has it.  [parse_req] recognises the two-character
    ASCII operators: [">=5"] gives [(5.0, None)], ["<=3.2"] gives
    [(None, 3.2)], ["2-4"] gives [(2.0, 4.0)] and ["7"] gives [(7.0, 7.0)]. *)
Theorem parse_req_examples :
  parse_req (lit ">=5") = Ok (Some f5, None) /\
  parse_req (lit "<=3.2") = Ok (None, Some f3_2) /\
  parse_req (lit "2-4") = Ok (Some f2, Some f4) /\
  parse_req (lit "7") = Ok (Some f7, Some f7).
Proof. repeat split; vm_compute; reflexivity. Qed.

(** C5, as the claim states it, fails: the string made of the sign U+2265
    and the digit five is not read as [(5.0, None)]; [float] rejects it. *)
Lemma parse_req_unicode_operator_raises :
  parse_req unicode_ge_5 = Raise ValueError /\
  parse_req unicode_ge_5 <> Ok (Some f5, None).
Proof. split; [vm_compute; reflexivity | vm_compute; discriminate]. Qed.

(** C10.  A requirement string whose first character (after stripping) is
    the minus sign makes [parse_req] raise [ValueError]: the sign is taken
    for the range separator, and the empty piece before it is not a
    number.  This covers every negative literal such as ["-5"]. *)
Theorem parse_req_leading_minus_raises :
  forall s,
    startswith (lit "-") (strip s) = true ->
    parse_req s = Raise ValueError.
Proof.
  intros s H. unfold parse_req.
  destruct (strip s) as [|c r] eqn:E; [discriminate H|].
  change (startswith (lit "-") (c :: r)) with (N.eqb 45 c && true) in H.
  apply andb_true_iff in H. destruct H as [Hc _].
  apply N.eqb_eq in Hc. subst c.
  change (startswith (lit ">=") (45%N :: r)) with false.
  change (startswith (lit "<=") (45%N :: r)) with false.
  change (has_char 45%N (45%N :: r)) with true.
  cbv iota.
  destruct (split_leading_minus r) as [p [ps Hs]].
  unfold str, char in *. rewrite Hs.
  destruct ps; reflexivity.
Qed.

Lemma parse_req_leading_minus_raises_witness :
  startswith (lit "-") (strip (lit "-5")) = true /\
  PyFloat.of_str (lit "-5") = Ok (SFopp f5) /\
  parse_req (lit "-5") = Raise ValueError.
Proof.
  split; [reflexivity|]. split; [vm_compute; reflexivity|].
  apply (parse_req_leading_minus_raises (lit "-5")). reflexivity.
Defined.

(* ------------------------------------------------------------------ *)
(** * Range feasibility *)

Lemma SFcompare_swap :
  forall x y, SFcompare y x = option_map CompOpp (SFcompare x y).
Proof.
  intros x y.
  destruct x as [sx|sx| |sx mx ex], y as [sy|sy| |sy my ey]; simpl;
    try reflexivity;
    try (destruct sx; reflexivity);
    try (destruct sy; reflexivity);
    try (destruct sx, sy; reflexivity).
  destruct sx, sy; simpl; try reflexivity.
  - rewrite (Z.compare_antisym ex ey).
    destruct (ex ?= ey)%Z; simpl; try reflexivity.
    rewrite (Pos.compare_cont_antisym mx my Eq). reflexivity.
  - rewrite (Z.compare_antisym ex ey).
    destruct (ex ?= ey)%Z; simpl; try reflexivity.
    rewrite (Pos.compare_cont_antisym mx my Eq). reflexivity.
Qed.

Lemma SFcompare_defined :
  forall x y,
    PyFloat.is_nan x = false -> PyFloat.is_nan y = false ->
    exists c, SFcompare x y = Some c.
Proof.
  intros x y Hx Hy.
  destruct x, y; simpl in *; try discriminate; eauto.
Qed.

(** Away from NaN, [not (x < y)] is [y <= x]. *)
Lemma not_lt_iff_le :
  forall x y,
    PyFloat.is_nan x = false -> PyFloat.is_nan y = false ->
    (PyFloat.lt x y = false <-> PyFloat.le y x = true).
Proof.
  intros x y Hx Hy. unfold PyFloat.lt, PyFloat.le, SFltb, SFleb.
  rewrite (SFcompare_swap x y).
  destruct (SFcompare_defined x y Hx Hy) as [c ->].
  destruct c; simpl; split; congruence.
Qed.

Lemma range_reasons_nil :
  forall k lo hi c_lo c_hi,
    range_reasons k (lo, hi) (c_lo, c_hi) = [] <->
    match lo, c_hi with
    | Some lo, Some c_hi => PyFloat.lt c_hi lo = false
    | _, _ => True
    end /\
    match hi, c_lo with
    | Some hi, Some c_lo => PyFloat.lt hi c_lo = false
    | _, _ => True
    end.
Proof.
  intros k lo hi c_lo c_hi. unfold range_reasons.
  destruct lo as [lo|], c_hi as [c_hi|], hi as [hi|], c_lo as [c_lo|]; simpl;
    repeat match goal with
           | |- context [PyFloat.lt ?a ?b] => destruct (PyFloat.lt a b)
           end; simpl; intuition congruence.
Qed.

(** C3, as the code has it.  For a required parameter, reasons are
    recorded exactly when the capability's high bound is below the
    requirement's low bound or its low bound is above the requirement's high
    bound, a comparison being skipped when a bound is absent on either side.
    For an exact requirement [v] that is a number, against bounds that are
    numbers, this makes the capability feasible exactly when
    [lo <= v <= hi], absent bounds being no constraint. *)
Theorem range_feasibility :
  forall (k : str) (req c : range) (v : PyFloat.float),
    PyFloat.is_nan v = false ->
    bound_is_nan (fst c) = false ->
    bound_is_nan (snd c) = false ->
    (range_reasons k req c <> [] <->
       (exists lo c_hi,
           fst req = Some lo /\ snd c = Some c_hi /\ PyFloat.lt c_hi lo = true)
       \/ (exists hi c_lo,
           snd req = Some hi /\ fst c = Some c_lo /\ PyFloat.lt hi c_lo = true))
    /\ (range_reasons k (Some v, Some v) c = [] <-> within v c = true).
Proof.
  intros k [lo hi] [c_lo c_hi] v Hv Hlo Hhi. simpl in Hlo, Hhi. split.
  - rewrite range_reasons_nil. simpl. split.
    + intro H.
      destruct lo as [lo|], c_hi as [c_hi|];
        try (destruct (PyFloat.lt c_hi lo) eqn:E1;
             [left; exists lo, c_hi; auto|]);
        (destruct hi as [hi|], c_lo as [c_lo|];
         try (destruct (PyFloat.lt hi c_lo) eqn:E2;
              [right; exists hi, c_lo; auto|]);
         exfalso; apply H; auto).
    + intros [[x [y [H1 [H2 H3]]]] | [x [y [H1 [H2 H3]]]]] [A B]; subst;
        congruence.
  - rewrite range_reasons_nil. unfold within. simpl.
    rewrite andb_true_iff.
    destruct c_lo as [c_lo|], c_hi as [c_hi|]; simpl in *;
      repeat rewrite not_lt_iff_le by assumption; tauto.
Qed.

Lemma range_feasibility_witness :
  PyFloat.is_nan f5 = false /\
  (range_reasons (lit "temp") (Some f5, Some f5) (Some f4, Some f7) = [] <->
   within f5 (Some f4, Some f7) = true).
Proof.
  split; [reflexivity|].
  apply (range_feasibility (lit "temp") (Some f5, Some f5) (Some f4, Some f7) f5);
    reflexivity.
Defined.

(** C3, as the claim states it, fails at NaN: the requirement ["nan"] is an
    exact requirement, no reason is recorded for it against the range from
    20 to 100, and yet [20 <= nan <= 100] does not hold. *)
Lemma nan_requirement_is_feasible :
  parse_req (lit "nan") = Ok (Some S754_nan, Some S754_nan) /\
  range_reasons (lit "temp") (Some S754_nan, Some S754_nan) (Some f20, Some f100) = [] /\
  within S754_nan (Some f20, Some f100) = false.
Proof. repeat split; vm_compute; reflexivity. Qed.

(* ------------------------------------------------------------------ *)
(** * Capability normaliser *)

(** A property with a bound that [float] rejects leaves the range map as
    it was, in both files. *)
Lemma store_property_drops_unparsable :
  forall pid vmin vmax props,
    raises (bound vmin) \/ raises (bound vmax) ->
    store_property pid vmin vmax props = props.
Proof.
  intros pid vmin vmax props [[x H] | [x H]]; unfold store_property.
  - rewrite H. reflexivity.
  - rewrite H. destruct (bound vmin); reflexivity.
Qed.

(** In [02.07.py] the low bound is [valueMin] when that value is true in
    the sense of [or]. *)
Lemma vmin_of_truthy :
  forall p, truthy (valueMin p) = true -> vmin_of p = valueMin p.
Proof.
  intros p H. unfold vmin_of, py_or. rewrite H. rewrite H. reflexivity.
Qed.

(** In [05.06.py] the low bound is [valueMin] whenever it is present. *)
Lemma sibling_vmin_of_present :
  forall p, valueMin p <> PNone -> Sibling_05_06.vmin_of p = valueMin p.
Proof.
  intros p H. unfold Sibling_05_06.vmin_of.
  destruct (valueMin p); congruence.
Qed.

Lemma sibling_vmin_of_absent :
  forall p, valueMin p = PNone -> Sibling_05_06.vmin_of p = value0 p.
Proof. intros p H. unfold Sibling_05_06.vmin_of. rewrite H. reflexivity. Qed.

(** C7 at a property whose [valueMin] is the number 0: [02.07.py] leaves
    the low bound absent, where [05.06.py] stores 0.0. *)
Theorem build_props_zero_lower_bound :
  build_props [temp_0_100] = [(lit "temp", (None, Some f100))] /\
  Sibling_05_06.build_props [temp_0_100] = [(lit "temp", (Some f0, Some f100))].
Proof. split; vm_compute; reflexivity. Qed.

(* ------------------------------------------------------------------ *)
(** * Transport-mode classifier *)

(** Without recorded assignments the resource rule decides nothing. *)
Lemma flow_mode_without_assignments :
  forall e sid idx, assigned_resources e = [] -> flow_mode e sid idx = None.
Proof.
  intros e sid idx H. unfold flow_mode, assigned_resource. rewrite H.
  destruct (_ && _); reflexivity.
Qed.

Lemma nonempty_iff : forall s : str, nonempty s = true <-> s <> [].
Proof.
  intros [|c s]; cbn; split; intro H.
  - discriminate H.
  - exfalso. apply H. reflexivity.
  - discriminate.
  - reflexivity.
Qed.

(** C8, as the code has it.  Take an interior step of a transport type
    with no explicit mode, no identifier hint and no parameter-name hint,
    and the resources an earlier [solve] has recorded for it and for the
    steps before and after it.  When the three are recorded (not empty),
    the step resolves to [feed] if its resource is that of the next step
    and not that of the previous one, and to [discharge] if it is that of
    the previous step and not that of the next one.  In every other case
    it resolves to [transfer]; so it does when no assignment is recorded. *)
Theorem determine_transport_mode_default :
  forall (lower : str -> str) (e : engine) (st : step) (step_idx : nat),
    Z.of_nat step_idx <> 0%Z ->
    Z.of_nat step_idx <> (Z.of_nat (List.length (step_ids e)) - 1)%Z ->
    str_in (step_type lower st) TRANSPORT_TYPES = true ->
    explicit_mode lower st = None ->
    id_hint lower (ID st) = None ->
    param_hint lower st = None ->
    let current := assigned_resource e (ID st) in
    let prev := assigned_resource e (nth (step_idx - 1) (step_ids e) []) in
    let next := assigned_resource e (nth (step_idx + 1) (step_ids e) []) in
    let recorded :=
      (Z.of_nat step_idx < Z.of_nat (List.length (step_ids e)) - 1)%Z
      /\ current <> [] /\ prev <> [] /\ next <> [] in
    (determine_transport_mode lower e st step_idx = Some feed <->
     recorded /\ current <> prev /\ current = next)
    /\ (determine_transport_mode lower e st step_idx = Some discharge <->
        recorded /\ current = prev /\ current <> next)
    /\ (determine_transport_mode lower e st step_idx = Some transfer <->
        ~ (recorded /\ (current <> prev /\ current = next
                        \/ current = prev /\ current <> next)))
    /\ (assigned_resources e = [] ->
        determine_transport_mode lower e st step_idx = Some transfer).
Proof.
  intros lower e st idx H0 Hlast Hty Hexp Hid Hpar current prev next recorded.
  assert (Hdet : determine_transport_mode lower e st idx
                 = if (Z.of_nat idx <? Z.of_nat (List.length (step_ids e)) - 1)%Z
                      && (nonempty current && nonempty prev && nonempty next)
                   then if negb (PyStr.eqb current prev) && PyStr.eqb current next
                        then Some feed
                        else if PyStr.eqb current prev && negb (PyStr.eqb current next)
                             then Some discharge
                             else Some transfer
                   else Some transfer).
  { unfold determine_transport_mode, flow_mode.
    pose proof H0 as H0'. pose proof Hlast as Hlast'.
    apply Z.eqb_neq in H0'. apply Z.eqb_neq in Hlast'.
    rewrite H0', Hlast', Hty, Hexp, Hid, Hpar. cbn [orb negb].
    replace (0 <? Z.of_nat idx)%Z with true by (symmetry; apply Z.ltb_lt; lia).
    cbn [andb]. fold current prev next.
    destruct (Z.of_nat idx <? Z.of_nat (List.length (step_ids e)) - 1)%Z;
      [|reflexivity].
    cbn [andb].
    destruct (nonempty current && nonempty prev && nonempty next); [|reflexivity].
    destruct (PyStr.eqb current prev), (PyStr.eqb current next); reflexivity. }
  assert (Hrec : (Z.of_nat idx <? Z.of_nat (List.length (step_ids e)) - 1)%Z
                 && (nonempty current && nonempty prev && nonempty next) = true
                 <-> recorded).
  { unfold recorded.
    rewrite !andb_true_iff, Z.ltb_lt, !nonempty_iff. tauto. }
  assert (Hempty : assigned_resources e = [] -> ~ recorded).
  { intros Ha (_ & Hc & _). apply Hc.
    unfold current, assigned_resource. rewrite Ha. reflexivity. }
  assert (Hp : PyStr.eqb current prev = true <-> current = prev) by apply eqb_eq.
  assert (Hn : PyStr.eqb current next = true <-> current = next) by apply eqb_eq.
  rewrite Hdet. clear Hdet.
  destruct ((Z.of_nat idx <? Z.of_nat (List.length (step_ids e)) - 1)%Z
            && (nonempty current && nonempty prev && nonempty next)).
  - assert (Hr : recorded) by (apply Hrec; reflexivity).
    destruct (PyStr.eqb current prev), (PyStr.eqb current next);
      cbn [negb andb];
      assert (Hp' := proj1 Hp); assert (Hp'' := proj2 Hp);
      assert (Hn' := proj1 Hn); assert (Hn'' := proj2 Hn);
      (split; [|split; [|split]]); split || idtac;
      try (intro Hx; discriminate Hx);
      try (intros _; reflexivity);
      intuition discriminate.
  - assert (Hr : ~ recorded) by (intro Hc; apply Hrec in Hc; discriminate Hc).
    (split; [|split; [|split]]); split || idtac;
      try (intro Hx; discriminate Hx);
      try (intros _; reflexivity);
      tauto.
Qed.

Lemma determine_transport_mode_default_witness :
  determine_transport_mode lower_ascii
    (snd (load_data plant dosing_recipe init)) (plain_step "s1" "Dosing") 1
  = Some transfer.
Proof.
  assert (H0 : Z.of_nat 1 <> 0%Z) by discriminate.
  assert (H1 : Z.of_nat 1
               <> (Z.of_nat (List.length
                               (step_ids (snd (load_data plant dosing_recipe init))))
                   - 1)%Z) by (vm_compute; discriminate).
  assert (H2 : str_in (step_type lower_ascii (plain_step "s1" "Dosing"))
                 TRANSPORT_TYPES = true) by (vm_compute; reflexivity).
  assert (H3 : explicit_mode lower_ascii (plain_step "s1" "Dosing") = None)
    by (vm_compute; reflexivity).
  assert (H4 : id_hint lower_ascii (ID (plain_step "s1" "Dosing")) = None)
    by (vm_compute; reflexivity).
  assert (H5 : param_hint lower_ascii (plain_step "s1" "Dosing") = None)
    by (vm_compute; reflexivity).
  exact (proj2 (proj2 (proj2
           (determine_transport_mode_default lower_ascii
              (snd (load_data plant dosing_recipe init))
              (plain_step "s1" "Dosing") 1 H0 H1 H2 H3 H4 H5)))
           eq_refl).
Defined.

(** C8, as the claim states it, fails: after a run of the weighing recipe
    the dosing step [s1] is interior, of a transport type, without explicit
    mode or hint, and resolves to [feed]. *)
Lemma hintless_step_resolves_to_feed :
  let e := reloaded_engine in
  let st := plain_step "s1" "Dosing" in
  step_ids e = [lit "s0"; lit "s1"; lit "s2"] /\
  str_in (step_type lower_ascii st) TRANSPORT_TYPES = true /\
  explicit_mode lower_ascii st = None /\
  id_hint lower_ascii (ID st) = None /\
  param_hint lower_ascii st = None /\
  determine_transport_mode lower_ascii e st 1 = Some feed.
Proof. repeat split; vm_compute; reflexivity. Qed.

(* ------------------------------------------------------------------ *)
(** * Semantic hierarchy resolver *)

Lemma str_in_iff : forall s l, str_in s l = true <-> In s l.
Proof.
  intros s l. unfold str_in. rewrite existsb_exists. split.
  - intros [x [Hin Heq]]. apply eqb_eq in Heq. subst. exact Hin.
  - intro Hin. exists s. split; [exact Hin | apply eqb_refl].
Qed.

Lemma str_in_false_iff : forall s l, str_in s l = false <-> ~ In s l.
Proof.
  intros s l. rewrite <- str_in_iff. destruct (str_in s l); split; congruence.
Qed.

Lemma reach_trans :
  forall h t p g, reach h t p -> reach h p g -> reach h t g.
Proof.
  intros h t p g Htp Hpg. induction Hpg.
  - exact Htp.
  - eapply reach_parent; eauto.
Qed.

(** ** One pass over the parents of a type *)

Section VisitParents.
Variable h : PyDict.dict (K:=str) (V:=list str).

Lemma visit_parents_ancestors :
  forall ps A W A' W',
    visit_parents ps (A, W) = (A', W') ->
    forall x, In x A' <-> In x A \/ In x ps.
Proof.
  induction ps as [|p ps IH]; intros A W A' W' H x; simpl in H.
  - injection H as <- <-. simpl. tauto.
  - unfold visit_parents in IH. destruct (str_in p A) eqn:E.
    + rewrite (IH _ _ _ _ H x). apply str_in_iff in E. simpl.
      split; [tauto|]. intros [?|[<-|?]]; auto.
    + rewrite (IH _ _ _ _ H x). rewrite in_app_iff. simpl. tauto.
Qed.

Lemma visit_parents_stack :
  forall ps A W A' W',
    visit_parents ps (A, W) = (A', W') ->
    (forall x, In x W -> In x W') /\
    (forall x, In x W' -> In x W \/ In x ps) /\
    (forall x, In x A' -> In x A \/ In x W').
Proof.
  induction ps as [|p ps IH]; intros A W A' W' H; simpl in H.
  - injection H as <- <-. simpl. tauto.
  - unfold visit_parents in IH. destruct (str_in p A) eqn:E.
    + destruct (IH _ _ _ _ H) as [H1 [H2 H3]]. repeat split; auto.
      intros x Hx. destruct (H2 x Hx); simpl; auto.
    + destruct (IH _ _ _ _ H) as [H1 [H2 H3]]. repeat split.
      * intros x Hx. apply H1. right. exact Hx.
      * intros x Hx. destruct (H2 x Hx) as [[<-|?]|?]; simpl; auto.
      * intros x Hx. destruct (H3 x Hx) as [Ha|?]; auto.
        apply in_app_iff in Ha. destruct Ha as [?|[<-|[]]]; auto.
        right. apply H1. left. reflexivity.
Qed.

(** Seeing one more type of a duplicate-free list leaves one fewer
    unseen. *)
Lemma unseen_after_add :
  forall (U : list str) A p,
    NoDup U -> In p U -> ~ In p A ->
    S (List.length (filter (fun u => negb (str_in u (A ++ [p]))) U))
    = List.length (filter (fun u => negb (str_in u A)) U).
Proof.
  induction U as [|u U IH]; intros A p Hnd Hin Hnot; [destruct Hin|].
  inversion Hnd as [|? ? Hu HU]; subst.
  assert (Hother : forall A' : list str, ~ In p U ->
            filter (fun v => negb (str_in v (A' ++ [p]))) U
            = filter (fun v => negb (str_in v A')) U).
  { intros A' Hp. apply filter_ext_in. intros v Hv. f_equal.
    destruct (str_in v A') eqn:E.
    - apply str_in_iff. apply in_app_iff. left. apply str_in_iff. exact E.
    - apply str_in_false_iff. rewrite in_app_iff. simpl.
      apply str_in_false_iff in E. intros [?|[<-|[]]]; auto. }
  simpl. destruct Hin as [<-|Hin].
  - assert (E1 : str_in u (A ++ [u]) = true).
    { apply str_in_iff. apply in_app_iff. right. left. reflexivity. }
    assert (E2 : str_in u A = false) by (apply str_in_false_iff; exact Hnot).
    rewrite E1, E2. simpl. rewrite (Hother A Hu). reflexivity.
  - assert (Hne : u <> p) by (intros ->; contradiction).
    assert (E : str_in u (A ++ [p]) = str_in u A).
    { destruct (str_in u A) eqn:E.
      - apply str_in_iff. apply in_app_iff. left. apply str_in_iff. exact E.
      - apply str_in_false_iff. rewrite in_app_iff. simpl.
        apply str_in_false_iff in E. intros [?|[?|[]]]; auto. }
    rewrite E. destruct (str_in u A); simpl.
    + apply IH; auto.
    + f_equal. apply IH; auto.
Qed.

(** A pass neither creates nor removes pending work. *)
Lemma visit_parents_pending :
  forall ps A W A' W',
    (forall p, In p ps -> In p (universe h)) ->
    visit_parents ps (A, W) = (A', W') ->
    pending h A' W' = pending h A W.
Proof.
  induction ps as [|p ps IH]; intros A W A' W' Hps H; simpl in H.
  - injection H as <- <-. reflexivity.
  - unfold visit_parents in IH. destruct (str_in p A) eqn:E.
    + apply (IH _ _ _ _ (fun q Hq => Hps q (or_intror Hq)) H).
    + rewrite (IH _ _ _ _ (fun q Hq => Hps q (or_intror Hq)) H).
      unfold pending. simpl.
      rewrite <- (unseen_after_add (universe h) A p).
      * lia.
      * apply NoDup_nodup.
      * apply Hps. left. reflexivity.
      * apply str_in_false_iff. exact E.
Qed.

Lemma get_in_values :
  forall (t : str) (d : PyDict.dict (K:=str) (V:=list str)) v,
    PyDict.get PyStr.eqb t d = Some v -> In v (PyDict.values d).
Proof.
  intros t d. induction d as [|[k v'] d IH]; intros v H; simpl in H.
  - discriminate.
  - destruct (PyStr.eqb t k).
    + injection H as <-. left. reflexivity.
    + right. apply IH. exact H.
Qed.

Lemma parents_in_universe :
  forall t p, In p (parents_of h t) -> In p (universe h).
Proof.
  intros t p. unfold parents_of, PyDict.get_default, universe.
  destruct (PyDict.get PyStr.eqb t h) as [v|] eqn:E; [|intros []].
  intro Hp. apply nodup_In. apply in_concat. exists v. split; auto.
  eapply get_in_values; eauto.
Qed.
End VisitParents.

(** ** The loop *)

(** The loop ends within the fuel whenever the fuel exceeds the pending
    work. *)
Lemma ancestors_loop_terminates :
  forall h fuel A W,
    pending h A W < fuel -> exists r, ancestors_loop fuel h A W = Some r.
Proof.
  intros h fuel. induction fuel as [|fuel IH]; intros A W Hlt; [lia|].
  simpl. destruct W as [|current rest]; [eauto|].
  destruct (visit_parents (PyDict.get_default PyStr.eqb current [] h) (A, rest))
    as [A' W'] eqn:E.
  apply IH.
  rewrite (visit_parents_pending h _ _ _ _ _ (parents_in_universe h current) E).
  unfold pending in *. simpl in Hlt. lia.
Qed.

Lemma ancestors_fuel_enough :
  forall h t, pending h [t] [t] < ancestors_fuel h.
Proof.
  intros h t. unfold pending, ancestors_fuel, universe.
  set (all := List.concat (PyDict.values h)).
  set (U := nodup (list_eq_dec N.eq_dec) all).
  assert (H1 : List.length (filter (fun u => negb (str_in u [t])) U)
               <= List.length U) by apply filter_length_le.
  assert (H2 : List.length U <= List.length all).
  { apply (@NoDup_incl_length _ U all); [apply NoDup_nodup|].
    intros x Hx. apply (nodup_In (list_eq_dec N.eq_dec) all x). exact Hx. }
  change (List.length [t]) with 1. lia.
Qed.

(** What the loop returns, from a state in which every ancestor is
    reachable and every ancestor off the stack has its parents among the
    ancestors: exactly the reachable types. *)
Lemma ancestors_loop_reach :
  forall h t fuel A W r,
    ancestors_loop fuel h A W = Some r ->
    In t A ->
    (forall x, In x A -> reach h t x) ->
    (forall x, In x W -> In x A) ->
    (forall x, In x A -> In x W \/ forall g, In g (parents_of h x) -> In g A) ->
    forall x, In x r <-> reach h t x.
Proof.
  intros h t fuel. induction fuel as [|fuel IH]; intros A W r H Ht Hs Hw Hc;
    [discriminate|].
  simpl in H. destruct W as [|current rest].
  - injection H as <-. intro x. split; [apply Hs|].
    intro Hr. induction Hr as [|p g _ IHp Hg]; [exact Ht|].
    destruct (Hc p IHp) as [[]|Hp]. apply Hp. exact Hg.
  - destruct (visit_parents (PyDict.get_default PyStr.eqb current [] h) (A, rest))
      as [A' W'] eqn:E.
    pose proof (visit_parents_ancestors _ _ _ _ _ E) as HA.
    destruct (visit_parents_stack _ _ _ _ _ E) as [HW1 [HW2 HW3]].
    apply (IH A' W' r H).
    + apply HA. left. exact Ht.
    + intros x Hx. apply HA in Hx. destruct Hx as [Hx|Hx]; [apply Hs; exact Hx|].
      eapply reach_parent; [|exact Hx]. apply Hs. apply Hw. left. reflexivity.
    + intros x Hx. destruct (HW2 x Hx) as [Hr|Hp].
      * apply HA. left. apply Hw. right. exact Hr.
      * apply HA. right. exact Hp.
    + intros x Hx. destruct (HW3 x Hx) as [Ha|Hw']; [|left; exact Hw'].
      destruct (Hc x Ha) as [[<-|Hr]|Hp].
      * right. intros g Hg. apply HA. right. exact Hg.
      * left. apply HW1. exact Hr.
      * right. intros g Hg. apply HA. left. apply Hp. exact Hg.
Qed.

Lemma get_all_ancestor_types_returns :
  forall h t,
    ancestors_loop (ancestors_fuel h) h [t] [t]
    = Some (get_all_ancestor_types h t).
Proof.
  intros h t. unfold get_all_ancestor_types.
  destruct (ancestors_loop_terminates h (ancestors_fuel h) [t] [t]
              (ancestors_fuel_enough h t)) as [r ->].
  reflexivity.
Qed.

(** The ancestors of a type are the types reachable from it. *)
Lemma get_all_ancestor_types_reach :
  forall h t x, In x (get_all_ancestor_types h t) <-> reach h t x.
Proof.
  intros h t x.
  apply (ancestors_loop_reach h t (ancestors_fuel h) [t] [t]).
  - apply get_all_ancestor_types_returns.
  - left. reflexivity.
  - intros y [<-|[]]. apply reach_self.
  - auto.
  - intros y Hy. left. exact Hy.
Qed.

(** More fuel does not change the result. *)
Lemma ancestors_loop_more_fuel :
  forall h fuel A W r,
    ancestors_loop fuel h A W = Some r ->
    forall fuel', fuel <= fuel' -> ancestors_loop fuel' h A W = Some r.
Proof.
  intros h fuel. induction fuel as [|fuel IH]; intros A W r H fuel' Hle;
    [discriminate|].
  destruct fuel' as [|fuel']; [lia|].
  simpl in *. destruct W as [|current rest]; [exact H|].
  destruct (visit_parents (PyDict.get_default PyStr.eqb current [] h) (A, rest))
    as [A' W'].
  apply (IH _ _ _ H). lia.
Qed.

(** C4.  For every hierarchy, cyclic or not, and every type [T] the loop
    of [get_all_ancestor_types] ends within its fuel, and with any larger
    fuel in the same result; the result contains [T], and contains the
    ancestors of each of its members. *)
Theorem get_all_ancestor_types_closure :
  forall (h : PyDict.dict (K:=str) (V:=list str)) (T : str),
    (forall fuel, ancestors_fuel h <= fuel ->
       ancestors_loop fuel h [T] [T] = Some (get_all_ancestor_types h T))
    /\ In T (get_all_ancestor_types h T)
    /\ (forall P G,
          In P (get_all_ancestor_types h T) ->
          In G (get_all_ancestor_types h P) ->
          In G (get_all_ancestor_types h T)).
Proof.
  intros h T. split; [|split].
  - intros fuel Hle.
    apply (ancestors_loop_more_fuel h (ancestors_fuel h)); [|exact Hle].
    apply get_all_ancestor_types_returns.
  - apply get_all_ancestor_types_reach. apply reach_self.
  - intros P G HP HG. apply get_all_ancestor_types_reach.
    apply get_all_ancestor_types_reach in HP.
    apply get_all_ancestor_types_reach in HG.
    eapply reach_trans; eauto.
Qed.

(** A hierarchy with a cycle: [A] generalised by [B], [B] by [A] and [C]. *)
Example ancestors_on_a_cycle :
  get_all_ancestor_types
    [(lit "A", [lit "B"]); (lit "B", [lit "A"; lit "C"])] (lit "A")
  = [lit "A"; lit "B"; lit "C"].
Proof. reflexivity. Qed.

(* ------------------------------------------------------------------ *)
(** * Method bodies: what they keep and what they depend on *)

Section Steady.
Variable R : engine -> engine -> Prop.
Hypothesis R_refl : forall e, R e e.
Hypothesis R_trans : forall a b c, R a b -> R b c -> R a c.

Lemma steady_ret : forall A (a : A), steady R (ret a).
Proof. intros A a e. apply R_refl. Qed.

Lemma steady_read : forall A (f : engine -> A), steady R (read f).
Proof. intros A f e. apply R_refl. Qed.

Lemma steady_lift : forall A (r : result A), steady R (lift r).
Proof. intros A r e. apply R_refl. Qed.

Lemma steady_update :
  forall f, (forall e, R e (f e)) -> steady R (update f).
Proof. intros f H e. apply H. Qed.

Lemma steady_bind :
  forall A B (m : M A) (k : A -> M B),
    steady R m -> (forall a, steady R (k a)) -> steady R (bind m k).
Proof.
  intros A B m k Hm Hk e. unfold bind.
  specialize (Hm e). destruct (m e) as [[a|x] e']; simpl in *.
  - eapply R_trans; [exact Hm | apply Hk].
  - exact Hm.
Qed.

Lemma steady_for_each :
  forall A (body : A -> M unit) l,
    (forall x, steady R (body x)) -> steady R (for_each l body).
Proof.
  intros A body l H. induction l as [|x l IH]; simpl.
  - apply steady_ret.
  - apply steady_bind; auto.
Qed.

Lemma steady_fold_each :
  forall A B (body : B -> A -> M B) l acc,
    (forall acc x, steady R (body acc x)) -> steady R (fold_each l acc body).
Proof.
  intros A B body l. induction l as [|x l IH]; intros acc H; simpl.
  - apply steady_ret.
  - apply steady_bind; auto.
Qed.

Lemma steady_step_var : forall k, steady R (step_var k).
Proof.
  intros k e. unfold step_var.
  destruct (PyDict.get pair_eqb k (step_vars e)); apply R_refl.
Qed.

Lemma steady_process_elements : steady R process_elements.
Proof.
  intros e. unfold process_elements. destruct (rec_data e); apply R_refl.
Qed.
End Steady.

Lemma keeps_refl : forall X (f : engine -> X) e, keeps f e e.
Proof. reflexivity. Qed.

Lemma keeps_trans :
  forall X (f : engine -> X) a b c, keeps f a b -> keeps f b c -> keeps f a c.
Proof. unfold keeps. intros. congruence. Qed.

Lemma grows_refl : forall e, grows e e.
Proof. intro e. apply incl_refl. Qed.

Lemma grows_trans : forall a b c, grows a b -> grows b c -> grows a c.
Proof. unfold grows. intros a b c H1 H2. eapply incl_tran; eauto. Qed.

(** Breaks a method body down to its updates. *)
Ltac steady_step Rrefl Rtrans :=
  lazymatch goal with
  | |- steady _ (ret _) => apply (steady_ret _ Rrefl)
  | |- steady _ (read _) => apply (steady_read _ Rrefl)
  | |- steady _ (lift _) => apply (steady_lift _ Rrefl)
  | |- steady _ (step_var _) => apply (steady_step_var _ Rrefl)
  | |- steady _ process_elements => apply (steady_process_elements _ Rrefl)
  | |- steady _ (bind _ _) => apply (steady_bind _ Rtrans)
  | |- steady _ (for_each _ _) => apply (steady_for_each _ Rrefl Rtrans)
  | |- steady _ (fold_each _ _ _) => apply (steady_fold_each _ Rrefl Rtrans)
  | |- steady _ (update _) => apply steady_update
  | |- steady _ (match ?x with _ => _ end) => destruct x
  | |- forall _, _ => intro
  end.

Ltac steady_keeps :=
  repeat first
    [ steady_step (@keeps_refl) (@keeps_trans)
    | progress unfold solver_add, neighbour_vars, require_one_of
    | reflexivity ].

Ltac steady_grows :=
  repeat first
    [ steady_step grows_refl grows_trans
    | progress unfold solver_add, neighbour_vars, require_one_of
    | (unfold grows; simpl; first [apply incl_refl | apply incl_appl, incl_refl]) ].

Section Frames.
Variable lower : str -> str.
Variable check : Z3.optimize -> option Z3.model.

Lemma handle_feed_mode_grows :
  forall sid ids, steady grows (handle_feed_mode sid ids).
Proof. intros. unfold handle_feed_mode. steady_grows. Qed.

Lemma handle_discharge_mode_grows :
  forall sid ids, steady grows (handle_discharge_mode sid ids).
Proof. intros. unfold handle_discharge_mode. steady_grows. Qed.

Lemma handle_transfer_mode_grows :
  forall sid ids, steady grows (handle_transfer_mode sid ids).
Proof. intros. unfold handle_transfer_mode. steady_grows. Qed.

Lemma build_transport_grows :
  forall st, steady grows (build_transport lower st).
Proof.
  intros. unfold build_transport.
  destruct (str_in _ _); [|steady_grows].
  destruct (transport_mode st) as [[| |]|]; steady_grows.
  - apply handle_feed_mode_grows.
  - apply handle_discharge_mode_grows.
  - apply handle_transfer_mode_grows.
Qed.

Lemma set_objective_grows : steady grows set_objective.
Proof. unfold set_objective. steady_grows. Qed.
End Frames.

(* ------------------------------------------------------------------ *)
(** * Constraint model builder *)

Lemma pairs_nth :
  forall A (l : list A) i j a b,
    i < j -> nth_error l i = Some a -> nth_error l j = Some b ->
    In (a, b) (pairs l).
Proof.
  intros A l. induction l as [|x l IH]; intros i j a b Hlt Hi Hj.
  - destruct i; discriminate.
  - simpl. apply in_or_app. destruct j as [|j]; [lia|]. simpl in Hj.
    destruct i as [|i]; simpl in Hi.
    + injection Hi as <-. left. apply in_map. eapply nth_error_In; eauto.
    + right. apply (IH i j); auto. lia.
Qed.

Section Builder.
Variable lower : str -> str.

(** The variables of a step are named after the step and each of its
    valid capabilities; creating them touches only [step_vars]. *)
Lemma create_vars_spec :
  forall sid valid acc e,
    exists e',
      fold_each valid acc (fun vars_for cid =>
        let var := Z3.Bool (var_name sid cid) in
        update (fun e =>
          set_step_vars (PyDict.set pair_eqb (sid, cid) var (step_vars e)) e) ;;;
        ret (vars_for ++ [var])) e
      = (Ok (acc ++ vars_of sid valid), e')
      /\ solver e' = solver e /\ cap_list e' = cap_list e.
Proof.
  intros sid valid. induction valid as [|cid valid IH]; intros acc e.
  - exists e. simpl. rewrite app_nil_r. auto.
  - destruct (IH (acc ++ [Z3.Bool (var_name sid cid)])
                (set_step_vars
                   (PyDict.set pair_eqb (sid, cid) (Z3.Bool (var_name sid cid))
                      (step_vars e)) e)) as [e' [H1 [H2 H3]]].
    exists e'. rewrite <- app_assoc in H1. split; [exact H1 | auto].
Qed.

Lemma add_exclusions_spec :
  forall ps e,
    exists e',
      for_each ps (fun '(vi, vj) => solver_add (Z3.Not (Z3.And [vi; vj]))) e
      = (Ok tt, e')
      /\ Z3.assertions (solver e')
         = Z3.assertions (solver e)
           ++ map (fun '(vi, vj) => Z3.Not (Z3.And [vi; vj])) ps
      /\ cap_list e' = cap_list e.
Proof.
  induction ps as [|[vi vj] ps IH]; intro e.
  - exists e. simpl. rewrite app_nil_r. auto.
  - destruct (IH (set_solver (Z3.add (Z3.Not (Z3.And [vi; vj])) (solver e)) e))
      as [e' [H1 [H2 H3]]].
    exists e'. split; [exact H1|]. rewrite H2. simpl.
    rewrite <- app_assoc. auto.
Qed.

Lemma add_selection_spec :
  forall vars_for e,
    exists e',
      add_selection vars_for e = (Ok tt, e')
      /\ Z3.assertions (solver e')
         = Z3.assertions (solver e) ++ selection vars_for
      /\ cap_list e' = cap_list e.
Proof.
  intros [|v vars] e.
  - eexists. split; [reflexivity|]. simpl. auto.
  - destruct (add_exclusions_spec (pairs (v :: vars))
                (set_solver (Z3.add (Z3.Or (v :: vars)) (solver e)) e))
      as [e' [H1 [H2 H3]]].
    exists e'. split; [exact H1|]. rewrite H2. simpl.
    rewrite <- app_assoc. auto.
Qed.

(** The second loop, for one step: a failing eligibility check leaves
    the engine as it is; otherwise the step's constraints are added. *)
Lemma build_step_raises :
  forall inv st e x,
    step_eligibility lower (cap_list e) st = Raise x ->
    build_step lower inv st e = (Raise x, e).
Proof.
  intros inv st e x H. unfold build_step, bind, read, lift. simpl.
  rewrite H. reflexivity.
Qed.

Lemma build_step_returns :
  forall inv st e valid invalid,
    step_eligibility lower (cap_list e) st = Ok (valid, invalid) ->
    exists e',
      build_step lower inv st e
      = (Ok (PyDict.set PyStr.eqb (ID st) invalid inv), e')
      /\ Z3.assertions (solver e')
         = Z3.assertions (solver e) ++ selection (vars_of (ID st) valid)
      /\ cap_list e' = cap_list e.
Proof.
  intros inv st e valid invalid H.
  pose (e1 := set_valid_mapping
                (PyDict.set PyStr.eqb (ID st) valid (valid_mapping e)) e).
  destruct (create_vars_spec (ID st) valid [] e1) as [e2 [H1 [H2 H3]]].
  change ([] ++ vars_of (ID st) valid) with (vars_of (ID st) valid) in H1.
  destruct (add_selection_spec (vars_of (ID st) valid) e2) as [e3 [H4 [H5 H6]]].
  exists e3. split.
  - unfold build_step, bind, read, lift, update. rewrite H.
    fold e1. unfold create_vars, bind, update in *. rewrite H1, H4.
    reflexivity.
  - rewrite H5, H2, H6, H3. auto.
Qed.

(** The second loop: when it returns, every step was found eligible for
    some set of capabilities and its constraints are asserted. *)
Lemma build_steps_asserts :
  forall steps acc e acc' e',
    fold_each steps acc (build_step lower) e = (Ok acc', e') ->
    cap_list e' = cap_list e /\ grows e e' /\
    forall st, In st steps ->
      exists valid invalid,
        step_eligibility lower (cap_list e) st = Ok (valid, invalid) /\
        incl (selection (vars_of (ID st) valid)) (Z3.assertions (solver e')).
Proof.
  induction steps as [|st0 steps IH]; intros acc e acc' e' H; simpl in H.
  - injection H as <- <-. repeat split; [apply grows_refl | intros st []].
  - unfold bind in H.
    destruct (step_eligibility lower (cap_list e) st0) as [[valid invalid]|x] eqn:E.
    + destruct (build_step_returns acc st0 e valid invalid E) as [e1 [H1 [H2 H3]]].
      rewrite H1 in H.
      destruct (IH _ _ _ _ H) as [Hc [Hg Hall]].
      split; [congruence|]. split.
      * unfold grows in *. intros c Hcin. apply Hg. rewrite H2.
        apply in_or_app. left. exact Hcin.
      * intros st [<-|Hin].
        -- exists valid, invalid. split; [exact E|].
           intros c Hcin. apply Hg. rewrite H2. apply in_or_app. right. exact Hcin.
        -- rewrite <- H3. apply Hall. exact Hin.
    + rewrite (build_step_raises acc st0 e x E) in H. discriminate.
Qed.

End Builder.

Section Model.
Variable lower : str -> str.

Lemma build_constraints_unfold :
  forall e,
    build_constraints lower e
    = match rec_data e with
      | Some steps0 =>
          build_rest lower (assign_modes lower
                              (set_valid_mapping []
                                 (set_step_vars [] (set_solver Z3.Optimize e)))
                              0 steps0)
            (prepared lower e steps0)
      | None =>
          (Raise AttributeError,
           set_valid_mapping [] (set_step_vars [] (set_solver Z3.Optimize e)))
      end.
Proof.
  intro e. unfold build_constraints, build_rest, prepared, bind, update,
    process_elements. simpl.
  destruct (rec_data e); reflexivity.
Qed.

Lemma assign_modes_in :
  forall e steps idx st,
    In st steps ->
    exists m, In (set_mode m st) (assign_modes lower e idx steps).
Proof.
  intros e steps. induction steps as [|st0 steps IH]; intros idx st Hin;
    [destruct Hin|].
  simpl. destruct Hin as [<-|Hin].
  - eexists. left. reflexivity.
  - destruct (IH (S idx) st Hin) as [m Hm]. exists m. right. exact Hm.
Qed.

(** When [build_constraints] returns, every step of the recipe was
    found eligible for some set of capabilities, and the constraints on
    that set's variables are among the solver's assertions. *)
Lemma build_constraints_asserts :
  forall e inv e' steps st,
    build_constraints lower e = (Ok inv, e') ->
    rec_data e = Some steps ->
    In st steps ->
    exists valid invalid,
      step_eligibility lower (cap_list e) st = Ok (valid, invalid) /\
      incl (selection (vars_of (ID st) valid)) (Z3.assertions (solver e')).
Proof.
  intros e inv e' steps st H Hrec Hin.
  rewrite build_constraints_unfold, Hrec in H.
  unfold build_rest in H. unfold bind at 1 in H.
  set (e0 := set_valid_mapping [] (set_step_vars [] (set_solver Z3.Optimize e))) in *.
  set (steps1 := assign_modes lower e0 0 steps) in *.
  destruct (fold_each steps1 [] (build_step lower) (prepared lower e steps))
    as [[inv1|x] e1] eqn:E1; [|discriminate].
  destruct (build_steps_asserts lower _ _ _ _ _ E1) as [Hc [_ Hall]].
  destruct (assign_modes_in e0 steps 0 st Hin) as [m Hm].
  destruct (Hall _ Hm) as [valid [invalid [He Hincl]]].
  exists valid, invalid. split; [exact He|].
  assert (Hg : grows e1 e').
  { pose proof (steady_bind grows grows_trans _ _
                  (for_each steps1 (build_transport lower))
                  (fun _ => set_objective ;;; ret inv1)) as Hs.
    assert (Hs' : steady grows
              (for_each steps1 (build_transport lower) ;;;
               (set_objective ;;; ret inv1))).
    { apply Hs.
      - apply (steady_for_each _ grows_refl grows_trans).
        apply build_transport_grows.
      - intros _. apply (steady_bind _ grows_trans).
        + apply set_objective_grows.
        + intros _. apply (steady_ret _ grows_refl). }
    specialize (Hs' e1). rewrite H in Hs'. exact Hs'. }
  intros c Hcin. apply Hg. apply Hincl. exact Hcin.
Qed.
End Model.

Lemma holds_satisfies :
  forall s m, Oracle.holds s m = true -> Z3.satisfies (Z3.valuation m) s.
Proof.
  intros s m H c Hc. unfold Oracle.holds in H.
  rewrite forallb_forall in H. apply H. exact Hc.
Qed.

(** The reference solver is sound. *)
Lemma oracle_check_sound : sound Oracle.check.
Proof.
  intros s m. unfold Oracle.check.
  assert (G : forall l best,
             (forall b, best = Some b -> Oracle.holds s b = true) ->
             (forall x, In x l -> Oracle.holds s x = true) ->
             fold_left (Oracle.better s) l best = Some m ->
             Oracle.holds s m = true).
  { induction l as [|x l IH]; intros best Hb Hl; simpl.
    - intro E. apply Hb. exact E.
    - apply IH.
      + intros b. unfold Oracle.better. destruct best as [b0|].
        * destruct (Oracle.score s b0 <? Oracle.score s x).
          -- intro E. injection E as <-. apply Hl. left. reflexivity.
          -- apply Hb.
        * intro E. injection E as <-. apply Hl. left. reflexivity.
      + intros y Hy. apply Hl. right. exact Hy. }
  intro E. apply holds_satisfies. eapply G; [| |exact E].
  - intros b Hb. discriminate.
  - intros x Hx. apply filter_In in Hx. apply Hx.
Qed.

(** C1.  When [build_constraints] returns and some step of the recipe has
    no valid capability, the contradiction [False] is among the assertions:
    no valuation satisfies the model, and [solve], with any sound solver,
    reports no model and leaves the engine as it is. *)
Theorem empty_valid_set_is_unsat :
  forall (lower : str -> str) (e e' : engine) (inv : invalid_mapping_t)
         (steps : list step) (st : step) (invalid : invalid_map),
    build_constraints lower e = (Ok inv, e') ->
    rec_data e = Some steps ->
    In st steps ->
    step_eligibility lower (cap_list e) st = Ok ([], invalid) ->
    In (Z3.BoolVal false) (Z3.assertions (solver e'))
    /\ Z3.unsat (solver e')
    /\ forall check, sound check -> solve check e' = (Ok None, e').
Proof.
  intros lower e e' inv steps st invalid H Hrec Hin Hel.
  destruct (build_constraints_asserts lower e inv e' steps st H Hrec Hin)
    as [valid [invalid' [He Hincl]]].
  rewrite Hel in He. injection He as <- <-.
  assert (Hf : In (Z3.BoolVal false) (Z3.assertions (solver e'))).
  { apply Hincl. left. reflexivity. }
  assert (Hu : Z3.unsat (solver e')).
  { intros sigma Hs. specialize (Hs _ Hf). discriminate. }
  repeat split; auto.
  intros check Hsound. unfold solve, bind, read. simpl.
  destruct (check (solver e')) as [m|] eqn:E; [|reflexivity].
  exfalso. exact (Hu _ (Hsound _ _ E)).
Qed.

(** C2.  When [build_constraints] returns, a valuation that satisfies the
    model makes at most one selection variable of each step true: two
    variables of the step at different places of its valid list are never
    both true. *)
Theorem at_most_one_selected :
  forall (lower : str -> str) (e e' : engine) (inv : invalid_mapping_t)
         (steps : list step) (st : step) (valid : list str)
         (invalid : invalid_map) (sigma : str -> bool),
    build_constraints lower e = (Ok inv, e') ->
    rec_data e = Some steps ->
    In st steps ->
    step_eligibility lower (cap_list e) st = Ok (valid, invalid) ->
    Z3.satisfies sigma (solver e') ->
    forall i j ci cj,
      i <> j ->
      nth_error valid i = Some ci ->
      nth_error valid j = Some cj ->
      sigma (var_name (ID st) ci) && sigma (var_name (ID st) cj) = false.
Proof.
  intros lower e e' inv steps st valid invalid sigma H Hrec Hin Hel Hsat.
  destruct (build_constraints_asserts lower e inv e' steps st H Hrec Hin)
    as [valid' [invalid' [He Hincl]]].
  rewrite Hel in He. injection He as <- <-.
  assert (Hlt : forall i j ci cj,
             i < j -> nth_error valid i = Some ci -> nth_error valid j = Some cj ->
             sigma (var_name (ID st) ci) && sigma (var_name (ID st) cj) = false).
  { intros i j ci cj Hij Hi Hj.
    assert (Hp : In (Z3.Bool (var_name (ID st) ci), Z3.Bool (var_name (ID st) cj))
                   (pairs (vars_of (ID st) valid))).
    { apply (pairs_nth _ _ i j); auto; unfold vars_of.
      - rewrite nth_error_map, Hi. reflexivity.
      - rewrite nth_error_map, Hj. reflexivity. }
    assert (Hc : In (Z3.Not (Z3.And [Z3.Bool (var_name (ID st) ci);
                                     Z3.Bool (var_name (ID st) cj)]))
                   (selection (vars_of (ID st) valid))).
    { unfold selection. destruct (vars_of (ID st) valid) eqn:Ev; [destruct Hp|].
      right. apply in_map_iff.
      exists (Z3.Bool (var_name (ID st) ci), Z3.Bool (var_name (ID st) cj)).
      split; [reflexivity | exact Hp]. }
    specialize (Hsat _ (Hincl _ Hc)). simpl in Hsat.
    rewrite andb_true_r in Hsat. apply negb_true_iff in Hsat. exact Hsat. }
  intros i j ci cj Hne Hi Hj.
  destruct (Nat.lt_total i j) as [Hij|[Hij|Hij]].
  - apply (Hlt i j); auto.
  - contradiction.
  - rewrite andb_comm. apply (Hlt j i); auto.
Qed.

Lemma empty_valid_set_is_unsat_witness :
  let e := heating_engine ">=150" in
  let e' := snd (build_constraints lower_ascii e) in
  rbind (step_eligibility lower_ascii (cap_list e) (heating_step ">=150"))
    (fun r => Ok (fst r)) = Ok []
  /\ Z3.assertions (solver e') = [Z3.BoolVal false]
  /\ Z3.unsat (solver e')
  /\ solve Oracle.check e' = (Ok None, e').
Proof.
  intros e e'.
  split; [vm_compute; reflexivity|]. split; [vm_compute; reflexivity|].
  destruct (empty_valid_set_is_unsat lower_ascii e e'
              (match fst (build_constraints lower_ascii e) with
               | Ok inv => inv
               | Raise _ => []
               end)
              [heating_step ">=150"] (heating_step ">=150")
              (match step_eligibility lower_ascii (cap_list e) (heating_step ">=150") with
               | Ok (_, invalid) => invalid
               | Raise _ => []
               end)) as [_ [Hu Hs]].
  - vm_compute. reflexivity.
  - vm_compute. reflexivity.
  - left. reflexivity.
  - vm_compute. reflexivity.
  - split; [exact Hu | exact (Hs Oracle.check oracle_check_sound)].
Defined.

Lemma at_most_one_selected_witness :
  let e := reloaded_engine in
  let e' := snd (build_constraints lower_ascii e) in
  let sigma :=
    Z3.valuation (match Oracle.check (solver e') with Some m => m | None => [] end) in
  rbind (step_eligibility lower_ascii (cap_list e) (plain_step "s1" "Dosing"))
    (fun r => Ok (fst r)) = Ok [lit "R1::Dosing"; lit "R2::Dosing"]
  /\ sigma (lit "s1__R1::Dosing") = true
  /\ sigma (lit "s1__R1::Dosing") && sigma (lit "s1__R2::Dosing") = false.
Proof.
  intros e e' sigma.
  split; [vm_compute; reflexivity|]. split; [vm_compute; reflexivity|].
  apply (at_most_one_selected lower_ascii e e'
           (match fst (build_constraints lower_ascii e) with
            | Ok inv => inv
            | Raise _ => []
            end)
           dosing_recipe (plain_step "s1" "Dosing")
           [lit "R1::Dosing"; lit "R2::Dosing"]
           (match step_eligibility lower_ascii (cap_list e) (plain_step "s1" "Dosing") with
            | Ok (_, invalid) => invalid
            | Raise _ => []
            end)
           sigma) with (i := 0) (j := 1).
  - vm_compute. reflexivity.
  - vm_compute. reflexivity.
  - right. left. reflexivity.
  - vm_compute. reflexivity.
  - apply holds_satisfies. vm_compute. reflexivity.
  - discriminate.
  - reflexivity.
  - reflexivity.
Defined.

(* ------------------------------------------------------------------ *)
(** * Malformed requirement strings *)

Section Malformed.
Variable lower : str -> str.

(** Once every required key is among the capability's properties, the
    range check raises nothing but the [ValueError] of [parse_req]. *)
Lemma check_ranges_raises_value_error :
  forall params cap x,
    (forall k, In k (map fst params) -> PyDict.mem PyStr.eqb k (props cap) = true) ->
    check_ranges params cap = Raise x -> x = ValueError.
Proof.
  induction params as [|[k vstr] params IH]; intros cap x Hmem; simpl.
  - discriminate.
  - destruct (parse_req vstr) as [req|y] eqn:E; simpl.
    + assert (Hk : PyDict.mem PyStr.eqb k (props cap) = true)
        by (apply Hmem; left; reflexivity).
      unfold PyDict.mem in Hk.
      destruct (PyDict.get PyStr.eqb k (props cap)); [|discriminate].
      destruct (check_ranges params cap) as [rest|z] eqn:E2; simpl; [discriminate|].
      intro R. injection R as <-.
      apply (IH cap z); [|exact E2].
      intros k' Hk'. apply Hmem. right. exact Hk'.
    + intro R. injection R as <-. eapply parse_req_raises_value_error; eauto.
Qed.

Lemma check_ranges_malformed :
  forall params cap k vstr,
    (forall k, In k (map fst params) -> PyDict.mem PyStr.eqb k (props cap) = true) ->
    In (k, vstr) params ->
    raises (parse_req vstr) ->
    check_ranges params cap = Raise ValueError.
Proof.
  induction params as [|[k0 v0] params IH]; intros cap k vstr Hmem Hin Hbad;
    [destruct Hin|].
  simpl. destruct (parse_req v0) as [req|y] eqn:E; simpl.
  - assert (Hk : PyDict.mem PyStr.eqb k0 (props cap) = true)
      by (apply Hmem; left; reflexivity).
    unfold PyDict.mem in Hk.
    destruct (PyDict.get PyStr.eqb k0 (props cap)); [|discriminate].
    destruct Hin as [Heq|Hin].
    + injection Heq as -> ->. destruct Hbad as [z Hz]. congruence.
    + rewrite (IH cap k vstr); auto.
      intros k' Hk'. apply Hmem. right. exact Hk'.
  - f_equal. eapply parse_req_raises_value_error; eauto.
Qed.

Lemma no_missing_parameter :
  forall (keys : list str) (cap : capability),
    filter (fun k => negb (PyDict.mem PyStr.eqb k (props cap))) keys = [] ->
    forall k, In k keys -> PyDict.mem PyStr.eqb k (props cap) = true.
Proof.
  intros keys cap H k Hin.
  destruct (PyDict.mem PyStr.eqb k (props cap)) eqn:E; [reflexivity|].
  assert (Hf : In k (filter (fun k => negb (PyDict.mem PyStr.eqb k (props cap))) keys)).
  { apply filter_In. split; [exact Hin|]. rewrite E. reflexivity. }
  rewrite H in Hf. destruct Hf.
Qed.

Lemma check_capability_raises_value_error :
  forall params sem cap x,
    check_capability lower params sem cap = Raise x -> x = ValueError.
Proof.
  intros params sem cap x. unfold check_capability.
  destruct (negb _); [discriminate|].
  destruct (filter _ (map fst params)) eqn:F; [|discriminate].
  destruct (check_ranges params cap) as [reasons|y] eqn:E; simpl.
  - destruct reasons; discriminate.
  - intro R. injection R as <-.
    eapply check_ranges_raises_value_error; [|exact E].
    apply no_missing_parameter. exact F.
Qed.

(** A capability reaches the range check for a step when it passes the
    semantic and the parameter-coverage checks. *)
Lemma check_capability_malformed :
  forall params sem cap k vstr,
    reaches_range_check lower params sem cap ->
    In (k, vstr) params ->
    raises (parse_req vstr) ->
    check_capability lower params sem cap = Raise ValueError.
Proof.
  intros params sem cap k vstr [Hsem Hcov] Hin Hbad. unfold check_capability.
  rewrite Hsem. simpl.
  destruct (filter _ (map fst params)) as [|m ms] eqn:F.
  - rewrite (check_ranges_malformed params cap k vstr); auto.
  - exfalso.
    assert (Hm : In m (filter
                         (fun k => negb (PyDict.mem PyStr.eqb k (props cap)))
                         (map fst params)))
      by (rewrite F; left; reflexivity).
    apply filter_In in Hm. destruct Hm as [Hm1 Hm2].
    rewrite (Hcov m Hm1) in Hm2. discriminate.
Qed.

Lemma eligibility_raises_value_error :
  forall params sem caps valid invalid x,
    eligibility lower params sem caps valid invalid = Raise x -> x = ValueError.
Proof.
  intros params sem caps. induction caps as [|cap caps IH];
    intros valid invalid x; simpl.
  - discriminate.
  - destruct (check_capability lower params sem cap) as [[reasons|]|y] eqn:E; simpl.
    + apply IH.
    + apply IH.
    + intro R. injection R as <-.
      eapply check_capability_raises_value_error; eauto.
Qed.

Lemma eligibility_malformed :
  forall params sem caps cap valid invalid,
    In cap caps ->
    check_capability lower params sem cap = Raise ValueError ->
    eligibility lower params sem caps valid invalid = Raise ValueError.
Proof.
  intros params sem caps. induction caps as [|c caps IH];
    intros cap valid invalid Hin Hbad; [destruct Hin|].
  simpl. destruct (check_capability lower params sem c) as [[reasons|]|y] eqn:E;
    simpl.
  - destruct Hin as [->|Hin]; [congruence|]. eapply IH; eauto.
  - destruct Hin as [->|Hin]; [congruence|]. eapply IH; eauto.
  - f_equal. eapply check_capability_raises_value_error; eauto.
Qed.

(** The second loop raises [ValueError] as soon as one step does. *)
Lemma build_steps_malformed :
  forall steps acc e st,
    In st steps ->
    step_eligibility lower (cap_list e) st = Raise ValueError ->
    fst (fold_each steps acc (build_step lower) e) = Raise ValueError.
Proof.
  induction steps as [|st0 steps IH]; intros acc e st Hin Hbad; [destruct Hin|].
  simpl. unfold bind.
  destruct (step_eligibility lower (cap_list e) st0) as [[valid invalid]|x] eqn:E.
  - destruct (build_step_returns lower acc st0 e valid invalid E) as [e1 [H1 [_ H3]]].
    rewrite H1. destruct Hin as [->|Hin]; [congruence|].
    apply (IH _ e1 st Hin). rewrite H3. exact Hbad.
  - rewrite (build_step_raises lower acc st0 e x E). simpl. f_equal.
    eapply eligibility_raises_value_error. exact E.
Qed.

End Malformed.

(** C6, as the code has it.  A malformed requirement string is not
    recovered: when a step of the recipe carries a parameter whose string
    [parse_req] rejects, and some capability passes the semantic and the
    parameter-coverage checks for that step, [build_constraints] raises
    [ValueError] to its caller. *)
Theorem malformed_requirement_is_raised :
  forall (lower : str -> str) (e : engine) (steps : list step) (st : step)
         (cap : capability) (k vstr : str),
    rec_data e = Some steps ->
    In st steps ->
    In cap (cap_list e) ->
    reaches_range_check lower (params_of st) (step_semantic_of st) cap ->
    In (k, vstr) (params_of st) ->
    raises (parse_req vstr) ->
    fst (build_constraints lower e) = Raise ValueError.
Proof.
  intros lower e steps st cap k vstr Hrec Hin Hcap Hreach Hk Hbad.
  rewrite build_constraints_unfold, Hrec. unfold build_rest, bind.
  set (e0 := set_valid_mapping [] (set_step_vars [] (set_solver Z3.Optimize e))).
  destruct (assign_modes_in lower e0 steps 0 st Hin) as [m Hm].
  assert (Hst : step_eligibility lower (cap_list (prepared lower e steps))
                  (set_mode m st) = Raise ValueError).
  { unfold step_eligibility.
    apply (eligibility_malformed lower _ _ _ cap); [exact Hcap|].
    apply (check_capability_malformed lower _ _ _ k vstr); assumption. }
  pose proof (build_steps_malformed lower
                (assign_modes lower e0 0 steps) [] (prepared lower e steps)
                (set_mode m st) Hm Hst) as H.
  destruct (fold_each (assign_modes lower e0 0 steps) [] (build_step lower)
              (prepared lower e steps)) as [r e1] eqn:E.
  assert (H' : fst (r, e1) = Raise ValueError) by (rewrite <- E; exact H).
  simpl in H'. subst r. reflexivity.
Qed.

Lemma malformed_requirement_is_raised_witness :
  parse_req (lit "abc") = Raise ValueError /\
  fst (build_constraints lower_ascii (heating_engine "abc")) = Raise ValueError.
Proof.
  split; [vm_compute; reflexivity|].
  apply (malformed_requirement_is_raised lower_ascii (heating_engine "abc")
           [heating_step "abc"] (heating_step "abc")
           (build_capability [(lit "HeatingProcess", [])] (lit "R1") heat_entry)
           (lit "temp") (lit "abc")).
  - reflexivity.
  - left. reflexivity.
  - left. vm_compute. reflexivity.
  - split.
    + vm_compute. reflexivity.
    + intros k' Hk'. vm_compute in Hk'. destruct Hk' as [<-|[]].
      vm_compute. reflexivity.
  - left. vm_compute. reflexivity.
  - exists ValueError. vm_compute. reflexivity.
Defined.

(** C6, as the claim states it, fails: with the requirement ["abc"] for
    the temperature, [build_constraints] does not return; the [ValueError]
    of [parse_req] reaches its caller. *)
Lemma malformed_requirement_not_recovered :
  parse_req (lit "abc") = Raise ValueError /\
  fst (build_constraints lower_ascii (heating_engine "abc")) = Raise ValueError /\
  fst (cycle lower_ascii Oracle.check (heating_engine "abc")) = Raise ValueError.
Proof. repeat split; vm_compute; reflexivity. Qed.

(* ------------------------------------------------------------------ *)
(** * Repeating a cycle *)

Section Respects.
Context {X : Type}.
Variable proj : engine -> X.

Lemma respects_ret : forall A (a : A), respects proj (ret a).
Proof. intros A a e e0 H. auto. Qed.

Lemma respects_lift : forall A (r : result A), respects proj (lift r).
Proof. intros A r e e0 H. auto. Qed.

Lemma respects_read :
  forall A (f : engine -> A),
    (forall e e0, proj e = proj e0 -> f e = f e0) -> respects proj (read f).
Proof. intros A f Hf e e0 H. simpl. split; [f_equal; auto | exact H]. Qed.

Lemma respects_update :
  forall f,
    (forall e e0, proj e = proj e0 -> proj (f e) = proj (f e0)) ->
    respects proj (update f).
Proof. intros f Hf e e0 H. simpl. auto. Qed.

Lemma respects_bind :
  forall A B (m : M A) (k : A -> M B),
    respects proj m -> (forall a, respects proj (k a)) -> respects proj (bind m k).
Proof.
  intros A B m k Hm Hk e e0 H. unfold bind.
  destruct (Hm e e0 H) as [H1 H2].
  destruct (m e) as [[a|x] e'], (m e0) as [[a0|x0] e0']; simpl in *;
    try discriminate.
  - injection H1 as <-. apply Hk. exact H2.
  - injection H1 as <-. auto.
Qed.

Lemma respects_for_each :
  forall A (body : A -> M unit) l,
    (forall x, respects proj (body x)) -> respects proj (for_each l body).
Proof.
  intros A body l H. induction l as [|x l IH]; simpl.
  - apply respects_ret.
  - apply respects_bind; auto.
Qed.

Lemma respects_fold_each :
  forall A B (body : B -> A -> M B) l acc,
    (forall acc x, respects proj (body acc x)) ->
    respects proj (fold_each l acc body).
Proof.
  intros A B body l. induction l as [|x l IH]; intros acc H; simpl.
  - apply respects_ret.
  - apply respects_bind; auto.
Qed.

Lemma respects_step_var :
  forall k,
    (forall e e0, proj e = proj e0 -> step_vars e = step_vars e0) ->
    respects proj (step_var k).
Proof.
  intros k Hp e e0 H. unfold step_var. rewrite (Hp e e0 H).
  destruct (PyDict.get pair_eqb k (step_vars e0)); simpl; auto.
Qed.
End Respects.

Ltac respects_side :=
  let e := fresh "e" in
  let e0 := fresh "e0" in
  let H := fresh "H" in
  intros e e0 H; unfold core, but_assigned, valid_of in *; simpl;
  inversion H; congruence.

Ltac respects_step :=
  lazymatch goal with
  | |- respects _ (ret _) => apply respects_ret
  | |- respects _ (lift _) => apply respects_lift
  | |- respects _ (read _) => apply respects_read; respects_side
  | |- respects _ (step_var _) => apply respects_step_var; respects_side
  | |- respects _ (bind _ _) => apply respects_bind
  | |- respects _ (for_each _ _) => apply respects_for_each
  | |- respects _ (fold_each _ _ _) => apply respects_fold_each
  | |- respects _ (update _) => apply respects_update; respects_side
  | |- respects _ (match ?x with _ => _ end) => destruct x
  | |- forall _, _ => intro
  end.

Ltac respects_all :=
  repeat first
    [ respects_step
    | progress unfold solver_add, neighbour_vars, require_one_of, create_vars,
        add_selection ].

Section Repeat.
Variable lower : str -> str.
Variable check : Z3.optimize -> option Z3.model.

(** The eligibility loop reads and writes only the capability list, the
    two mappings and the solver. *)
Lemma build_step_respects_core :
  forall inv st, respects core (build_step lower inv st).
Proof. intros. unfold build_step. respects_all. Qed.

(** Everything after the transport modes are set, and [solve], ignore the
    recorded assignments. *)
Lemma build_step_respects :
  forall inv st, respects but_assigned (build_step lower inv st).
Proof. intros. unfold build_step. respects_all. Qed.

Lemma build_transport_respects :
  forall st, respects but_assigned (build_transport lower st).
Proof.
  intros. unfold build_transport, handle_feed_mode, handle_discharge_mode,
    handle_transfer_mode.
  respects_all.
Qed.

Lemma build_rest_respects :
  forall steps, respects but_assigned (build_rest lower steps).
Proof.
  intros. unfold build_rest, set_objective. respects_all.
  - apply build_step_respects.
  - apply build_transport_respects.
Qed.
End Repeat.

Lemma engine_eq :
  forall e e0,
    but_assigned e = but_assigned e0 ->
    assigned_resources e = assigned_resources e0 ->
    e = e0.
Proof.
  intros [] [] H1 H2. unfold but_assigned in H1. simpl in *.
  inversion H1. subst. reflexivity.
Qed.

Section Inputs.
Variable lower : str -> str.

(** The transport mode of a step depends on the engine through the step
    identifiers and the recorded assignments only, and not on the tag the
    step already carries. *)
Lemma determine_transport_mode_ext :
  forall e e0 st st0 idx,
    step_ids e = step_ids e0 ->
    assigned_resources e = assigned_resources e0 ->
    set_mode None st = set_mode None st0 ->
    determine_transport_mode lower e st idx
    = determine_transport_mode lower e0 st0 idx.
Proof.
  intros e e0 st st0 idx Hi Ha Hs.
  unfold set_mode in Hs. injection Hs as H1 H2 H3.
  unfold determine_transport_mode, flow_mode, assigned_resource, step_type,
    explicit_mode, param_hint.
  rewrite Hi, Ha, H1, H2, H3. reflexivity.
Qed.

Lemma assign_modes_ext :
  forall e e0 steps steps0 idx,
    step_ids e = step_ids e0 ->
    assigned_resources e = assigned_resources e0 ->
    forget_modes steps = forget_modes steps0 ->
    assign_modes lower e idx steps = assign_modes lower e0 idx steps0.
Proof.
  intros e e0 steps. induction steps as [|st steps IH];
    intros [|st0 steps0] idx Hi Ha Hs; try discriminate; [reflexivity|].
  simpl in Hs. injection Hs as H1 H2 H3 H4. simpl.
  rewrite (IH steps0 (S idx) Hi Ha H4).
  rewrite (determine_transport_mode_ext e e0 st st0 idx Hi Ha).
  - unfold interior. rewrite Hi. unfold set_mode. rewrite H1, H2, H3. reflexivity.
  - unfold set_mode. rewrite H1, H2, H3. reflexivity.
Qed.

Lemma forget_assign_modes :
  forall e steps idx,
    forget_modes (assign_modes lower e idx steps) = forget_modes steps.
Proof.
  intros e steps. induction steps as [|st steps IH]; intro idx; simpl.
  - reflexivity.
  - rewrite IH. reflexivity.
Qed.

(** The eligibility loop does not look at the tags either. *)
Lemma build_steps_forget :
  forall steps acc e,
    fold_each (forget_modes steps) acc (build_step lower) e
    = fold_each steps acc (build_step lower) e.
Proof.
  induction steps as [|st steps IH]; intros acc e; simpl.
  - reflexivity.
  - unfold bind.
    change (build_step lower acc (set_mode None st) e)
      with (build_step lower acc st e).
    destruct (build_step lower acc st e) as [[a|x] e1]; [apply IH | reflexivity].
Qed.

Lemma build_rest_tail :
  forall steps e,
    build_rest lower steps e
    = bind (fold_each steps [] (build_step lower)) (build_tail lower steps) e.
Proof. reflexivity. Qed.

Lemma build_tail_returns :
  forall steps inv e i,
    fst (build_tail lower steps inv e) = Ok i -> i = inv.
Proof.
  intros steps inv e i. unfold build_tail, bind.
  destruct (for_each steps (build_transport lower) e) as [[[]|x] e1]; simpl;
    [|discriminate].
  destruct (set_objective e1) as [[[]|x] e2]; simpl; [|discriminate].
  intro H. injection H as <-. reflexivity.
Qed.

Lemma build_tail_keeps :
  forall X (f : engine -> X),
    (forall v e, f (set_solver v e) = f e) ->
    forall steps inv, steady (keeps f) (build_tail lower steps inv).
Proof.
  intros X f Hf steps inv.
  unfold build_tail, build_transport, handle_feed_mode, handle_discharge_mode,
    handle_transfer_mode, set_objective.
  repeat first
    [ steady_step (@keeps_refl X f) (@keeps_trans X f)
    | progress unfold solver_add, neighbour_vars, require_one_of
    | (unfold keeps; apply Hf) ].
Qed.

Lemma build_steps_keeps :
  forall X (f : engine -> X),
    (forall v e, f (set_solver v e) = f e) ->
    (forall v e, f (set_step_vars v e) = f e) ->
    (forall v e, f (set_valid_mapping v e) = f e) ->
    forall steps acc, steady (keeps f) (fold_each steps acc (build_step lower)).
Proof.
  intros X f H1 H2 H3 steps acc.
  apply (steady_fold_each _ (@keeps_refl X f) (@keeps_trans X f)).
  intros acc0 st. unfold build_step.
  repeat first
    [ steady_step (@keeps_refl X f) (@keeps_trans X f)
    | progress unfold solver_add, create_vars, add_selection
    | (unfold keeps; first [apply H1 | apply H2 | apply H3]) ].
Qed.

Lemma build_rest_keeps :
  forall X (f : engine -> X),
    (forall v e, f (set_solver v e) = f e) ->
    (forall v e, f (set_step_vars v e) = f e) ->
    (forall v e, f (set_valid_mapping v e) = f e) ->
    forall steps, steady (keeps f) (build_rest lower steps).
Proof.
  intros X f H1 H2 H3 steps e. rewrite build_rest_tail.
  apply (steady_bind _ (@keeps_trans X f)).
  - apply build_steps_keeps; assumption.
  - intro inv. apply build_tail_keeps. assumption.
Qed.
End Inputs.

Section Cycle.
Variable lower : str -> str.
Variable check : Z3.optimize -> option Z3.model.

Lemma record_first_respects :
  forall m step_id cids, respects but_assigned (record_first m step_id cids).
Proof.
  intros m step_id cids. induction cids as [|cap_id cids IH]; simpl.
  - apply respects_ret.
  - respects_all. exact IH.
Qed.

Lemma record_first_keeps :
  forall X (f : engine -> X),
    (forall v e, f (set_assigned_resources v e) = f e) ->
    forall m step_id cids, steady (keeps f) (record_first m step_id cids).
Proof.
  intros X f Hf m step_id cids. induction cids as [|cap_id cids IH]; simpl.
  - apply (steady_ret _ (@keeps_refl X f)).
  - repeat first
      [ exact IH
      | steady_step (@keeps_refl X f) (@keeps_trans X f)
      | (unfold keeps; apply Hf) ].
Qed.

Lemma solve_respects : respects but_assigned (solve check).
Proof.
  unfold solve.
  apply respects_bind; [apply respects_read; respects_side|].
  intro s. destruct (check s) as [[|d m]|]; respects_all.
  apply record_first_respects.
Qed.

Lemma solve_keeps :
  forall X (f : engine -> X),
    (forall v e, f (set_assigned_resources v e) = f e) ->
    steady (keeps f) (solve check).
Proof.
  intros X f Hf. unfold solve.
  apply (steady_bind _ (@keeps_trans X f));
    [apply (steady_read _ (@keeps_refl X f))|].
  intro s. destruct (check s) as [[|d m]|];
    repeat first
      [ apply record_first_keeps; exact Hf
      | steady_step (@keeps_refl X f) (@keeps_trans X f)
      | (unfold keeps; apply Hf) ].
Qed.

(** The assignments [solve] leaves are either computed afresh from the
    model, or those it found. *)
Lemma solve_assigned :
  forall e e0,
    but_assigned e = but_assigned e0 ->
    assigned_resources (snd (solve check e))
    = assigned_resources (snd (solve check e0))
    \/ (assigned_resources (snd (solve check e)) = assigned_resources e /\
        assigned_resources (snd (solve check e0)) = assigned_resources e0).
Proof.
  intros e e0 H.
  assert (Hs : solver e = solver e0) by (unfold but_assigned in H; congruence).
  unfold solve.
  match goal with
  | |- context [bind (read solver) ?k] =>
      change (bind (read solver) k e) with (k (solver e) e);
      change (bind (read solver) k e0) with (k (solver e0) e0)
  end.
  cbv beta zeta. rewrite Hs.
  destruct (check (solver e0)) as [[|d m]|].
  - right. split; reflexivity.
  - left.
    assert (E : set_assigned_resources [] e = set_assigned_resources [] e0).
    { apply engine_eq; [|reflexivity]. unfold but_assigned in *. simpl. exact H. }
    match goal with
    | |- context [bind (bind (update ?r) ?k1) ?k2] =>
        change (bind (bind (update r) k1) k2 e) with (bind (k1 tt) k2 (r e));
        change (bind (bind (update r) k1) k2 e0) with (bind (k1 tt) k2 (r e0))
    end.
    rewrite E. reflexivity.
  - right. split; reflexivity.
Qed.

Lemma cycle_cases :
  forall e,
    (exists x,
        fst (build_constraints lower e) = Raise x /\
        cycle lower check e = (Raise x, snd (build_constraints lower e)))
    \/ (exists inv,
        fst (build_constraints lower e) = Ok inv /\
        cycle lower check e
        = (rbind (fst (solve check (snd (build_constraints lower e))))
             (fun m => Ok (inv, m)),
           snd (solve check (snd (build_constraints lower e))))).
Proof.
  intro e. unfold cycle, bind, ret.
  destruct (build_constraints lower e) as [[inv|x] eb]; simpl.
  - right. exists inv. split; [reflexivity|].
    destruct (solve check eb) as [[m|y] es]; reflexivity.
  - left. exists x. auto.
Qed.

(** What [build_constraints] leaves of the attributes it does not
    rebuild. *)
Lemma build_constraints_frame :
  forall e,
    let eb := snd (build_constraints lower e) in
    cap_list eb = cap_list e /\
    step_ids eb = step_ids e /\
    semantic_hierarchy eb = semantic_hierarchy e /\
    assigned_resources eb = assigned_resources e /\
    rec_data eb = option_map (assign_modes lower (cleared e) 0) (rec_data e).
Proof.
  intro e. cbv zeta. rewrite build_constraints_unfold.
  destruct (rec_data e) as [s|] eqn:Hrec; simpl.
  - repeat split;
      match goal with
      | |- ?f (snd (build_rest _ ?l ?p)) = _ =>
          transitivity (f p);
          [apply (build_rest_keeps lower _ f); reflexivity | reflexivity]
      end.
  - repeat split; try reflexivity. exact Hrec.
Qed.

Lemma cycle_frame :
  forall e,
    let e1 := snd (cycle lower check e) in
    cap_list e1 = cap_list e /\
    step_ids e1 = step_ids e /\
    semantic_hierarchy e1 = semantic_hierarchy e /\
    rec_data e1 = option_map (assign_modes lower (cleared e) 0) (rec_data e) /\
    valid_mapping e1 = valid_mapping (snd (build_constraints lower e)).
Proof.
  intro e. cbv zeta.
  destruct (build_constraints_frame e) as [F1 [F2 [F3 [_ F5]]]].
  destruct (cycle_cases e) as [[x [_ ->]]|[inv [_ ->]]]; simpl.
  - auto.
  - rewrite (solve_keeps _ cap_list), (solve_keeps _ step_ids),
      (solve_keeps _ semantic_hierarchy), (solve_keeps _ rec_data),
      (solve_keeps _ valid_mapping); auto.
Qed.
End Cycle.

Section Repetition.
Variable lower : str -> str.
Variable check : Z3.optimize -> option Z3.model.

(** Two builds on the same capabilities and the same recipe, whatever its
    tags, agree on the eligibility they compute. *)
Lemma build_constraints_eligibility :
  forall e e0,
    cap_list e = cap_list e0 ->
    option_map forget_modes (rec_data e) = option_map forget_modes (rec_data e0) ->
    valid_mapping (snd (build_constraints lower e))
    = valid_mapping (snd (build_constraints lower e0))
    /\ forall i i0,
         fst (build_constraints lower e) = Ok i ->
         fst (build_constraints lower e0) = Ok i0 ->
         i = i0.
Proof.
  intros e e0 Hc Hr. rewrite !build_constraints_unfold.
  destruct (rec_data e) as [s|], (rec_data e0) as [s0|]; try discriminate;
    [|split; [reflexivity | discriminate]].
  simpl in Hr. injection Hr as Hr.
  set (l := assign_modes lower _ 0 s). set (l0 := assign_modes lower _ 0 s0).
  assert (Hl : forget_modes l = forget_modes l0).
  { unfold l, l0. rewrite !forget_assign_modes. exact Hr. }
  rewrite !build_rest_tail. unfold bind.
  rewrite <- (build_steps_forget lower l), <- (build_steps_forget lower l0).
  rewrite Hl.
  assert (Hcore : core (prepared lower e s) = core (prepared lower e0 s0)).
  { unfold core, prepared. simpl. rewrite Hc. reflexivity. }
  match goal with
  | |- context [@fold_each ?A ?B ?L ?acc ?b (prepared lower e s)] =>
      destruct (respects_fold_each core A B b L acc
                  (build_step_respects_core lower) _ _ Hcore) as [H1 H2];
      revert H1 H2;
      destruct (@fold_each A B L acc b (prepared lower e s)) as [[inv|x] eL];
      destruct (@fold_each A B L acc b (prepared lower e0 s0)) as [[inv0|x0] eL0]
  end; simpl; intros H1 H2; try discriminate.
  - injection H1 as <-. split.
    + rewrite (build_tail_keeps lower _ valid_mapping (fun _ _ => eq_refl) l inv eL).
      rewrite (build_tail_keeps lower _ valid_mapping (fun _ _ => eq_refl) l0 inv eL0).
      unfold core in H2. congruence.
    + intros i i0 Hi Hi0.
      apply build_tail_returns in Hi. apply build_tail_returns in Hi0. congruence.
  - split; [|discriminate]. unfold core in H2. congruence.
Qed.

(** A build whose transport modes come out as those of the build before
    it gives the same outcome and, the recorded assignments apart, the same
    engine. *)
Lemma build_constraints_repeat :
  forall e e',
    cap_list e' = cap_list e ->
    step_ids e' = step_ids e ->
    semantic_hierarchy e' = semantic_hierarchy e ->
    rec_data e' = rec_data (snd (build_constraints lower e)) ->
    rec_data (snd (build_constraints lower e'))
    = rec_data (snd (build_constraints lower e)) ->
    fst (build_constraints lower e') = fst (build_constraints lower e)
    /\ but_assigned (snd (build_constraints lower e'))
       = but_assigned (snd (build_constraints lower e)).
Proof.
  intros e e' Hc Hi Hh Hr Hm.
  destruct (build_constraints_frame lower e) as [_ [_ [_ [_ F]]]].
  destruct (build_constraints_frame lower e') as [_ [_ [_ [_ F']]]].
  rewrite F in Hr, Hm. rewrite F' in Hm. clear F F'.
  rewrite !build_constraints_unfold.
  destruct (rec_data e) as [s|] eqn:He; simpl in Hr; rewrite Hr in *; simpl in Hm.
  - injection Hm as Hm.
    change (set_valid_mapping [] (set_step_vars [] (set_solver Z3.Optimize e')))
      with (cleared e').
    change (set_valid_mapping [] (set_step_vars [] (set_solver Z3.Optimize e)))
      with (cleared e).
    rewrite Hm.
    apply build_rest_respects.
    unfold but_assigned, prepared. simpl.
    change (set_valid_mapping [] (set_step_vars [] (set_solver Z3.Optimize e')))
      with (cleared e').
    change (set_valid_mapping [] (set_step_vars [] (set_solver Z3.Optimize e)))
      with (cleared e).
    rewrite Hm, Hc, Hi, Hh. reflexivity.
  - split; [reflexivity|].
    unfold but_assigned. simpl. rewrite Hc, Hi, Hh, Hr, He. reflexivity.
Qed.

(** A cycle whose transport modes come out as those of the cycle before
    it repeats that cycle. *)
Lemma cycle_repeat :
  forall e,
    rec_data (snd (cycle lower check (snd (cycle lower check e))))
    = rec_data (snd (cycle lower check e)) ->
    cycle lower check (snd (cycle lower check e)) = cycle lower check e.
Proof.
  intros e Hm.
  set (e1 := snd (cycle lower check e)) in *.
  destruct (cycle_frame lower check e) as [C1 [C2 [C3 [C4 _]]]]. fold e1 in C1, C2, C3, C4.
  destruct (cycle_frame lower check e1) as [_ [_ [_ [C4' _]]]].
  destruct (build_constraints_frame lower e) as [_ [_ [_ [A F]]]].
  destruct (build_constraints_frame lower e1) as [_ [_ [_ [A1 F1]]]].
  destruct (build_constraints_repeat e e1 C1 C2 C3) as [R1 R2].
  { rewrite F. exact C4. }
  { rewrite F1, <- C4', Hm. rewrite F. exact C4. }
  destruct (cycle_cases lower check e) as [[x [Hx Hcy]]|[inv [Hinv Hcy]]];
    destruct (cycle_cases lower check e1) as [[x1 [Hx1 Hcy1]]|[inv1 [Hinv1 Hcy1]]];
    rewrite R1 in *; try congruence.
  - rewrite Hcy1, Hcy. f_equal; [congruence|].
    apply engine_eq; [exact R2|].
    rewrite A1. unfold e1. rewrite Hcy. simpl. reflexivity.
  - assert (Hi : inv1 = inv) by congruence. subst inv1.
    destruct (solve_respects check _ _ R2) as [S1 S2].
    rewrite Hcy1, Hcy. rewrite S1. f_equal.
    apply engine_eq; [exact S2|].
    destruct (solve_assigned check _ _ R2) as [Ha|[Ha _]]; [exact Ha|].
    rewrite Ha, A1. unfold e1. rewrite Hcy. reflexivity.
Qed.
End Repetition.

(** C9, as the code has it.  A second cycle on the same engine computes
    the same eligibility: the same valid mapping and, when both cycles
    return, the same rejection reasons.  It builds the same constraint model
    and ends with the same outcome and the same engine exactly when the
    transport modes it resolves are those of the first cycle. *)
Theorem repeated_cycle :
  forall (lower : str -> str) (check : Z3.optimize -> option Z3.model)
         (e : engine),
    let first := cycle lower check e in
    let second := cycle lower check (snd first) in
    valid_mapping (snd second) = valid_mapping (snd first)
    /\ (forall i1 m1 i2 m2,
          fst first = Ok (i1, m1) -> fst second = Ok (i2, m2) -> i2 = i1)
    /\ (rec_data (snd second) = rec_data (snd first) <-> second = first).
Proof.
  intros lower check e first second.
  destruct (cycle_frame lower check e) as [C1 [_ [_ [C4 C5]]]].
  fold first in C1, C4, C5.
  destruct (cycle_frame lower check (snd first)) as [_ [_ [_ [_ C5']]]].
  fold second in C5'.
  destruct (build_constraints_eligibility lower (snd first) e C1) as [E1 E2].
  { rewrite C4. destruct (rec_data e) as [s|]; simpl; [|reflexivity].
    rewrite forget_assign_modes. reflexivity. }
  split; [|split].
  - rewrite C5', C5. exact E1.
  - intros i1 m1 i2 m2 H1 H2. apply E2.
    + destruct (cycle_cases lower check (snd first)) as [[x [_ Hc]]|[inv [Hi Hc]]];
        fold second in Hc; rewrite Hc in H2; simpl in H2; [discriminate|].
      destruct (fst (solve check _)); simpl in H2; [|discriminate].
      injection H2 as <- _. exact Hi.
    + destruct (cycle_cases lower check e) as [[x [_ Hc]]|[inv [Hi Hc]]];
        fold first in Hc; rewrite Hc in H1; simpl in H1; [discriminate|].
      destruct (fst (solve check _)); simpl in H1; [|discriminate].
      injection H1 as <- _. exact Hi.
  - split; [apply cycle_repeat | intro H; rewrite H; reflexivity].
Qed.

Lemma repeated_cycle_witness :
  let first := cycle lower_ascii Oracle.check (heating_engine "50") in
  let second := cycle lower_ascii Oracle.check (snd first) in
  assigned_resources (snd first) = [(lit "S1", lit "R1::Heat")] /\
  second = first.
Proof.
  intros first second. split; [vm_compute; reflexivity|].
  apply (repeated_cycle lower_ascii Oracle.check (heating_engine "50")).
  vm_compute. reflexivity.
Defined.

(** C9, as the claim states it, fails.  An application that has run the
    weighing recipe and then loads the dosing recipe runs two cycles on the
    same capabilities and the same recipe: the first resolves the dosing
    step to [feed] and assigns it to [R1], the second resolves it to
    [discharge] and assigns it to [R2]; the constraint models and the
    outcomes differ. *)
Lemma repeated_cycle_differs :
  let first := cycle lower_ascii Oracle.check reloaded_engine in
  let second := cycle lower_ascii Oracle.check (snd first) in
  cap_list (snd first) = cap_list reloaded_engine /\
  option_map forget_modes (rec_data (snd first)) = Some dosing_recipe /\
  option_map (map transport_mode) (rec_data (snd first))
  = Some [None; Some feed; None] /\
  option_map (map transport_mode) (rec_data (snd second))
  = Some [None; Some discharge; None] /\
  assigned_resources (snd first)
  = [(lit "s0", lit "R1::Mixing"); (lit "s1", lit "R1::Dosing");
     (lit "s2", lit "R2::Heating")] /\
  assigned_resources (snd second)
  = [(lit "s0", lit "R1::Mixing"); (lit "s1", lit "R2::Dosing");
     (lit "s2", lit "R2::Heating")] /\
  solver (snd second) <> solver (snd first) /\
  fst second <> fst first.
Proof.
  intros first second.
  repeat split; try (vm_compute; reflexivity);
    vm_compute; intro H; discriminate H.
Qed.

(* ------------------------------------------------------------------ *)
(** * Further properties of the hierarchy resolver *)

Lemma visit_parents_nodup :
  forall ps A W A' W',
    NoDup A -> visit_parents ps (A, W) = (A', W') -> NoDup A'.
Proof.
  induction ps as [|p ps IH]; intros A W A' W' Hnd H; simpl in H.
  - injection H as <- <-. exact Hnd.
  - unfold visit_parents in IH. destruct (str_in p A) eqn:E.
    + eapply IH; eauto.
    + eapply IH; [|exact H].
      apply NoDup_app; [exact Hnd | repeat constructor; intros [] |].
      intros x Hx [<-|[]]. apply str_in_false_iff in E. contradiction.
Qed.

Lemma ancestors_loop_nodup :
  forall h fuel A W r,
    NoDup A -> ancestors_loop fuel h A W = Some r -> NoDup r.
Proof.
  intros h fuel. induction fuel as [|fuel IH]; intros A W r Hnd H;
    [discriminate|].
  simpl in H. destruct W as [|current rest].
  - injection H as <-. exact Hnd.
  - destruct (visit_parents (PyDict.get_default PyStr.eqb current [] h) (A, rest))
      as [A' W'] eqn:E.
    eapply IH; [|exact H]. eapply visit_parents_nodup; eauto.
Qed.

(** X1.  The ancestors of a type are listed once each, whatever diamonds
    or cycles the hierarchy has, and apart from the type itself they are
    all named as a parent somewhere in the hierarchy. *)
Theorem ancestors_without_duplicates :
  forall (h : PyDict.dict (K:=str) (V:=list str)) (T : str),
    NoDup (get_all_ancestor_types h T)
    /\ forall x, In x (get_all_ancestor_types h T) -> x = T \/ In x (universe h).
Proof.
  intros h T. split.
  - apply (ancestors_loop_nodup h (ancestors_fuel h) [T] [T]).
    + repeat constructor. intros [].
    + apply get_all_ancestor_types_returns.
  - intros x Hx. apply get_all_ancestor_types_reach in Hx.
    destruct Hx as [|p g _ Hg]; [left; reflexivity|].
    right. eapply parents_in_universe; eauto.
Qed.

(* ------------------------------------------------------------------ *)
(** * Further properties of the transport-mode classifier *)

(** X2.  [determine_transport_mode] gives no mode exactly to the first
    step, to the last step and to the steps whose type is not a transport
    type; every other step receives one of the three modes. *)
Theorem determine_transport_mode_none :
  forall (lower : str -> str) (e : engine) (st : step) (step_idx : nat),
    determine_transport_mode lower e st step_idx = None <->
    (Z.of_nat step_idx = 0
     \/ Z.of_nat step_idx = Z.of_nat (List.length (step_ids e)) - 1
     \/ str_in (step_type lower st) TRANSPORT_TYPES = false)%Z.
Proof.
  intros lower e st idx. unfold determine_transport_mode.
  destruct (str_in (step_type lower st) TRANSPORT_TYPES) eqn:Et;
    destruct (Z.of_nat idx =? 0)%Z eqn:E0;
    destruct (Z.of_nat idx =? Z.of_nat (List.length (step_ids e)) - 1)%Z eqn:E1;
    cbn [orb negb];
    repeat match goal with
           | H : (_ =? _)%Z = true |- _ => apply Z.eqb_eq in H
           | H : (_ =? _)%Z = false |- _ => apply Z.eqb_neq in H
           end;
    try tauto.
  split; [|intros [?|[?|H]]; [contradiction | contradiction | discriminate H]].
  destruct (explicit_mode lower st); [discriminate|].
  destruct (id_hint lower (ID st)); [discriminate|].
  destruct (param_hint lower st); [discriminate|].
  destruct (flow_mode e (ID st) idx); discriminate.
Qed.

(* ------------------------------------------------------------------ *)
(** * Dictionaries *)

Section DictFacts.
Context {K V : Type}.
Variable keq : K -> K -> bool.
Hypothesis keq_eq : forall a b, keq a b = true <-> a = b.

Lemma keq_refl : forall a, keq a a = true.
Proof. intro a. apply keq_eq. reflexivity. Qed.

Lemma dict_get_set :
  forall (k k' : K) (v : V) (d : PyDict.dict),
    PyDict.get keq k (PyDict.set keq k' v d)
    = if keq k k' then Some v else PyDict.get keq k d.
Proof.
  intros k k' v d. induction d as [|[k0 v0] d IH]; simpl.
  - reflexivity.
  - destruct (keq k' k0) eqn:E; simpl.
    + apply keq_eq in E. subst k0. destruct (keq k k'); reflexivity.
    + destruct (keq k k0) eqn:E0.
      * destruct (keq k k') eqn:E1; [|reflexivity].
        apply keq_eq in E0. apply keq_eq in E1. subst.
        rewrite keq_refl in E. discriminate.
      * exact IH.
Qed.

Lemma dict_mem_set :
  forall (k k' : K) (v : V) (d : PyDict.dict),
    PyDict.mem keq k (PyDict.set keq k' v d) = keq k k' || PyDict.mem keq k d.
Proof.
  intros k k' v d. unfold PyDict.mem. rewrite dict_get_set.
  destruct (keq k k'); reflexivity.
Qed.
End DictFacts.

Lemma pair_eqb_eq : forall a b, pair_eqb a b = true <-> a = b.
Proof.
  intros [a1 a2] [b1 b2]. unfold pair_eqb. simpl.
  rewrite andb_true_iff, !eqb_eq. split.
  - intros [-> ->]. reflexivity.
  - intro H. injection H as -> ->. auto.
Qed.

Lemma NoDup_map_inj :
  forall (A B : Type) (f : A -> B) (l : list A) (a b : A),
    NoDup (map f l) -> In a l -> In b l -> f a = f b -> a = b.
Proof.
  intros A B f l a b. induction l as [|x l IH]; intros Hnd Ha Hb Hf;
    [destruct Ha|].
  simpl in Hnd. inversion Hnd as [|y ys Hx Hrest]. subst y ys.
  destruct Ha as [Ha|Ha], Hb as [Hb|Hb].
  - congruence.
  - exfalso. apply Hx. subst x. rewrite Hf. apply in_map. exact Hb.
  - exfalso. apply Hx. subst x. rewrite <- Hf. apply in_map. exact Ha.
  - auto.
Qed.

(* ------------------------------------------------------------------ *)
(** * Further properties of the eligibility filter *)

Section Eligibility.
Variable lower : str -> str.

Lemma eligibility_returns :
  forall params sem caps v0 i0 v i,
    eligibility lower params sem caps v0 i0 = Ok (v, i) ->
    v = v0 ++ map id (filter (accepts lower params sem) caps)
    /\ (forall cid,
          PyDict.mem PyStr.eqb cid i = true <->
          PyDict.mem PyStr.eqb cid i0 = true
          \/ exists cap, In cap caps /\ id cap = cid
                         /\ rejects lower params sem cap = true)
    /\ (forall cid reasons,
          PyDict.get PyStr.eqb cid i = Some reasons ->
          PyDict.get PyStr.eqb cid i0 = Some reasons
          \/ exists cap, In cap caps /\ id cap = cid
                         /\ check_capability lower params sem cap
                            = Ok (Some reasons)).
Proof.
  intros params sem caps. induction caps as [|cap caps IH];
    intros v0 i0 v i H; simpl in H.
  - injection H as <- <-. rewrite app_nil_r. repeat split; auto.
    + intros [?|[cap [[] _]]]; auto.
  - unfold accepts, rejects. simpl.
    destruct (check_capability lower params sem cap) as [[reasons|]|x] eqn:E;
      simpl in H; [| |discriminate].
    + destruct (IH _ _ _ _ H) as [H1 [H2 H3]]. split; [exact H1|]. split.
      * intro cid. rewrite H2, (dict_mem_set PyStr.eqb eqb_eq). split.
        -- intros [Hm|[c [Hc [Hid Hr]]]].
           ++ apply orb_true_iff in Hm. destruct Hm as [Hm|Hm]; [|auto].
              apply eqb_eq in Hm. right. exists cap. repeat split; auto.
              unfold rejects. rewrite E. reflexivity.
           ++ right. exists c. auto.
        -- intros [Hm|[c [[<-|Hc] [Hid Hr]]]].
           ++ left. rewrite Hm. apply orb_true_r.
           ++ left. subst cid. rewrite eqb_refl. reflexivity.
           ++ right. exists c. auto.
      * intros cid rs Hg. destruct (H3 cid rs Hg) as [Hg0|[c [Hc [Hid Hr]]]].
        -- rewrite (dict_get_set PyStr.eqb eqb_eq) in Hg0.
           destruct (PyStr.eqb cid (id cap)) eqn:Ee; [|auto].
           apply eqb_eq in Ee. injection Hg0 as <-.
           right. exists cap. auto.
        -- right. exists c. auto.
    + destruct (IH _ _ _ _ H) as [H1 [H2 H3]]. split; [|split].
      * rewrite H1, <- app_assoc. reflexivity.
      * intro cid. rewrite H2. split.
        -- intros [Hm|[c [Hc [Hid Hr]]]]; [auto|]. right. exists c. auto.
        -- intros [Hm|[c [[<-|Hc] [Hid Hr]]]]; [auto| |].
           ++ unfold rejects in Hr. rewrite E in Hr. discriminate.
           ++ right. exists c. auto.
      * intros cid rs Hg. destruct (H3 cid rs Hg) as [Hg0|[c [Hc [Hid Hr]]]];
          [auto|]. right. exists c. auto.
Qed.

Lemma eligibility_all_checked :
  forall params sem caps v0 i0 v i,
    eligibility lower params sem caps v0 i0 = Ok (v, i) ->
    forall cap, In cap caps ->
      accepts lower params sem cap = true \/ rejects lower params sem cap = true.
Proof.
  intros params sem caps. induction caps as [|c caps IH];
    intros v0 i0 v i H cap Hin; [destruct Hin|].
  simpl in H. unfold accepts, rejects.
  destruct (check_capability lower params sem c) as [[reasons|]|x] eqn:E;
    simpl in H; [| |discriminate];
    (destruct Hin as [<-|Hin]; [rewrite E; auto | eapply IH; eauto]).
Qed.

Lemma check_ranges_reasons :
  forall params cap reasons,
    check_ranges params cap = Ok reasons -> Forall is_range reasons.
Proof.
  induction params as [|[k vstr] params IH]; intros cap reasons H; simpl in H.
  - injection H as <-. constructor.
  - destruct (parse_req vstr) as [[lo hi]|x]; simpl in H; [|discriminate].
    destruct (PyDict.get PyStr.eqb k (props cap)) as [[c_lo c_hi]|];
      [|discriminate].
    destruct (check_ranges params cap) as [rest|x] eqn:E; simpl in H;
      [|discriminate].
    injection H as <-. apply Forall_app. split; [|eapply IH; eauto].
    unfold range_reasons. apply Forall_app. split.
    + destruct lo, c_hi; try constructor.
      destruct (PyFloat.lt _ _); repeat constructor.
    + destruct hi, c_lo; try constructor.
      destruct (PyFloat.lt _ _); repeat constructor.
Qed.

Lemma check_capability_reasons :
  forall params sem cap reasons,
    check_capability lower params sem cap = Ok (Some reasons) ->
    reasons = [SemanticMismatch sem (all_semantic_types cap)]
    \/ (reasons <> [] /\ Forall is_missing reasons)
    \/ (reasons <> [] /\ Forall is_range reasons).
Proof.
  intros params sem cap reasons. unfold check_capability.
  destruct (negb _).
  { intro H. injection H as <-. left. reflexivity. }
  destruct (filter _ (map fst params)) as [|m ms].
  - destruct (check_ranges params cap) as [rs|x] eqn:E; simpl; [|discriminate].
    destruct rs as [|r rs]; [discriminate|].
    intro H. injection H as <-. right. right. split; [discriminate|].
    eapply check_ranges_reasons; eauto.
  - intro H. injection H as <-. right. left. split; [discriminate|].
    change (Forall is_missing (map MissingParameter (m :: ms))).
    generalize (m :: ms). intro l.
    induction l as [|k l IHl]; simpl; constructor; [exact I | exact IHl].
Qed.
End Eligibility.

(** X3.  When the eligibility filter returns for a step, the valid list
    is, in catalog order, the identifiers of the accepted capabilities; the
    invalid mapping has exactly the identifiers of the rejected ones; every
    capability of the catalog is in one of the two; and with distinct
    capability identifiers no identifier is in both. *)
Theorem eligibility_classifies :
  forall (lower : str -> str) (caps : list capability) (st : step)
         (valid : list str) (invalid : invalid_map),
    step_eligibility lower caps st = Ok (valid, invalid) ->
    valid = map id (filter (accepts lower (params_of st) (step_semantic_of st)) caps)
    /\ (forall cid,
          PyDict.mem PyStr.eqb cid invalid = true <->
          exists cap, In cap caps /\ id cap = cid
                      /\ rejects lower (params_of st) (step_semantic_of st) cap = true)
    /\ (forall cap, In cap caps ->
          In (id cap) valid \/ PyDict.mem PyStr.eqb (id cap) invalid = true)
    /\ (NoDup (map id caps) ->
        forall cid, In cid valid -> PyDict.mem PyStr.eqb cid invalid = false).
Proof.
  intros lower caps st valid invalid H. unfold step_eligibility in H.
  destruct (eligibility_returns lower _ _ _ _ _ _ _ H) as [H1 [H2 _]].
  simpl in H1.
  assert (H2' : forall cid,
             PyDict.mem PyStr.eqb cid invalid = true <->
             exists cap, In cap caps /\ id cap = cid
                         /\ rejects lower (params_of st) (step_semantic_of st) cap = true).
  { intro cid. rewrite H2. split; [intros [Hm|?]; [discriminate Hm|auto] | auto]. }
  split; [exact H1|]. split; [exact H2'|]. split.
  - intros cap Hin.
    destruct (eligibility_all_checked lower _ _ _ _ _ _ _ H cap Hin) as [Ha|Hr].
    + left. rewrite H1. apply in_map. apply filter_In. auto.
    + right. apply H2'. exists cap. auto.
  - intros Hnd cid Hv.
    destruct (PyDict.mem PyStr.eqb cid invalid) eqn:Em; [|reflexivity].
    exfalso. apply H2' in Em. destruct Em as [c [Hc [Hid Hr]]].
    rewrite H1 in Hv. apply in_map_iff in Hv. destruct Hv as [c' [Hid' Hf]].
    apply filter_In in Hf. destruct Hf as [Hc' Ha].
    assert (c = c') by (eapply NoDup_map_inj; eauto; congruence).
    subst c'. unfold accepts in Ha. unfold rejects in Hr.
    destruct (check_capability lower (params_of st) (step_semantic_of st) c)
      as [[|]|]; discriminate.
Qed.

Lemma eligibility_classifies_witness :
  step_eligibility lower_ascii (cap_list (heating_engine ">=150"))
    (heating_step ">=150")
  = Ok ([], [(lit "R1::Heat", [MaxBelowDemand (lit "temp") f100
                                  (S754_finite false (75 * 2 ^ 46) (-45))])])
  /\ PyDict.mem PyStr.eqb (lit "R1::Heat")
       [(lit "R1::Heat", [MaxBelowDemand (lit "temp") f100
                            (S754_finite false (75 * 2 ^ 46) (-45))])] = true.
Proof.
  assert (H : step_eligibility lower_ascii (cap_list (heating_engine ">=150"))
                (heating_step ">=150")
              = Ok ([], [(lit "R1::Heat",
                          [MaxBelowDemand (lit "temp") f100
                             (S754_finite false (75 * 2 ^ 46) (-45))])]))
    by (vm_compute; reflexivity).
  split; [exact H|].
  apply (eligibility_classifies _ _ _ _ _ H).
  exists (build_capability [(lit "HeatingProcess", [])] (lit "R1") heat_entry).
  split; [left; vm_compute; reflexivity|].
  split; vm_compute; reflexivity.
Defined.

(** X4.  Every capability recorded as invalid carries at least one reason,
    and its reasons are of one kind: a single type mismatch, or only missing
    parameters, or only range violations; a capability rejected by an
    earlier check is not examined by the later ones. *)
Theorem rejection_reasons :
  forall (lower : str -> str) (caps : list capability) (st : step)
         (valid : list str) (invalid : invalid_map) (cid : str)
         (reasons : list reason),
    step_eligibility lower caps st = Ok (valid, invalid) ->
    PyDict.get PyStr.eqb cid invalid = Some reasons ->
    reasons <> []
    /\ ((exists chain, reasons = [SemanticMismatch (step_semantic_of st) chain])
        \/ Forall is_missing reasons
        \/ Forall is_range reasons).
Proof.
  intros lower caps st valid invalid cid reasons H Hg.
  unfold step_eligibility in H.
  destruct (eligibility_returns lower _ _ _ _ _ _ _ H) as [_ [_ H3]].
  destruct (H3 cid reasons Hg) as [Hn|[cap [_ [_ Hc]]]]; [discriminate Hn|].
  destruct (check_capability_reasons lower _ _ _ _ Hc) as [->|[[Hne Hf]|[Hne Hf]]].
  - split; [discriminate | left; eauto].
  - auto.
  - auto.
Qed.

Lemma rejection_reasons_witness :
  [MaxBelowDemand (lit "temp") f100 (S754_finite false (75 * 2 ^ 46) (-45))] <> []
  /\ ((exists chain,
          [MaxBelowDemand (lit "temp") f100 (S754_finite false (75 * 2 ^ 46) (-45))]
          = [SemanticMismatch (step_semantic_of (heating_step ">=150")) chain])
      \/ Forall is_missing
           [MaxBelowDemand (lit "temp") f100 (S754_finite false (75 * 2 ^ 46) (-45))]
      \/ Forall is_range
           [MaxBelowDemand (lit "temp") f100 (S754_finite false (75 * 2 ^ 46) (-45))]).
Proof.
  assert (H : step_eligibility lower_ascii (cap_list (heating_engine ">=150"))
                (heating_step ">=150")
              = Ok ([], [(lit "R1::Heat",
                          [MaxBelowDemand (lit "temp") f100
                             (S754_finite false (75 * 2 ^ 46) (-45))])]))
    by (vm_compute; reflexivity).
  apply (rejection_reasons _ _ _ _ _ (lit "R1::Heat") _ H).
  vm_compute. reflexivity.
Defined.

(** X5.  The requirement strings of a step are parsed only for a
    capability that passes the semantic and the parameter-coverage checks:
    when no capability of the catalog does, the filter returns, with no
    valid capability, whatever the strings are. *)
Theorem unparsed_without_candidate :
  forall (lower : str -> str) (caps : list capability) (st : step),
    (forall cap, In cap caps ->
       ~ reaches_range_check lower (params_of st) (step_semantic_of st) cap) ->
    exists invalid, step_eligibility lower caps st = Ok ([], invalid).
Proof.
  intros lower caps st H. unfold step_eligibility.
  generalize (@nil (str * list reason)).
  induction caps as [|cap caps IH]; intro i0; simpl.
  - eauto.
  - assert (Hc : exists reasons,
               check_capability lower (params_of st) (step_semantic_of st) cap
               = Ok (Some reasons)).
    { unfold check_capability.
      destruct (str_in _ _) eqn:Es; simpl; [|eauto].
      destruct (filter _ (map fst (params_of st))) as [|m ms] eqn:F; [|eauto].
      exfalso. apply (H cap (or_introl eq_refl)). split; [exact Es|].
      apply no_missing_parameter. exact F. }
    destruct Hc as [reasons ->]. simpl.
    apply IH. intros c Hc. apply H. right. exact Hc.
Qed.

Lemma unparsed_without_candidate_witness :
  raises (parse_req (lit "abc")) /\
  exists invalid,
    step_eligibility lower_ascii (cap_list (snd (load_data plant [] init)))
      {| ID := lit "S1"; SemanticDescription := lit "Heating";
         Parameters := [{| Key := lit "temp"; ValueString := lit "abc" |}];
         transport_mode := None |}
    = Ok ([], invalid).
Proof.
  split; [exists ValueError; vm_compute; reflexivity|].
  apply unparsed_without_candidate.
  intros cap Hin [_ Hk].
  assert (F : forallb (fun c => negb (PyDict.mem PyStr.eqb (lit "temp") (props c)))
                (cap_list (snd (load_data plant [] init))) = true)
    by (vm_compute; reflexivity).
  rewrite forallb_forall in F. specialize (F cap Hin).
  rewrite (Hk (lit "temp") (or_introl eq_refl)) in F. discriminate F.
Defined.

(* ------------------------------------------------------------------ *)
(** * Loading the documents *)

(** The first pass of [build_capabilities] writes the hierarchy only. *)
Lemma collect_hierarchy_spec :
  forall (l : list (str * cap_entry)) (e : engine),
    for_each l (fun '(_, en) =>
      update (fun e =>
        set_semantic_hierarchy
          (PyDict.set PyStr.eqb (entry_semantic_type en) (generalized_by en)
             (semantic_hierarchy e)) e)) e
    = (Ok tt,
       set_semantic_hierarchy
         (fold_left (fun h p =>
                       PyDict.set PyStr.eqb (entry_semantic_type (snd p))
                         (generalized_by (snd p)) h)
            l (semantic_hierarchy e)) e).
Proof.
  induction l as [|[res en] l IH]; intro e.
  - destruct e; reflexivity.
  - cbn [for_each]. unfold bind at 1. unfold update at 1.
    rewrite IH. reflexivity.
Qed.

(** The second pass appends one capability for each entry, all of them
    built on the hierarchy as the first pass left it. *)
Lemma append_capabilities_spec :
  forall (l : list (str * cap_entry)) (e : engine),
    for_each l (fun '(res, en) =>
      update (fun e =>
        set_cap_list
          (cap_list e ++ [build_capability (semantic_hierarchy e) res en]) e)) e
    = (Ok tt,
       set_cap_list
         (cap_list e
          ++ map (fun p => build_capability (semantic_hierarchy e) (fst p) (snd p)) l)
         e).
Proof.
  induction l as [|[res en] l IH]; intro e.
  - cbn [for_each map]. rewrite app_nil_r. destruct e; reflexivity.
  - cbn [for_each]. unfold bind at 1. unfold update at 1.
    rewrite IH. cbn. rewrite <- app_assoc. reflexivity.
Qed.

Lemma build_capabilities_spec :
  forall (d : cap_data) (e : engine),
    build_capabilities d e
    = (Ok tt,
       let h := fold_left (fun h p =>
                             PyDict.set PyStr.eqb (entry_semantic_type (snd p))
                               (generalized_by (snd p)) h)
                  (entries_of d) [] in
       set_cap_list
         (map (fun p => build_capability h (fst p) (snd p)) (entries_of d))
         (set_semantic_hierarchy h e)).
Proof.
  intros d e. unfold build_capabilities.
  unfold bind at 1. unfold update at 1.
  unfold bind at 1. unfold update at 1.
  unfold bind at 1. rewrite collect_hierarchy_spec.
  rewrite append_capabilities_spec. reflexivity.
Qed.

Lemma last_write_wins :
  forall (l : list (str * cap_entry)) (h : PyDict.dict (K:=str) (V:=list str))
         (T : str),
    PyDict.get PyStr.eqb T
      (fold_left (fun h p =>
                    PyDict.set PyStr.eqb (entry_semantic_type (snd p))
                      (generalized_by (snd p)) h) l h)
    = match find (fun p => PyStr.eqb T (entry_semantic_type (snd p))) (rev l) with
      | Some p => Some (generalized_by (snd p))
      | None => PyDict.get PyStr.eqb T h
      end.
Proof.
  induction l as [|p l IH] using rev_ind; intros h T.
  - reflexivity.
  - rewrite fold_left_app, rev_app_distr. cbn [fold_left rev app find].
    rewrite (dict_get_set PyStr.eqb eqb_eq).
    destruct (PyStr.eqb T (entry_semantic_type (snd p))); [reflexivity|].
    apply IH.
Qed.

(** X6.  [load_data] returns normally from any engine state.  The
    capability list is rebuilt from the capability document alone, one
    capability for each entry in document order, each with the ancestors it
    has in the complete new hierarchy; the recipe and its step identifiers
    are replaced; the solver, the variables, the valid mapping and the
    assignments of an earlier run are left as they were. *)
Theorem load_data_replaces :
  forall (d : cap_data) (steps : list step) (e : engine),
    fst (load_data d steps e) = Ok tt
    /\ cap_list (snd (load_data d steps e))
       = map (fun p =>
                build_capability
                  (semantic_hierarchy (snd (load_data d steps e))) (fst p) (snd p))
           (entries_of d)
    /\ rec_data (snd (load_data d steps e)) = Some steps
    /\ step_ids (snd (load_data d steps e)) = map ID steps
    /\ solver (snd (load_data d steps e)) = solver e
    /\ step_vars (snd (load_data d steps e)) = step_vars e
    /\ valid_mapping (snd (load_data d steps e)) = valid_mapping e
    /\ assigned_resources (snd (load_data d steps e)) = assigned_resources e.
Proof.
  intros d steps e.
  assert (E : load_data d steps e
              = (Ok tt,
                 set_step_ids (map ID steps)
                   (set_rec_data (Some steps) (snd (build_capabilities d e))))).
  { unfold load_data. unfold bind at 1. rewrite build_capabilities_spec.
    reflexivity. }
  rewrite E, build_capabilities_spec. repeat split; reflexivity.
Qed.

(** X7.  After [build_capabilities] the hierarchy gives a semantic type
    the parents of the last entry of the document that has this type, and
    nothing for a type no entry has: entries of earlier loads are forgotten
    and a later entry overrides an earlier one of the same type. *)
Theorem semantic_hierarchy_last_entry :
  forall (d : cap_data) (e : engine) (T : str),
    PyDict.get PyStr.eqb T (semantic_hierarchy (snd (build_capabilities d e)))
    = match find (fun p => PyStr.eqb T (entry_semantic_type (snd p)))
              (rev (entries_of d)) with
      | Some p => Some (generalized_by (snd p))
      | None => None
      end.
Proof.
  intros d e T. rewrite build_capabilities_spec. cbn [snd].
  cbv zeta. unfold set_cap_list, set_semantic_hierarchy. cbn [semantic_hierarchy].
  apply last_write_wins.
Qed.

(* ------------------------------------------------------------------ *)
(** * The minus sign in a requirement *)

Lemma has_char_false_iff :
  forall c s, has_char c s = false <-> ~ In c s.
Proof.
  intros c s. unfold has_char. split.
  - intros H Hin. assert (existsb (N.eqb c) s = true); [|congruence].
    apply existsb_exists. exists c. split; [exact Hin | apply N.eqb_refl].
  - intro H. destruct (existsb (N.eqb c) s) eqn:E; [|reflexivity].
    apply existsb_exists in E. destruct E as [x [Hx Hc]].
    apply N.eqb_eq in Hc. subst x. contradiction.
Qed.

Lemma dropwhile_in :
  forall p s c, In c (dropwhile p s) -> In c s.
Proof.
  intros p s c. induction s as [|x s IH]; simpl; [auto|].
  destruct (p x); [right; auto | auto].
Qed.

Lemma strip_with_in :
  forall p s c, In c (strip_with p s) -> In c s.
Proof.
  intros p s c H. unfold strip_with in H.
  apply in_rev in H. apply dropwhile_in in H.
  apply in_rev in H. apply dropwhile_in in H. exact H.
Qed.

Lemma digit_not_minus : forall d : N, (48 + d)%N <> 45%N.
Proof. intro d. lia. Qed.

Lemma transform_go_minus :
  forall s, In 45%N (PyFloat.transform_go s) -> In 45%N s.
Proof.
  induction s as [|c s IH]; simpl; [auto|].
  destruct (c <? 127)%N.
  - intros [H|H]; auto.
  - destruct (isspace c).
    + intros [H|H]; [discriminate H | auto].
    + unfold PyFloat.todecimal.
      destruct (find _ PyFloat.decimal_runs) as [r|] eqn:F.
      * intros [H|H]; [exfalso; exact (digit_not_minus _ H) | auto].
      * intros [H|[]]. discriminate H.
Qed.

Lemma transform_minus :
  forall s, In 45%N (PyFloat.transform s) -> In 45%N s.
Proof.
  intro s. unfold PyFloat.transform.
  destruct (forallb (fun c => (c <? 128)%N) s); [auto | apply transform_go_minus].
Qed.

Lemma strip_underscores_in :
  forall s prev u c,
    PyFloat.strip_underscores prev s = Some u -> In c u -> In c s.
Proof.
  induction s as [|x s IH]; intros prev u c H Hc; simpl in H.
  - destruct (prev =? 95)%N; [discriminate H|].
    injection H as <-. exact Hc.
  - destruct (x =? 95)%N.
    + destruct (PyFloat.isdigit prev); [|discriminate H].
      right. eapply IH; eauto.
    + destruct ((prev =? 95)%N && negb (PyFloat.isdigit x)); [discriminate H|].
      destruct (PyFloat.strip_underscores x s) as [u'|] eqn:E; [|discriminate H].
      injection H as <-. destruct Hc as [Hc|Hc]; [left; exact Hc|].
      right. eapply IH; eauto.
Qed.

Lemma of_ratio_sign :
  forall neg n d, negative (PyFloat.of_ratio neg n d) = false \/
                  negative (PyFloat.of_ratio neg n d) = neg.
Proof.
  intros neg n d. unfold PyFloat.of_ratio, SFdiv.
  destruct (SFdiv_core_binary _ _ _ _ _ _) as [[mz ez] lz].
  unfold binary_round_aux.
  destruct (shr_fexp _ _ mz ez lz) as [mrs' e'].
  destruct (shr_fexp _ _ _ e' _) as [mrs'' e''].
  rewrite xorb_false_r.
  destruct (shr_m mrs''); [auto | | auto].
  destruct (_ <=? _)%Z; auto.
Qed.

Lemma of_decimal_unsigned :
  forall m nd e10, negative (PyFloat.of_decimal false m nd e10) = false.
Proof.
  intros m nd e10. unfold PyFloat.of_decimal.
  destruct m; try reflexivity.
  destruct (400 <? e10)%Z; [reflexivity|].
  destruct (e10 + nd <? -400)%Z; [reflexivity|].
  destruct (0 <=? e10)%Z;
    match goal with
    | |- negative (PyFloat.of_ratio false ?n ?d) = false =>
        destruct (of_ratio_sign false n d); assumption
    end.
Qed.

Lemma take_sign_minus :
  forall c r, fst (PyFloat.take_sign (c :: r)) = true -> c = 45%N.
Proof.
  intros c r. unfold PyFloat.take_sign.
  destruct c as [|p]; [discriminate|].
  repeat (match goal with q : positive |- _ => destruct q end;
          cbn; try discriminate; try (intros _; reflexivity)).
Qed.

Lemma parse_ascii_unsigned :
  forall s v, ~ In 45%N s -> PyFloat.parse_ascii s = Ok v -> negative v = false.
Proof.
  intros s v Hs. unfold PyFloat.parse_ascii.
  assert (Hsign : fst (PyFloat.take_sign s) = false).
  { destruct s as [|c r]; [reflexivity|].
    destruct (fst (PyFloat.take_sign (c :: r))) eqn:E; [|reflexivity].
    exfalso. apply Hs. left. exact (take_sign_minus c r E). }
  destruct (PyFloat.take_sign s) as [neg r]. simpl in Hsign. subst neg.
  destruct r as [|c r]; [discriminate|].
  destruct (PyFloat.isdigit c || (c =? 46)%N).
  - unfold PyFloat.parse_number.
    destruct (PyFloat.take_digits (c :: r)) as [ip r0].
    destruct (match r0 with 46%N :: r1 => PyFloat.take_digits r1 | _ => ([], r0) end)
      as [fp r1].
    destruct (ip ++ fp) as [|d ds]; [discriminate|].
    destruct (PyFloat.take_exponent r1) as [e [|? ?]]; [|discriminate].
    intro H. injection H as <-. apply of_decimal_unsigned.
  - unfold PyFloat.parse_inf_or_nan.
    destruct (_ || _); [intro H; injection H as <-; reflexivity|].
    destruct (PyStr.eqb _ _); [intro H; injection H as <-; reflexivity|].
    discriminate.
Qed.

(** [float] gives a string without a minus sign a float without one. *)
Lemma of_str_unsigned :
  forall s v, ~ In 45%N s -> PyFloat.of_str s = Ok v -> negative v = false.
Proof.
  intros s v Hs. unfold PyFloat.of_str.
  assert (Ht : ~ In 45%N (strip_with PyFloat.ascii_isspace (PyFloat.transform s))).
  { intro H. apply Hs. apply transform_minus. eapply strip_with_in; eauto. }
  destruct (has_char 95%N _).
  - destruct (PyFloat.strip_underscores 0%N _) as [u|] eqn:E; [|discriminate].
    apply parse_ascii_unsigned. intro H. apply Ht.
    eapply strip_underscores_in; eauto.
  - apply parse_ascii_unsigned. exact Ht.
Qed.

(** No piece of [s.split('-')] has a minus sign. *)
Lemma split_minus_pieces :
  forall s cur,
    ~ In 45%N cur ->
    Forall (fun p => ~ In 45%N p) (split_go (lit "-") 0 cur s).
Proof.
  induction s as [|c s IH]; intros cur Hcur.
  - constructor; [|constructor]. intro H. apply Hcur. apply in_rev. exact H.
  - cbn [split_go]. change (lit "-") with [45%N]. cbn [startswith].
    destruct (45 =? c)%N eqn:E; cbn [andb].
    + constructor.
      * intro H. apply Hcur. apply in_rev. exact H.
      * apply (IH []). intros [].
    + apply IH. intros [H|H]; [|auto]. subst c. discriminate E.
Qed.

(** X8.  What [parse_req] returns has the shape its first characters
    announce: a lower bound alone after [>=], an upper bound alone after
    [<=], and both bounds otherwise.  In that last form no bound is ever
    negative, since a minus sign is always taken for the range separator,
    and without a minus sign the two bounds are the same number. *)
Theorem parse_req_shape :
  forall (s : str) (lo hi : option PyFloat.float),
    parse_req s = Ok (lo, hi) ->
    if startswith (lit ">=") (strip s) then (exists v, lo = Some v) /\ hi = None
    else if startswith (lit "<=") (strip s) then lo = None /\ exists v, hi = Some v
    else exists a b,
        lo = Some a /\ hi = Some b
        /\ negative a = false /\ negative b = false
        /\ (has_char 45%N (strip s) = false -> a = b).
Proof.
  intros s lo hi. unfold parse_req. cbv zeta.
  destruct (startswith (lit ">=") (strip s)).
  { destruct (PyFloat.of_str _) as [v|x]; simpl; [|discriminate].
    intro H. injection H as <- <-. eauto. }
  destruct (startswith (lit "<=") (strip s)).
  { destruct (PyFloat.of_str _) as [v|x]; simpl; [|discriminate].
    intro H. injection H as <- <-. eauto. }
  destruct (has_char 45%N (strip s)) eqn:Hm.
  - match goal with
    | |- context [unpack2 (map _ ?l)] =>
        assert (Hp : Forall (fun p => ~ In 45%N p) l)
          by (apply (split_minus_pieces (strip s) []); intros []);
        destruct l as [|p1 [|p2 [|p3 ps]]]; simpl
    end.
    + discriminate.
    + destruct (PyFloat.of_str p1); discriminate.
    + destruct (PyFloat.of_str p1) as [a|] eqn:E1; simpl; [|discriminate].
      destruct (PyFloat.of_str p2) as [b|] eqn:E2; simpl; [|discriminate].
      intro H. injection H as <- <-. exists a, b.
      pose proof (Forall_inv Hp) as H1.
      pose proof (Forall_inv (Forall_inv_tail Hp)) as H2.
      repeat split.
      * exact (of_str_unsigned p1 a H1 E1).
      * exact (of_str_unsigned p2 b H2 E2).
      * discriminate.
    + destruct (PyFloat.of_str p1); simpl; [|discriminate].
      destruct (PyFloat.of_str p2); simpl; [|discriminate].
      destruct (PyFloat.of_str p3); discriminate.
  - destruct (PyFloat.of_str (strip s)) as [v|] eqn:E; simpl; [|discriminate].
    intro H. injection H as <- <-. exists v, v.
    apply has_char_false_iff in Hm.
    repeat split; eapply of_str_unsigned; eauto.
Qed.

Lemma parse_req_shape_witness :
  parse_req (lit "2-4") = Ok (Some f2, Some f4)
  /\ exists a b,
      Some f2 = Some a /\ Some f4 = Some b
      /\ negative a = false /\ negative b = false
      /\ (has_char 45%N (strip (lit "2-4")) = false -> a = b).
Proof.
  assert (H : parse_req (lit "2-4") = Ok (Some f2, Some f4))
    by (vm_compute; reflexivity).
  split; [exact H|].
  exact (parse_req_shape (lit "2-4") (Some f2) (Some f4) H).
Defined.

(* ------------------------------------------------------------------ *)
(** * The builder on a loaded engine *)

Lemma adds_refl : forall e, adds [] e e.
Proof. intro e. unfold adds. rewrite app_nil_r. auto. Qed.

Lemma adds_trans :
  forall c1 c2 e e1 e2, adds c1 e e1 -> adds c2 e1 e2 -> adds (c1 ++ c2) e e2.
Proof.
  intros c1 c2 e e1 e2 (A1 & B1 & C1 & D1) (A2 & B2 & C2 & D2).
  unfold adds. rewrite A2, A1, B2, B1, C2, C1, D2, D1, app_assoc. auto.
Qed.

Lemma adds_valid_of :
  forall cs e e' sid, adds cs e e' -> valid_of sid e' = valid_of sid e.
Proof. intros cs e e' sid (_ & _ & C & _). unfold valid_of. rewrite C. reflexivity. Qed.

Lemma adds_registered :
  forall cs e e', adds cs e e' -> registered e -> registered e'.
Proof.
  intros cs e e' H Hr sid cid Hin.
  rewrite (adds_valid_of _ _ _ sid H) in Hin.
  destruct H as (_ & B & _ & _). rewrite B. apply Hr. exact Hin.
Qed.

Lemma adds_tie :
  forall cs e e' keep sid other cid,
    adds cs e e' -> tie e' keep sid other cid = tie e keep sid other cid.
Proof.
  intros cs e e' keep sid other cid H. unfold tie.
  rewrite (adds_valid_of _ _ _ other H). reflexivity.
Qed.

Lemma adds_in :
  forall cs e e' c, adds cs e e' -> In c cs -> In c (Z3.assertions (solver e')).
Proof.
  intros cs e e' c (A & _) Hc. rewrite A. apply in_or_app. right. exact Hc.
Qed.

(** The inner loop of a handler returns the variables of the neighbour's
    capabilities that pass the test. *)
Lemma neighbour_vars_loop :
  forall other keep e cids acc,
    registered e ->
    incl cids (valid_of other e) ->
    fold_each cids acc (fun vars other_cid =>
      if keep other_cid : bool then
        v <- step_var (other, other_cid) ;; ret (vars ++ [v])
      else ret vars) e
    = (Ok (acc ++ vars_of other (filter keep cids)), e).
Proof.
  intros other keep e cids. induction cids as [|cid cids IH]; intros acc Hr Hin.
  - cbn. rewrite app_nil_r. reflexivity.
  - cbn [fold_each filter]. unfold bind at 1.
    assert (Hc : In cid (valid_of other e)) by (apply Hin; left; reflexivity).
    assert (Hin' : incl cids (valid_of other e))
      by (intros x Hx; apply Hin; right; exact Hx).
    destruct (keep cid).
    + unfold bind at 1. unfold step_var. rewrite (Hr other cid Hc).
      unfold ret at 1. rewrite IH by assumption.
      cbn [vars_of map]. rewrite <- app_assoc. reflexivity.
    + unfold ret at 1. apply IH; assumption.
Qed.

Lemma neighbour_vars_spec :
  forall other keep e,
    registered e ->
    neighbour_vars other keep e
    = (Ok (vars_of other (filter keep (valid_of other e))), e).
Proof.
  intros other keep e Hr. unfold neighbour_vars, bind at 1, read.
  rewrite (neighbour_vars_loop other keep e (valid_of other e) [] Hr (incl_refl _)).
  reflexivity.
Qed.

Lemma require_one_of_spec :
  forall tv vars e,
    exists e', require_one_of tv vars e = (Ok tt, e') /\ adds [link tv vars] e e'.
Proof.
  intros tv [|v vars] e; eexists; (split; [reflexivity|]);
    unfold adds; cbn; auto.
Qed.

(** One pass of a handler's outer loop, for one neighbour. *)
Lemma tie_spec :
  forall keep sid other cid e,
    registered e ->
    exists e',
      (prev_vars <- neighbour_vars other (keep (resource_of cid)) ;;
       require_one_of (Z3.Bool (var_name sid cid)) prev_vars) e = (Ok tt, e')
      /\ adds [tie e keep sid other cid] e e'.
Proof.
  intros keep sid other cid e Hr. unfold bind.
  rewrite neighbour_vars_spec by exact Hr.
  apply require_one_of_spec.
Qed.

Section Loop.
Context {A : Type}.
Variable body : A -> M unit.
Variable c : engine -> A -> list Z3.expr.

(** A loop whose passes only add assertions adds them one after the
    other. *)
Lemma for_each_adds :
  forall (l : list A) (e0 e : engine) (cs0 : list Z3.expr),
    adds cs0 e0 e ->
    (forall x cs e1,
        In x l -> adds cs e0 e1 ->
        exists e2, body x e1 = (Ok tt, e2) /\ adds (c e0 x) e1 e2) ->
    exists e',
      for_each l body e = (Ok tt, e') /\ adds (cs0 ++ flat_map (c e0) l) e0 e'.
Proof.
  induction l as [|x l IH]; intros e0 e cs0 H0 Hbody.
  - exists e. split; [reflexivity|]. cbn. rewrite app_nil_r. exact H0.
  - destruct (Hbody x cs0 e (or_introl eq_refl) H0) as [e2 [E2 A2]].
    destruct (IH e0 e2 (cs0 ++ c e0 x) (adds_trans _ _ _ _ _ H0 A2)) as [e' [E' A']].
    { intros y cs e1 Hy He1. apply (Hbody y cs e1); [right; exact Hy | exact He1]. }
    exists e'. split.
    + cbn [for_each]. unfold bind. rewrite E2. exact E'.
    + cbn [flat_map]. rewrite app_assoc. exact A'.
Qed.
End Loop.

Lemma bind_returns :
  forall A B (m : M A) (k : A -> M B) e a e1 r,
    m e = (Ok a, e1) -> k a e1 = r -> bind m k e = r.
Proof. intros A B m k e a e1 r H1 H2. unfold bind. rewrite H1. exact H2. Qed.


Lemma flat_map_single :
  forall A B (f : A -> B) (l : list A), flat_map (fun x => [f x]) l = map f l.
Proof. intros A B f l. induction l as [|x l IH]; cbn; congruence. Qed.

(** The pass of the transfer handler for one neighbour. *)
Lemma tie_to_spec :
  forall sid other cid e,
    registered e ->
    exists e',
      match other with
      | Some p =>
          if nonempty p then
            prev_vars <- neighbour_vars p (other_resource (resource_of cid)) ;;
            require_one_of (Z3.Bool (var_name sid cid)) prev_vars
          else ret tt
      | None => ret tt
      end e = (Ok tt, e')
      /\ adds (tie_to e sid other cid) e e'.
Proof.
  intros sid [p|] cid e Hr; cbn [tie_to].
  - destruct (nonempty p).
    + apply (tie_spec other_resource sid p cid e Hr).
    + exists e. split; [reflexivity | apply adds_refl].
  - exists e. split; [reflexivity | apply adds_refl].
Qed.

Lemma tie_to_adds :
  forall cs e e' sid other cid,
    adds cs e e' -> tie_to e' sid other cid = tie_to e sid other cid.
Proof.
  intros cs e e' sid [p|] cid H; cbn; [|reflexivity].
  destruct (nonempty p); [|reflexivity].
  rewrite (adds_tie _ _ _ _ _ _ _ H). reflexivity.
Qed.

(** The outer loop of the feed and discharge handlers. *)
Lemma ties_spec :
  forall sid other e,
    registered e ->
    exists e',
      for_each (valid_of sid e) (fun cap_id =>
        let resource := resource_of cap_id in
        transport_var <- step_var (sid, cap_id) ;;
        prev_vars <- neighbour_vars other (same_resource resource) ;;
        require_one_of transport_var prev_vars) e = (Ok tt, e')
      /\ adds (map (tie e same_resource sid other) (valid_of sid e)) e e'.
Proof.
  intros sid other e Hr.
  rewrite <- flat_map_single.
  apply (for_each_adds _ (fun e cid => [tie e same_resource sid other cid])
           (valid_of sid e) e e [] (adds_refl e)).
  intros cid cs e1 Hin He1. cbv zeta. unfold bind at 1, step_var.
  pose proof (adds_registered _ _ _ He1 Hr) as Hr1.
  rewrite (Hr1 sid cid) by (rewrite (adds_valid_of _ _ _ sid He1); exact Hin).
  rewrite <- (adds_tie _ _ _ same_resource sid other cid He1).
  apply (tie_spec same_resource sid other cid e1 Hr1).
Qed.

Lemma index_in :
  forall x l, In x l -> exists i, index x l = Ok i.
Proof.
  intros x l. induction l as [|y l IH]; intros Hin; [destruct Hin|].
  cbn. destruct (PyStr.eqb y x) eqn:E; [eauto|].
  destruct Hin as [->|Hin]; [rewrite eqb_refl in E; discriminate E|].
  destruct (IH Hin) as [i ->]. cbn. eauto.
Qed.

Section Transport.
Variable lower : str -> str.

Lemma handle_feed_mode_spec :
  forall sid e idx,
    registered e ->
    index sid (step_ids e) = Ok idx ->
    exists e',
      handle_feed_mode sid (step_ids e) e = (Ok tt, e')
      /\ adds (match idx with
               | O => []
               | S i => map (tie e same_resource sid (nth i (step_ids e) []))
                          (valid_of sid e)
               end) e e'.
Proof.
  intros sid e idx Hr Hi. unfold handle_feed_mode, bind at 1, lift.
  rewrite Hi. destruct idx as [|i].
  - exists e. split; [reflexivity | apply adds_refl].
  - unfold bind at 1, read. apply ties_spec. exact Hr.
Qed.

Lemma handle_discharge_mode_spec :
  forall sid e idx,
    registered e ->
    index sid (step_ids e) = Ok idx ->
    exists e',
      handle_discharge_mode sid (step_ids e) e = (Ok tt, e')
      /\ adds (if (Z.of_nat idx =? Z.of_nat (List.length (step_ids e)) - 1)%Z
               then []
               else map (tie e same_resource sid (nth (idx + 1) (step_ids e) []))
                      (valid_of sid e)) e e'.
Proof.
  intros sid e idx Hr Hi. unfold handle_discharge_mode, bind at 1, lift.
  rewrite Hi. destruct (_ =? _)%Z.
  - exists e. split; [reflexivity | apply adds_refl].
  - unfold bind at 1, read. apply ties_spec. exact Hr.
Qed.

Lemma handle_transfer_mode_spec :
  forall sid e idx,
    registered e ->
    index sid (step_ids e) = Ok idx ->
    exists e',
      handle_transfer_mode sid (step_ids e) e = (Ok tt, e')
      /\ adds (flat_map
                 (fun cap_id =>
                    tie_to e sid
                      (if (0 <? Z.of_nat idx)%Z
                       then Some (nth (idx - 1) (step_ids e) []) else None)
                      cap_id
                    ++ tie_to e sid
                         (if (Z.of_nat idx <? Z.of_nat (List.length (step_ids e)) - 1)%Z
                          then Some (nth (idx + 1) (step_ids e) []) else None)
                         cap_id)
                 (valid_of sid e)) e e'.
Proof.
  intros sid e idx Hr Hi. unfold handle_transfer_mode, bind at 1, lift.
  rewrite Hi. cbv zeta. unfold bind at 1, read.
  set (prev := if (0 <? Z.of_nat idx)%Z
               then Some (nth (idx - 1) (step_ids e) []) else None).
  set (next := if (Z.of_nat idx <? Z.of_nat (List.length (step_ids e)) - 1)%Z
               then Some (nth (idx + 1) (step_ids e) []) else None).
  apply (for_each_adds _
           (fun e cid => tie_to e sid prev cid ++ tie_to e sid next cid)
           (valid_of sid e) e e [] (adds_refl e)).
  intros cid cs e1 Hin He1. unfold bind at 1, step_var.
  pose proof (adds_registered _ _ _ He1 Hr) as Hr1.
  rewrite (Hr1 sid cid) by (rewrite (adds_valid_of _ _ _ sid He1); exact Hin).
  destruct (tie_to_spec sid prev cid e1 Hr1) as [e2 [E2 A2]].
  destruct (tie_to_spec sid next cid e2 (adds_registered _ _ _ A2 Hr1))
    as [e3 [E3 A3]].
  exists e3. split.
  - match goal with
    | |- bind ?m ?k ?e = _ => apply (bind_returns _ _ m k e tt e2 _ E2)
    end.
    exact E3.
  - rewrite <- (tie_to_adds _ _ _ sid prev cid He1).
    rewrite <- (tie_to_adds _ _ _ sid next cid (adds_trans _ _ _ _ _ He1 A2)).
    exact (adds_trans _ _ _ _ _ A2 A3).
Qed.

Lemma build_transport_spec :
  forall st e,
    registered e ->
    In (ID st) (step_ids e) ->
    exists e',
      build_transport lower st e = (Ok tt, e')
      /\ adds (transport_asserts lower e st) e e'.
Proof.
  intros st e Hr Hin. unfold build_transport, transport_asserts. cbv zeta.
  destruct (index_in _ _ Hin) as [idx Hi]. rewrite Hi.
  destruct (str_in _ _); [|exists e; split; [reflexivity | apply adds_refl]].
  destruct (transport_mode st) as [[| |]|].
  - unfold bind, read. apply handle_feed_mode_spec; assumption.
  - unfold bind, read. apply handle_discharge_mode_spec; assumption.
  - unfold bind, read. apply handle_transfer_mode_spec; assumption.
  - exists e; split; [reflexivity | apply adds_refl].
Qed.

Lemma transport_asserts_adds :
  forall cs e e' st,
    adds cs e e' -> transport_asserts lower e' st = transport_asserts lower e st.
Proof.
  intros cs e e' st H. unfold transport_asserts. cbv zeta.
  pose proof H as (_ & _ & _ & D). rewrite D.
  rewrite (adds_valid_of _ _ _ (ID st) H).
  destruct (str_in _ _); [|reflexivity].
  destruct (transport_mode st) as [[| |]|]; [| | |reflexivity];
    destruct (index (ID st) (step_ids e)) as [idx|]; try reflexivity.
  - destruct idx; [reflexivity|]. apply map_ext. intro cid. apply (adds_tie _ _ _ _ _ _ _ H).
  - destruct (_ =? _)%Z; [reflexivity|]. apply map_ext. intro cid.
    apply (adds_tie _ _ _ _ _ _ _ H).
  - apply flat_map_ext. intro cid.
    rewrite !(tie_to_adds _ _ _ _ _ _ H). reflexivity.
Qed.

(** The third loop of [build_constraints] returns, and adds the transport
    assertions of the steps in their order. *)
Lemma build_transports_spec :
  forall steps e,
    registered e ->
    (forall st, In st steps -> In (ID st) (step_ids e)) ->
    exists e',
      for_each steps (build_transport lower) e = (Ok tt, e')
      /\ adds (flat_map (transport_asserts lower e) steps) e e'.
Proof.
  intros steps e Hr Hids.
  apply (for_each_adds _ (transport_asserts lower) steps e e [] (adds_refl e)).
  intros st cs e1 Hin He1.
  rewrite <- (transport_asserts_adds _ _ _ st He1).
  apply build_transport_spec.
  - exact (adds_registered _ _ _ He1 Hr).
  - destruct He1 as (_ & _ & _ & D). rewrite D. apply Hids. exact Hin.
Qed.
End Transport.

Lemma valid_of_set :
  forall s sid valid e,
    valid_of s (set_valid_mapping
                  (PyDict.set PyStr.eqb sid valid (valid_mapping e)) e)
    = if PyStr.eqb s sid then valid else valid_of s e.
Proof.
  intros s sid valid e. unfold valid_of, PyDict.get_default. cbn [valid_mapping set_valid_mapping].
  rewrite (dict_get_set PyStr.eqb eqb_eq).
  destruct (PyStr.eqb s sid); reflexivity.
Qed.

(** [create_vars] stores the variable of each capability it is given and
    leaves the variables of the other steps as they are. *)
Lemma create_vars_registers :
  forall sid valid acc e,
    exists e',
      fold_each valid acc (fun vars_for cid =>
        let var := Z3.Bool (var_name sid cid) in
        update (fun e =>
          set_step_vars (PyDict.set pair_eqb (sid, cid) var (step_vars e)) e) ;;;
        ret (vars_for ++ [var])) e
      = (Ok (acc ++ vars_of sid valid), e')
      /\ valid_mapping e' = valid_mapping e
      /\ step_ids e' = step_ids e
      /\ solver e' = solver e
      /\ cap_list e' = cap_list e
      /\ (forall c, In c valid ->
            PyDict.get pair_eqb (sid, c) (step_vars e')
            = Some (Z3.Bool (var_name sid c)))
      /\ (forall s c,
            PyDict.get pair_eqb (s, c) (step_vars e)
            = Some (Z3.Bool (var_name s c)) ->
            PyDict.get pair_eqb (s, c) (step_vars e')
            = Some (Z3.Bool (var_name s c))).
Proof.
  intros sid valid. induction valid as [|cid valid IH]; intros acc e.
  - exists e. cbn. rewrite app_nil_r. repeat split; auto. intros c [].
  - pose (e1 := set_step_vars
                  (PyDict.set pair_eqb (sid, cid) (Z3.Bool (var_name sid cid))
                     (step_vars e)) e).
    assert (Hkeep : forall s c,
               PyDict.get pair_eqb (s, c) (step_vars e)
               = Some (Z3.Bool (var_name s c)) ->
               PyDict.get pair_eqb (s, c) (step_vars e1)
               = Some (Z3.Bool (var_name s c))).
    { intros s c H. unfold e1. cbn [step_vars set_step_vars].
      rewrite (dict_get_set pair_eqb pair_eqb_eq).
      destruct (pair_eqb (s, c) (sid, cid)) eqn:E; [|exact H].
      apply pair_eqb_eq in E. injection E as -> ->. reflexivity. }
    destruct (IH (acc ++ [Z3.Bool (var_name sid cid)]) e1)
      as (e' & H1 & H2 & H3 & H4 & H5 & H6 & H7).
    exists e'. rewrite <- app_assoc in H1.
    split; [exact H1|]. repeat split; auto.
    + intros c [<-|Hc]; [|auto]. apply H7. unfold e1.
      cbn [step_vars set_step_vars].
      rewrite (dict_get_set pair_eqb pair_eqb_eq).
      rewrite (proj2 (pair_eqb_eq _ _) eq_refl). reflexivity.
Qed.

Lemma add_selection_adds :
  forall vars_for e,
    exists e',
      add_selection vars_for e = (Ok tt, e')
      /\ adds (selection vars_for) e e'
      /\ cap_list e' = cap_list e.
Proof.
  intros vars_for e.
  destruct (add_selection_spec vars_for e) as (e' & H1 & H2 & H3).
  exists e'. split; [exact H1|]. split; [|exact H3].
  assert (K : forall X (f : engine -> X),
             (forall v e, f (set_solver v e) = f e) ->
             steady (keeps f) (add_selection vars_for)).
  { intros X f Hf. unfold add_selection.
    repeat first
      [ steady_step (@keeps_refl X f) (@keeps_trans X f)
      | progress unfold solver_add
      | (unfold keeps; apply Hf) ]. }
  unfold adds. split; [exact H2|].
  pose proof (K _ step_vars (fun _ _ => eq_refl) e) as K1.
  pose proof (K _ valid_mapping (fun _ _ => eq_refl) e) as K2.
  pose proof (K _ step_ids (fun _ _ => eq_refl) e) as K3.
  unfold keeps in *. rewrite H1 in K1, K2, K3. auto.
Qed.

Section Steps.
Variable lower : str -> str.

(** One pass of the second loop keeps the variables registered. *)
Lemma build_step_spec :
  forall inv st e valid invalid,
    registered e ->
    step_eligibility lower (cap_list e) st = Ok (valid, invalid) ->
    exists e',
      build_step lower inv st e
      = (Ok (PyDict.set PyStr.eqb (ID st) invalid inv), e')
      /\ registered e'
      /\ step_ids e' = step_ids e
      /\ cap_list e' = cap_list e
      /\ valid_of (ID st) e' = valid.
Proof.
  intros inv st e valid invalid Hr H.
  pose (e1 := set_valid_mapping
                (PyDict.set PyStr.eqb (ID st) valid (valid_mapping e)) e).
  destruct (create_vars_registers (ID st) valid [] e1)
    as (e2 & H1 & H2 & H3 & H4 & H5 & H6 & H7).
  change ([] ++ vars_of (ID st) valid) with (vars_of (ID st) valid) in H1.
  destruct (add_selection_adds (vars_of (ID st) valid) e2) as (e3 & H8 & H9 & H10).
  assert (Hv : forall s, valid_of s e2 = if PyStr.eqb s (ID st) then valid else valid_of s e).
  { intro s. unfold valid_of at 1. rewrite H2. apply valid_of_set. }
  assert (Hr2 : registered e2).
  { intros s c Hin. rewrite Hv in Hin.
    destruct (PyStr.eqb s (ID st)) eqn:E.
    - apply eqb_eq in E. subst s. apply H6. exact Hin.
    - apply H7. apply (Hr s c Hin). }
  exists e3. split; [|split; [|split; [|split]]].
  - unfold build_step, bind, read, lift, update. rewrite H.
    fold e1. unfold create_vars, bind, update in *. rewrite H1, H8.
    reflexivity.
  - exact (adds_registered _ _ _ H9 Hr2).
  - destruct H9 as (_ & _ & _ & D). rewrite D, H3. reflexivity.
  - rewrite H10, H5. reflexivity.
  - rewrite (adds_valid_of _ _ _ (ID st) H9), Hv, eqb_refl. reflexivity.
Qed.

(** The second loop either returns with every variable registered, or
    stops with the [ValueError] of the eligibility filter of one step. *)
Lemma build_steps_spec :
  forall steps acc e,
    registered e ->
    match fold_each steps acc (build_step lower) e with
    | (Ok _, e') =>
        registered e' /\ step_ids e' = step_ids e /\ cap_list e' = cap_list e
    | (Raise x, _) =>
        x = ValueError
        /\ exists st, In st steps
                      /\ step_eligibility lower (cap_list e) st = Raise ValueError
    end.
Proof.
  induction steps as [|st steps IH]; intros acc e Hr.
  - cbn. auto.
  - cbn [fold_each].
    destruct (step_eligibility lower (cap_list e) st) as [[valid invalid]|x] eqn:E.
    + destruct (build_step_spec acc st e valid invalid Hr E)
        as (e1 & H1 & H2 & H3 & H4 & _).
      unfold bind. rewrite H1.
      specialize (IH (PyDict.set PyStr.eqb (ID st) invalid acc) e1 H2).
      destruct (fold_each steps _ (build_step lower) e1) as [[i|x] e'].
      * destruct IH as (I1 & I2 & I3). split; [exact I1|].
        split; [rewrite I2; exact H3 | rewrite I3; exact H4].
      * destruct IH as (I1 & st' & I2 & I3). split; [exact I1|].
        exists st'. split; [right; exact I2|]. rewrite <- H4. exact I3.
    + unfold bind. rewrite (build_step_raises lower acc st e x E).
      assert (x = ValueError).
      { unfold step_eligibility in E.
        eapply eligibility_raises_value_error; eauto. }
      subst x. split; [reflexivity|]. exists st. split; [left; reflexivity | exact E].
Qed.

Lemma assign_modes_inv :
  forall e steps idx st1,
    In st1 (assign_modes lower e idx steps) ->
    exists st m, In st steps /\ st1 = set_mode m st.
Proof.
  intros e steps. induction steps as [|st steps IH]; intros idx st1 Hin;
    [destruct Hin|].
  cbn [assign_modes] in Hin. destruct Hin as [<-|Hin].
  - eexists st, _. split; [left; reflexivity | reflexivity].
  - destruct (IH _ _ Hin) as (st' & m & H1 & H2).
    exists st', m. split; [right; exact H1 | exact H2].
Qed.

Lemma set_objective_adds :
  forall e, exists e', set_objective e = (Ok tt, e') /\ adds [] e e'.
Proof.
  intro e. unfold set_objective, bind, read.
  destruct (PyDict.values (step_vars e)).
  - exists e. split; [reflexivity | apply adds_refl].
  - eexists. split; [reflexivity|]. unfold adds. cbn. rewrite app_nil_r. auto.
Qed.

(** What follows the second loop returns, and adds the transport
    assertions. *)
Lemma build_tail_spec :
  forall steps inv e,
    registered e ->
    (forall st, In st steps -> In (ID st) (step_ids e)) ->
    exists e',
      build_tail lower steps inv e = (Ok inv, e')
      /\ adds (flat_map (transport_asserts lower e) steps) e e'.
Proof.
  intros steps inv e Hr Hids.
  destruct (build_transports_spec lower steps e Hr Hids) as (e1 & H1 & A1).
  destruct (set_objective_adds e1) as (e2 & H2 & A2).
  exists e2. split.
  - unfold build_tail. apply (bind_returns _ _ _ _ _ _ _ _ H1).
    apply (bind_returns _ _ _ _ _ _ _ _ H2). reflexivity.
  - rewrite <- (app_nil_r (flat_map _ steps)).
    exact (adds_trans _ _ _ _ _ A1 A2).
Qed.
End Steps.


(* ------------------------------------------------------------------ *)
(** * Transport continuity *)

Lemma index_nodup :
  forall l i,
    NoDup l -> i < List.length l -> index (nth i l []) l = Ok i.
Proof.
  induction l as [|y l IH]; intros i Hnd Hi; [cbn in Hi; lia|].
  inversion Hnd as [|? ? Hy Hl]. subst.
  destruct i as [|i]; cbn [nth index].
  - rewrite eqb_refl. reflexivity.
  - cbn in Hi. destruct (PyStr.eqb y (nth i l [])) eqn:E.
    + apply eqb_eq in E. exfalso. apply Hy. rewrite E. apply nth_In. lia.
    + rewrite IH by (auto; lia). reflexivity.
Qed.

Lemma eval_link :
  forall sigma tv vars,
    Z3.eval sigma (link tv vars) = true ->
    Z3.eval sigma tv = true ->
    exists v, In v vars /\ Z3.eval sigma v = true.
Proof.
  intros sigma tv [|v vars] H Htv; cbn in H; rewrite Htv in H; [discriminate H|].
  cbn in H. apply orb_true_iff in H. destruct H as [H|H].
  - exists v. split; [left; reflexivity | exact H].
  - apply existsb_exists in H. destruct H as [w [Hw Hev]].
    exists w. split; [right; exact Hw | exact Hev].
Qed.

(** What a tie means for a valuation. *)
Lemma eval_tie :
  forall sigma e keep sid other cid,
    Z3.eval sigma (tie e keep sid other cid) = true ->
    sigma (var_name sid cid) = true ->
    exists cid',
      In cid' (valid_of other e)
      /\ keep (resource_of cid) cid' = true
      /\ sigma (var_name other cid') = true.
Proof.
  intros sigma e keep sid other cid H Hs.
  destruct (eval_link sigma _ _ H Hs) as [v [Hv Hev]].
  unfold vars_of in Hv. apply in_map_iff in Hv. destruct Hv as [cid' [<- Hin]].
  apply filter_In in Hin. destruct Hin as [Hin Hk].
  exists cid'. auto.
Qed.

Section Continuity.
Variable lower : str -> str.

Lemma determine_transport_mode_some :
  forall e st idx m,
    determine_transport_mode lower e st idx = Some m ->
    str_in (step_type lower st) TRANSPORT_TYPES = true
    /\ (Z.of_nat idx =? 0)%Z = false
    /\ (Z.of_nat idx =? Z.of_nat (List.length (step_ids e)) - 1)%Z = false.
Proof.
  intros e st idx m H. unfold determine_transport_mode in H.
  destruct (Z.of_nat idx =? 0)%Z; [discriminate H|].
  destruct (Z.of_nat idx =? Z.of_nat (List.length (step_ids e)) - 1)%Z;
    [discriminate H|].
  cbn [orb] in H.
  destruct (str_in (step_type lower st) TRANSPORT_TYPES); [auto | discriminate H].
Qed.

Lemma assign_modes_nth :
  forall e steps k i st,
    nth_error steps i = Some st ->
    nth_error (assign_modes lower e k steps) i
    = Some (set_mode (if interior e (k + i)
                      then determine_transport_mode lower e st (k + i)
                      else None) st).
Proof.
  intros e steps. induction steps as [|s steps IH]; intros k i st H.
  - destruct i; discriminate H.
  - destruct i as [|i]; cbn [nth_error assign_modes] in *.
    + injection H as <-. rewrite Nat.add_0_r. reflexivity.
    + rewrite (IH (S k) i st H). rewrite Nat.add_succ_r. reflexivity.
Qed.

(** After [build_constraints] has returned, the transport assertions of
    every step of the tagged recipe are among the assertions of the
    solver. *)
Lemma build_constraints_transport :
  forall e inv e' steps st1,
    build_constraints lower e = (Ok inv, e') ->
    rec_data e = Some steps ->
    step_ids e = map ID steps ->
    In st1 (assign_modes lower (cleared e) 0 steps) ->
    step_ids e' = step_ids e
    /\ incl (transport_asserts lower e' st1) (Z3.assertions (solver e')).
Proof.
  intros e inv e' steps st1 H Hrec Hids Hin.
  rewrite build_constraints_unfold, Hrec, build_rest_tail in H.
  fold (cleared e) in H.
  set (steps1 := assign_modes lower (cleared e) 0 steps) in *.
  assert (Hr : registered (prepared lower e steps)) by (intros s c []).
  unfold bind in H. revert H.
  match goal with
  | |- context [@fold_each ?A ?B ?L ?acc ?b ?e0] =>
      generalize
        (build_steps_spec lower L acc e0 Hr
         : match @fold_each A B L acc b e0 with
           | (Ok _, e') =>
               registered e' /\ step_ids e' = step_ids e0
               /\ cap_list e' = cap_list e0
           | (Raise x, _) =>
               x = ValueError
               /\ exists st, In st L
                             /\ step_eligibility lower (cap_list e0) st
                                = Raise ValueError
           end);
      destruct (@fold_each A B L acc b e0) as [[inv1|x'] e1]
  end; intros Hs H; [|discriminate H].
  destruct Hs as (Hr1 & Hi1 & _).
  destruct (build_tail_spec lower steps1 inv1 e1 Hr1) as (e2 & H2 & A2).
  { intros st Hst. rewrite Hi1. cbn [prepared step_ids set_rec_data
      set_valid_mapping set_step_vars set_solver]. rewrite Hids.
    destruct (assign_modes_inv lower _ _ _ _ Hst) as (st0 & m & Hst0 & ->).
    apply (in_map ID steps st0 Hst0). }
  rewrite H2 in H. injection H as _ <-.
  split.
  - destruct A2 as (_ & _ & _ & D). rewrite D, Hi1. reflexivity.
  - rewrite (transport_asserts_adds lower _ _ _ st1 A2).
    intros c Hc. apply (adds_in _ _ _ c A2).
    apply in_flat_map. exists st1. split; [exact Hin | exact Hc].
Qed.
End Continuity.

(** X10.  Let [build_constraints] return on a loaded engine whose step
    identifiers are distinct, and take a valuation that satisfies the
    solver.  If it selects a capability of a step in feed mode, it
    selects for the step before it a capability of the same resource; in
    discharge mode, the same for the step after it; in transfer mode, for
    each of the two neighbours, a capability of another resource. *)
Theorem transport_continuity :
  forall (lower : str -> str) (e e' : engine) (inv : invalid_mapping_t)
         (steps : list step) (i : nat) (st : step)
         (sigma : str -> bool) (cid : str),
    build_constraints lower e = (Ok inv, e') ->
    rec_data e = Some steps ->
    step_ids e = map ID steps ->
    NoDup (map ID steps) ->
    nth_error steps i = Some st ->
    Z3.satisfies sigma (solver e') ->
    In cid (valid_of (ID st) e') ->
    sigma (var_name (ID st) cid) = true ->
    let prev := nth (i - 1) (step_ids e) [] in
    let next := nth (i + 1) (step_ids e) [] in
    match determine_transport_mode lower e st i with
    | Some feed =>
        exists cid', In cid' (valid_of prev e')
                     /\ resource_of cid' = resource_of cid
                     /\ sigma (var_name prev cid') = true
    | Some discharge =>
        exists cid', In cid' (valid_of next e')
                     /\ resource_of cid' = resource_of cid
                     /\ sigma (var_name next cid') = true
    | Some transfer =>
        (nonempty prev = true ->
         exists cid', In cid' (valid_of prev e')
                      /\ resource_of cid' <> resource_of cid
                      /\ sigma (var_name prev cid') = true)
        /\ (nonempty next = true ->
            exists cid', In cid' (valid_of next e')
                         /\ resource_of cid' <> resource_of cid
                         /\ sigma (var_name next cid') = true)
    | None => True
    end.
Proof.
  intros lower e e' inv steps i st sigma cid H Hrec Hids Hnd Hi Hsat Hcid Hsig
    prev next.
  destruct (determine_transport_mode lower e st i) as [m|] eqn:Hm; [|exact I].
  assert (Hlen : i < List.length (step_ids e)).
  { rewrite Hids, length_map. apply nth_error_Some. congruence. }
  destruct (determine_transport_mode_some lower e st i m Hm) as (Ht & H0 & Hlast).
  apply Z.eqb_neq in H0. apply Z.eqb_neq in Hlast.
  assert (Hint : interior (cleared e) i = true).
  { unfold interior. cbn [cleared step_ids set_valid_mapping set_step_vars set_solver].
    apply andb_true_iff. split; apply Z.ltb_lt; lia. }
  assert (Hin1 : In (set_mode (Some m) st) (assign_modes lower (cleared e) 0 steps)).
  { apply (nth_error_In _ i).
    rewrite (assign_modes_nth lower (cleared e) steps 0 i st Hi).
    cbn [Nat.add]. rewrite Hint.
    rewrite (determine_transport_mode_ext lower (cleared e) e st st i
               eq_refl eq_refl eq_refl), Hm.
    reflexivity. }
  destruct (build_constraints_transport lower e inv e' steps _ H Hrec Hids Hin1)
    as [Hids' Hincl].
  assert (Hidx : index (ID st) (step_ids e') = Ok i).
  { assert (Hnth : nth i (step_ids e) [] = ID st).
    { rewrite Hids. apply nth_error_nth. apply map_nth_error. exact Hi. }
    rewrite Hids', <- Hnth.
    apply index_nodup; [rewrite Hids; exact Hnd | exact Hlen]. }
  unfold transport_asserts in Hincl. cbv zeta in Hincl.
  change (step_type lower (set_mode (Some m) st)) with (step_type lower st) in Hincl.
  change (ID (set_mode (Some m) st)) with (ID st) in Hincl.
  change (transport_mode (set_mode (Some m) st)) with (Some m) in Hincl.
  rewrite Ht, Hidx, Hids' in Hincl.
  assert (Hsame : forall a b, same_resource (resource_of a) b = true ->
                              resource_of b = resource_of a).
  { intros a b Hab. apply eqb_eq. exact Hab. }
  assert (Hother : forall a b, other_resource (resource_of a) b = true ->
                               resource_of b <> resource_of a).
  { intros a b Hab Heq. unfold other_resource in Hab. rewrite Heq, eqb_refl in Hab.
    discriminate Hab. }
  destruct m.
  - destruct i as [|j]; [lia|].
    assert (Hev : Z3.eval sigma
                    (tie e' same_resource (ID st) (nth j (step_ids e) []) cid) = true).
    { apply Hsat, Hincl. apply in_map. exact Hcid. }
    destruct (eval_tie _ _ _ _ _ _ Hev Hsig) as (cid' & H1 & H2 & H3).
    unfold prev. cbn [Nat.sub]. rewrite Nat.sub_0_r.
    exists cid'. auto.
  - destruct (Z.of_nat i =? Z.of_nat (List.length (step_ids e)) - 1)%Z eqn:El;
      [apply Z.eqb_eq in El; lia|].
    assert (Hev : Z3.eval sigma
                    (tie e' same_resource (ID st) (nth (i + 1) (step_ids e) []) cid)
                  = true).
    { apply Hsat, Hincl. apply in_map. exact Hcid. }
    destruct (eval_tie _ _ _ _ _ _ Hev Hsig) as (cid' & H1 & H2 & H3).
    exists cid'. auto.
  - replace (0 <? Z.of_nat i)%Z with true in Hincl by (symmetry; apply Z.ltb_lt; lia).
    replace (Z.of_nat i <? Z.of_nat (List.length (step_ids e)) - 1)%Z with true
      in Hincl by (symmetry; apply Z.ltb_lt; lia).
    fold prev next in Hincl.
    split; intro Hne.
    + assert (Hev : Z3.eval sigma (tie e' other_resource (ID st) prev cid) = true).
      { apply Hsat, Hincl. apply in_flat_map. exists cid. split; [exact Hcid|].
        apply in_or_app. left. cbn [tie_to]. rewrite Hne. left. reflexivity. }
      destruct (eval_tie _ _ _ _ _ _ Hev Hsig) as (cid' & H1 & H2 & H3).
      exists cid'. auto.
    + assert (Hev : Z3.eval sigma (tie e' other_resource (ID st) next cid) = true).
      { apply Hsat, Hincl. apply in_flat_map. exists cid. split; [exact Hcid|].
        apply in_or_app. right. cbn [tie_to]. rewrite Hne. left. reflexivity. }
      destruct (eval_tie _ _ _ _ _ _ Hev Hsig) as (cid' & H1 & H2 & H3).
      exists cid'. auto.
Qed.

Lemma transport_continuity_witness :
  let e := reloaded_engine in
  let e' := snd (build_constraints lower_ascii e) in
  let sigma :=
    Z3.valuation (match Oracle.check (solver e') with Some m => m | None => [] end) in
  determine_transport_mode lower_ascii e (plain_step "s1" "Dosing") 1 = Some feed
  /\ exists cid',
      In cid' (valid_of (lit "s0") e')
      /\ resource_of cid' = resource_of (lit "R1::Dosing")
      /\ sigma (var_name (lit "s0") cid') = true.
Proof.
  intros e e' sigma.
  assert (Hm : determine_transport_mode lower_ascii e (plain_step "s1" "Dosing") 1
               = Some feed) by (vm_compute; reflexivity).
  split; [exact Hm|].
  assert (Hb : build_constraints lower_ascii e
               = (Ok (match fst (build_constraints lower_ascii e) with
                      | Ok inv => inv
                      | Raise _ => []
                      end), e')) by (vm_compute; reflexivity).
  assert (Hrec : rec_data e = Some dosing_recipe) by (vm_compute; reflexivity).
  assert (Hids : step_ids e = map ID dosing_recipe) by (vm_compute; reflexivity).
  assert (Hnd : NoDup (map ID dosing_recipe)).
  { repeat constructor; cbn; intros H;
      repeat (destruct H as [H|H]; [discriminate H|]); exact H. }
  assert (Hsat : Z3.satisfies sigma (solver e'))
    by (apply holds_satisfies; vm_compute; reflexivity).
  assert (Hcid : In (lit "R1::Dosing") (valid_of (ID (plain_step "s1" "Dosing")) e'))
    by (vm_compute; left; reflexivity).
  assert (Hsig : sigma (var_name (ID (plain_step "s1" "Dosing")) (lit "R1::Dosing"))
                 = true) by (vm_compute; reflexivity).
  pose proof (transport_continuity lower_ascii e e' _ dosing_recipe 1
                (plain_step "s1" "Dosing") sigma (lit "R1::Dosing")
                Hb Hrec Hids Hnd eq_refl Hsat Hcid Hsig) as H.
  cbv zeta in H. rewrite Hm in H.
  assert (Hp : nth (1 - 1) (step_ids e) [] = lit "s0") by (vm_compute; reflexivity).
  rewrite Hp in H. exact H.
Defined.

(* ------------------------------------------------------------------ *)
(** * The extracted assignment *)

Lemma but_assigned_valid_of :
  forall e e' sid, but_assigned e' = but_assigned e -> valid_of sid e' = valid_of sid e.
Proof.
  intros e e' sid H. unfold but_assigned in H. unfold valid_of.
  injection H as _ _ H _ _ _ _. rewrite H. reflexivity.
Qed.

Lemma but_assigned_step_vars :
  forall e e', but_assigned e' = but_assigned e -> step_vars e' = step_vars e.
Proof.
  intros e e' H. unfold but_assigned in H. injection H as _ H _ _ _ _ _. exact H.
Qed.

(** The inner loop of [solve], when it returns, has recorded the first
    capability the model selects, if there is one. *)
Lemma record_first_find :
  forall m sid cids e e',
    (forall c, In c cids ->
       PyDict.get pair_eqb (sid, c) (step_vars e) = Some (Z3.Bool (var_name sid c))) ->
    record_first m sid cids e = (Ok tt, e') ->
    but_assigned e' = but_assigned e
    /\ assigned_resources e'
       = match find (fun c => Z3.valuation m (var_name sid c)) cids with
         | Some cid => PyDict.set PyStr.eqb sid cid (assigned_resources e)
         | None => assigned_resources e
         end.
Proof.
  intros m sid cids e. induction cids as [|c cids IH]; intros e' Hv H.
  - cbn in H. injection H as <-. auto.
  - cbn [record_first] in H. unfold bind at 1, read in H.
    rewrite (Hv c (or_introl eq_refl)) in H.
    unfold bind at 1, lift in H. cbn [find].
    unfold Z3.evaluate in H. unfold Z3.valuation at 1, PyDict.get_default.
    destruct (PyDict.get PyStr.eqb (var_name sid c) m) as [[|]|]; [| |discriminate H].
    + unfold update in H. injection H as <-. split; reflexivity.
    + apply IH; [|exact H]. intros c' Hc'. apply Hv. right. exact Hc'.
Qed.

Section Extraction.
Variable m : Z3.model.
Variable e0 : engine.
Hypothesis e0_registered : registered e0.

(** The capability [solve] records for a step: the first valid one the
    model selects. *)
Let chosen (sid : str) : option str :=
  find (fun c => Z3.valuation m (var_name sid c)) (valid_of sid e0).

Lemma record_all_spec :
  forall ids e e',
    but_assigned e = but_assigned e0 ->
    for_each ids (fun step_id =>
      cids <- read (valid_of step_id) ;;
      record_first m step_id cids) e = (Ok tt, e') ->
    but_assigned e' = but_assigned e0
    /\ forall sid cid,
         chosen sid = Some cid ->
         In sid ids \/ PyDict.get PyStr.eqb sid (assigned_resources e) = Some cid ->
         PyDict.get PyStr.eqb sid (assigned_resources e') = Some cid.
Proof.
  induction ids as [|s ids IH]; intros e e' He H.
  - cbn in H. injection H as <-. split; [exact He|].
    intros sid cid _ [[]|Hg]. exact Hg.
  - cbn [for_each] in H. unfold bind at 1 in H. unfold bind at 1, read in H.
    destruct (record_first m s (valid_of s e) e) as [[[]|x] e1] eqn:E1;
      [|discriminate H].
    assert (Hreg : forall c, In c (valid_of s e) ->
               PyDict.get pair_eqb (s, c) (step_vars e)
               = Some (Z3.Bool (var_name s c))).
    { intros c Hc. rewrite (but_assigned_step_vars _ _ He).
      apply e0_registered. rewrite <- (but_assigned_valid_of _ _ s He). exact Hc. }
    destruct (record_first_find m s _ e e1 Hreg E1) as [Hb1 Ha1].
    rewrite (but_assigned_valid_of _ _ s He) in Ha1. fold (chosen s) in Ha1.
    destruct (IH e1 e' (eq_trans Hb1 He) H) as [Hb' Hall].
    split; [exact Hb'|].
    intros sid cid Hch Hor. apply (Hall sid cid Hch).
    destruct Hor as [[<-|Hin]|Hg].
    + right. rewrite Ha1, Hch. rewrite (dict_get_set PyStr.eqb eqb_eq), eqb_refl.
      reflexivity.
    + left. exact Hin.
    + right. rewrite Ha1. destruct (chosen s) as [c0|] eqn:Hs; [|exact Hg].
      rewrite (dict_get_set PyStr.eqb eqb_eq).
      destruct (PyStr.eqb sid s) eqn:Ee; [|exact Hg].
      apply eqb_eq in Ee. subst sid. congruence.
Qed.
End Extraction.

Section Assignment.
Variable lower : str -> str.
Variable check : Z3.optimize -> option Z3.model.

(** One pass of the second loop asserts the selection constraints of the
    capabilities it has just made the valid ones of the step. *)
Lemma build_step_selects :
  forall inv st e inv' e',
    build_step lower inv st e = (Ok inv', e') ->
    Z3.assertions (solver e')
    = Z3.assertions (solver e) ++ selection (vars_of (ID st) (valid_of (ID st) e'))
    /\ forall s, PyStr.eqb s (ID st) = false -> valid_of s e' = valid_of s e.
Proof.
  intros inv st e inv' e' H.
  destruct (step_eligibility lower (cap_list e) st) as [[valid invalid]|x] eqn:E;
    [|rewrite (build_step_raises lower inv st e x E) in H; discriminate H].
  pose (e1 := set_valid_mapping
                (PyDict.set PyStr.eqb (ID st) valid (valid_mapping e)) e).
  destruct (create_vars_registers (ID st) valid [] e1)
    as (e2 & H1 & H2 & H3 & H4 & H5 & H6 & H7).
  change ([] ++ vars_of (ID st) valid) with (vars_of (ID st) valid) in H1.
  destruct (add_selection_adds (vars_of (ID st) valid) e2) as (e3 & H8 & H9 & H10).
  assert (He : build_step lower inv st e
               = (Ok (PyDict.set PyStr.eqb (ID st) invalid inv), e3)).
  { unfold build_step, bind, read, lift, update. rewrite E.
    fold e1. unfold create_vars, bind, update in *. rewrite H1, H8.
    reflexivity. }
  rewrite He in H. injection H as _ <-.
  assert (Hv : forall s, valid_of s e3
                         = if PyStr.eqb s (ID st) then valid else valid_of s e).
  { intro s. rewrite (adds_valid_of _ _ _ s H9). unfold valid_of at 1.
    rewrite H2. apply valid_of_set. }
  split.
  - rewrite Hv, eqb_refl. destruct H9 as (A & _). rewrite A, H4. reflexivity.
  - intros s Hs. rewrite Hv, Hs. reflexivity.
Qed.

(** When the second loop has returned, the selection constraints of the
    valid capabilities of every step are asserted. *)
Lemma build_steps_selected :
  forall steps acc e acc' e',
    fold_each steps acc (build_step lower) e = (Ok acc', e') ->
    incl (Z3.assertions (solver e)) (Z3.assertions (solver e'))
    /\ (forall s, ~ In s (map ID steps) -> valid_of s e' = valid_of s e)
    /\ (forall s, In s (map ID steps) ->
          incl (selection (vars_of s (valid_of s e'))) (Z3.assertions (solver e'))).
Proof.
  induction steps as [|st steps IH]; intros acc e acc' e' H.
  - cbn in H. injection H as _ <-. split; [apply incl_refl|].
    split; [reflexivity | intros s []].
  - cbn [fold_each] in H. unfold bind in H.
    destruct (build_step lower acc st e) as [[inv1|x] e1] eqn:E1; [|discriminate H].
    destruct (build_step_selects _ _ _ _ _ E1) as [A1 V1].
    destruct (IH _ _ _ _ H) as (G & V & S).
    split; [|split].
    + intros c Hc. apply G. rewrite A1. apply in_or_app. left. exact Hc.
    + intros s Hs. rewrite V by (intro Hin; apply Hs; right; exact Hin).
      apply V1. destruct (PyStr.eqb s (ID st)) eqn:Ee; [|reflexivity].
      apply eqb_eq in Ee. exfalso. apply Hs. left. symmetry. exact Ee.
    + intros s Hs.
      destruct (in_dec (list_eq_dec N.eq_dec) s (map ID steps)) as [Hin|Hnin].
      * apply S. exact Hin.
      * destruct Hs as [<-|Hs]; [|contradiction].
        rewrite (V _ Hnin). intros c Hc. apply G. rewrite A1.
        apply in_or_app. right. exact Hc.
Qed.

(** The same, for the whole of [build_constraints]. *)
Lemma build_constraints_selected :
  forall e inv e' steps,
    build_constraints lower e = (Ok inv, e') ->
    rec_data e = Some steps ->
    registered e'
    /\ step_ids e' = step_ids e
    /\ forall st, In st steps ->
         incl (selection (vars_of (ID st) (valid_of (ID st) e')))
           (Z3.assertions (solver e')).
Proof.
  intros e inv e' steps H Hrec.
  pose proof (build_constraints_frame lower e) as Hf. cbv zeta in Hf.
  rewrite H in Hf. cbn [snd] in Hf. destruct Hf as (_ & Hids & _).
  rewrite build_constraints_unfold, Hrec, build_rest_tail in H.
  fold (cleared e) in H.
  set (steps1 := assign_modes lower (cleared e) 0 steps) in *.
  assert (Hr : registered (prepared lower e steps)) by (intros s c []).
  unfold bind in H. revert H.
  match goal with
  | |- context [@fold_each ?A ?B ?L ?acc ?b ?e0] =>
      generalize
        (build_steps_spec lower L acc e0 Hr
         : match @fold_each A B L acc b e0 with
           | (Ok _, e') =>
               registered e' /\ step_ids e' = step_ids e0
               /\ cap_list e' = cap_list e0
           | (Raise x, _) =>
               x = ValueError
               /\ exists st, In st L
                             /\ step_eligibility lower (cap_list e0) st
                                = Raise ValueError
           end);
      destruct (@fold_each A B L acc b e0) as [[inv1|x'] e1] eqn:Ef
  end; intros Hs H; [|discriminate H].
  destruct Hs as (Hr1 & _).
  destruct (build_steps_selected _ _ _ _ _ Ef) as (_ & _ & S).
  pose proof (build_tail_keeps lower _ step_vars (fun _ _ => eq_refl)
                steps1 inv1 e1) as K1.
  pose proof (build_tail_keeps lower _ valid_mapping (fun _ _ => eq_refl)
                steps1 inv1 e1) as K2.
  assert (G : grows e1 (snd (build_tail lower steps1 inv1 e1))).
  { unfold build_tail.
    apply (steady_bind _ grows_trans).
    - apply (steady_for_each _ grows_refl grows_trans). apply build_transport_grows.
    - intros _. apply (steady_bind _ grows_trans).
      + apply set_objective_grows.
      + intros _. apply (steady_ret _ grows_refl). }
  rewrite H in K1, K2, G. cbn [snd] in K1, K2, G. unfold keeps in K1, K2.
  assert (Hv : forall s, valid_of s e' = valid_of s e1)
    by (intro s; unfold valid_of; rewrite K2; reflexivity).
  split; [|split; [exact Hids|]].
  - intros s c Hin. rewrite Hv in Hin. rewrite K1. apply Hr1. exact Hin.
  - intros st Hst c Hc. apply G. rewrite Hv in Hc.
    apply (S (ID st)); [|exact Hc].
    destruct (assign_modes_in lower (cleared e) steps 0 st Hst) as [md Hmd].
    apply (in_map ID) in Hmd. exact Hmd.
Qed.

(** A valuation that satisfies the selection constraints of a step
    selects one of its capabilities. *)
Lemma selection_selects :
  forall sigma sid valid,
    (forall c, In c (selection (vars_of sid valid)) -> Z3.eval sigma c = true) ->
    exists cid, In cid valid /\ sigma (var_name sid cid) = true.
Proof.
  intros sigma sid valid H. destruct valid as [|c valid].
  - specialize (H (Z3.BoolVal false) (or_introl eq_refl)). discriminate H.
  - specialize (H (Z3.Or (vars_of sid (c :: valid))) (or_introl eq_refl)).
    cbn [Z3.eval] in H. apply existsb_exists in H. destruct H as [v [Hv Hev]].
    unfold vars_of in Hv. apply in_map_iff in Hv. destruct Hv as [cid [<- Hin]].
    exists cid. split; [exact Hin | exact Hev].
Qed.
End Assignment.

(** X11.  Let a build-and-solve cycle on a loaded engine return a model
    of a sound solver.  Then every step of the recipe has an assigned
    capability: the first of its valid capabilities that the model
    selects; in particular it is valid for the step and true in the
    model. *)
Theorem cycle_assigns_every_step :
  forall (lower : str -> str) (check : Z3.optimize -> option Z3.model)
         (e e' : engine) (inv : invalid_mapping_t) (m : Z3.model)
         (steps : list step) (st : step),
    sound check ->
    rec_data e = Some steps ->
    step_ids e = map ID steps ->
    cycle lower check e = (Ok (inv, Some m), e') ->
    In st steps ->
    exists cid,
      PyDict.get PyStr.eqb (ID st) (assigned_resources e') = Some cid
      /\ find (fun c => Z3.valuation m (var_name (ID st) c)) (valid_of (ID st) e')
         = Some cid
      /\ In cid (valid_of (ID st) e')
      /\ Z3.valuation m (var_name (ID st) cid) = true.
Proof.
  intros lower check e e' inv m steps st Hsound Hrec Hids H Hst.
  unfold cycle, bind in H.
  destruct (build_constraints lower e) as [[inv1|x] e1] eqn:Eb; [|discriminate H].
  destruct (solve check e1) as [[mo|x] e2] eqn:Es; [|discriminate H].
  unfold ret in H. injection H as <- -> <-.
  destruct (build_constraints_selected lower e inv1 e1 steps Eb Hrec)
    as (Hreg & Hids1 & Hsel).
  unfold solve, bind at 1, read in Es.
  destruct (check (solver e1)) as [m'|] eqn:Ec.
  2:{ unfold bind, ret in Es. injection Es as Es _. discriminate Es. }
  pose proof (Hsound _ _ Ec) as Hsat.
  destruct (selection_selects (Z3.valuation m') (ID st) (valid_of (ID st) e1))
    as (c1 & Hc1 & Hv1).
  { intros c Hc. apply Hsat. apply (Hsel st Hst). exact Hc. }
  destruct m' as [|d m'']; [discriminate Hv1|].
  unfold bind at 1 in Es. unfold bind at 1, update in Es.
  unfold bind at 1, read in Es.
  cbn [step_ids set_assigned_resources] in Es.
  match type of Es with
  | context [for_each ?L ?body ?en] =>
      destruct (for_each L body en) as [[[]|x] e3] eqn:El
  end; [|discriminate Es].
  unfold ret in Es. injection Es as <- <-.
  destruct (record_all_spec (d :: m'') e1 Hreg (step_ids e1)
              (set_assigned_resources [] e1) e3 eq_refl El) as [Hb Hall].
  assert (Hvo : valid_of (ID st) e3 = valid_of (ID st) e1)
    by (apply but_assigned_valid_of; exact Hb).
  rewrite Hvo.
  destruct (find (fun c => Z3.valuation (d :: m'') (var_name (ID st) c))
              (valid_of (ID st) e1)) as [cid|] eqn:Ef.
  - exists cid. split; [|split; [reflexivity|]].
    + apply Hall; [exact Ef|]. left. rewrite Hids1, Hids.
      apply (in_map ID steps st Hst).
    + apply find_some in Ef. exact Ef.
  - exfalso. pose proof (find_none _ _ Ef c1 Hc1) as Hn. cbv beta in Hn.
    congruence.
Qed.

Lemma cycle_assigns_every_step_witness :
  let e := heating_engine "50" in
  let r := cycle lower_ascii Oracle.check e in
  let m := match fst r with Ok (_, Some m) => m | _ => [] end in
  exists cid,
    PyDict.get PyStr.eqb (lit "S1") (assigned_resources (snd r)) = Some cid
    /\ find (fun c => Z3.valuation m (var_name (lit "S1") c))
         (valid_of (lit "S1") (snd r)) = Some cid
    /\ In cid (valid_of (lit "S1") (snd r))
    /\ Z3.valuation m (var_name (lit "S1") cid) = true.
Proof.
  intros e r m.
  apply (cycle_assigns_every_step lower_ascii Oracle.check e (snd r)
           (match fst r with Ok (inv, _) => inv | Raise _ => [] end) m
           [heating_step "50"] (heating_step "50") oracle_check_sound).
  - vm_compute. reflexivity.
  - vm_compute. reflexivity.
  - vm_compute. reflexivity.
  - left. reflexivity.
Defined.

(* ------------------------------------------------------------------ *)
(** * Inference of data types and units *)

Lemma startswith_iff :
  forall p s, startswith p s = true <-> exists post, s = p ++ post.
Proof.
  induction p as [|a p IH]; intros s.
  - split; [intros _; exists s; reflexivity | reflexivity].
  - destruct s as [|b s]; cbn.
    + split; [discriminate | intros [post H]; discriminate H].
    + rewrite andb_true_iff, N.eqb_eq, IH. split.
      * intros [-> [post ->]]. exists post. reflexivity.
      * intros [post H]. injection H as -> ->. eauto.
Qed.

(** [sub in s] holds exactly when [sub] occurs in [s]. *)
Lemma contains_iff :
  forall sub s, contains sub s = true <-> exists pre post, s = pre ++ sub ++ post.
Proof.
  intros sub s. induction s as [|c s IH]; cbn [contains].
  - rewrite orb_false_r, startswith_iff. split.
    + intros [post H]. exists [], post. exact H.
    + intros [pre [post H]]. destruct pre; [exists post; exact H | discriminate H].
  - rewrite orb_true_iff, startswith_iff, IH. split.
    + intros [[post H]|[pre [post H]]].
      * exists [], post. exact H.
      * exists (c :: pre), post. rewrite H. reflexivity.
    + intros [[|x pre] [post H]].
      * left. exists post. exact H.
      * right. injection H as _ H. exists pre, post. exact H.
Qed.

(** A string that has [a ++ b ++ c] has [b]. *)
Lemma contains_part :
  forall a b c s, contains (a ++ b ++ c) s = true -> contains b s = true.
Proof.
  intros a b c s H. apply contains_iff in H. destruct H as [pre [post ->]].
  apply contains_iff. exists (pre ++ a), (c ++ post).
  rewrite <- !app_assoc. reflexivity.
Qed.

(** X12.  [infer_data_type_and_unit] never answers kilograms: a value
    that names [kg] has a [g] and one that names [kilo] has an [l], and
    those are tested first.  Nor does it answer minutes or liters for a
    value that has the letter [s], which is read as seconds. *)
Theorem infer_data_type_and_unit_shadowed :
  forall (lower : str -> str) (param_key value_str : str),
    infer_data_type_and_unit lower param_key value_str
    <> (lit "Mass", lit "Kilograms")
    /\ (snd (infer_data_type_and_unit lower param_key value_str) = lit "Minutes"
        \/ snd (infer_data_type_and_unit lower param_key value_str) = lit "Liters" ->
        contains (lit "s") (lower value_str) = false).
Proof.
  intros lower k v. unfold infer_data_type_and_unit. cbv zeta.
  repeat match goal with
         | |- context [if ?c then _ else _] => destruct c eqn:?
         end;
    (split;
     [ try (intro H; apply (f_equal snd) in H; cbv in H; discriminate H)
     | try (intros [H|H]; cbv in H; discriminate H) ]).
  all: repeat match goal with
         | H : (_ || _) = false |- _ => apply orb_false_iff in H; destruct H
         end.
  all: try (intros _; assumption).
  exfalso.
  match goal with
  | Hk : (_ || _) = true |- _ =>
      apply orb_true_iff in Hk; destruct Hk as [Hkg|Hkilo]
  end.
  - match goal with
    | Hg : contains (lit "g") ?s = false |- _ =>
        pose proof (contains_part (lit "k") (lit "g") [] s Hkg) as Hc;
        rewrite Hc in Hg; discriminate Hg
    end.
  - match goal with
    | Hl : contains (lit "l") ?s = false |- _ =>
        pose proof (contains_part (lit "ki") (lit "l") (lit "o") s Hkilo) as Hc;
        rewrite Hc in Hl; discriminate Hl
    end.
Qed.

(* ------------------------------------------------------------------ *)
(** * The two versions of the bounds loop *)

Lemma vmin_of_tidy :
  forall p, tidy (valueMin p) -> tidy (value0 p) ->
            vmin_of p = Sibling_05_06.vmin_of p.
Proof.
  intros p H H0. unfold vmin_of, Sibling_05_06.vmin_of, py_or.
  destruct H as [H|H].
  - rewrite H. cbn [truthy].
    destruct H0 as [H0|H0]; rewrite H0; reflexivity.
  - rewrite H. rewrite H.
    destruct (valueMin p); try reflexivity. discriminate H.
Qed.

Lemma vmax_of_tidy :
  forall p, tidy (valueMax p) -> tidy (value1 p) ->
            vmax_of p = Sibling_05_06.vmax_of p.
Proof.
  intros p H H0. unfold vmax_of, Sibling_05_06.vmax_of, py_or.
  destruct H as [H|H].
  - rewrite H. cbn [truthy].
    destruct H0 as [H0|H0]; rewrite H0; reflexivity.
  - rewrite H. rewrite H.
    destruct (valueMax p); try reflexivity. discriminate H.
Qed.

(** X13.  The bounds loops of [02.07.py] and of [05.06.py] build the same
    properties from a list in which every bound that is present is true in
    a condition (no [0], [0.0], [False] or empty string): the two ways of
    falling back on [value0] and [value1] differ only on such values. *)
Theorem build_props_agree :
  forall ps : list property,
    (forall p, In p ps ->
       tidy (valueMin p) /\ tidy (value0 p)
       /\ tidy (valueMax p) /\ tidy (value1 p)) ->
    build_props ps = Sibling_05_06.build_props ps.
Proof.
  intros ps. unfold build_props, Sibling_05_06.build_props.
  generalize (@nil (str * range)).
  induction ps as [|p ps IH]; intros acc H; [reflexivity|].
  cbn [fold_left].
  destruct (H p (or_introl eq_refl)) as (H1 & H2 & H3 & H4).
  rewrite (vmin_of_tidy p H1 H2), (vmax_of_tidy p H3 H4).
  apply IH. intros q Hq. apply H. right. exact Hq.
Qed.

Lemma build_props_agree_witness :
  build_props [temp_20_100] = Sibling_05_06.build_props [temp_20_100].
Proof.
  apply build_props_agree.
  intros p [<-|[]]. unfold tidy. cbn. auto.
Defined.
